(** * pixi-cull: the spatial-hash culling index ([SpatialHash])

    A shallow embedding of the class [SpatialHash] of the repository and the
    verification of its bucket bookkeeping, its queries and its refresh pass.

    Modelling decisions, all local to this file:

    - JavaScript numbers are modelled by [Z].  The model therefore covers
      integer-valued coordinates, scales and cell sizes, where
      [Math.floor (a / s)] is the floor division [a / s] of [Z] as long as
      [s] is not zero.  A zero cell size makes the source divide by zero
      and loop on [Infinity]; that is outside the model, and the theorems
      ask for non-zero cell sizes, or for positive ones where the grid has
      to be oriented.
    - Display objects and containers are JavaScript heap objects that are
      shared by reference between the buckets, the tracked lists and the
      caller.  The heap is modelled as a total map from identities ([oid],
      [cid]) to records; a mutation is a pointwise update of that map.
    - The bucket map [this.hash] is a JavaScript object used as a dictionary;
      it is modelled by [gmap].  The key of cell [(x, y)] is the template
      string [`${x},${y}`] in the source; on integers that string determines
      [x] and [y], so the model uses the pair itself as the key.  The
      enumeration order of [for ... in] is not modelled.
    - A JavaScript exception ends a call abnormally; the model returns
      [Thrown] and drops the partially mutated heap.
    - The options of the constructor are numbers and booleans, or omitted;
      a property that is present with the value [undefined] is outside the
      model.
    - Two diagnostics return a quotient that is not rounded down
      ([getAverageSize], [getSparseness]); the model returns the two
      operands of the division ([JsQuotient]) and the theorems speak about
      them.  [getWorldBounds] starts from [Infinity]; [JsNumber] adds that
      value to [Z]. *)

From stdpp Require Import base option list gmap strings.
From Stdlib Require Import ZArith Lia.

Local Open Scope Z_scope.

(** ** Abnormal termination *)

Inductive JsError : Type :=
| TypeError.   (* reading a property of [undefined] *)

Inductive outcome (A : Type) : Type :=
| Returned (a : A)
| Thrown (e : JsError).

Arguments Returned {A} a.
Arguments Thrown {A} e.

Definition obind {A B : Type} (m : outcome A) (f : A -> outcome B) : outcome B :=
  match m with
  | Returned a => f a
  | Thrown e => Thrown e
  end.

Notation "'let!' x ':=' m 'in' k" := (obind m (fun x => k))
  (at level 10, x pattern, m at level 100, k at level 200).

(** ** Data model (types.ts, spatial-hash.ts) *)

(** Identities of display objects and of containers, and cell keys.  These
    are abbreviations, so that the library lemmas about [nat] and pairs
    apply as they are. *)
Abbreviation oid := nat (only parsing).
Abbreviation cid := nat (only parsing).
Abbreviation key := (Z * Z)%type (only parsing).

(** The key [`${x},${y}`] built in [updateObject] and in the queries. *)
Definition mkKey (x y : Z) : key := (x, y).

Record AABB : Type := mkAABB {
  aabb_x : Z;
  aabb_y : Z;
  aabb_width : Z;
  aabb_height : Z
}.

Record SpatialHashBounds : Type := mkBounds {
  bxStart : Z;
  byStart : Z;
  bxEnd : Z;
  byEnd : Z
}.

(** [object.spatial]: the keys of the occupied cells and the cached range.
    The four range fields are [undefined] until the first indexing. *)
Record Spatial : Type := mkSpatial {
  hashes : list key;
  xStart : option Z;
  yStart : option Z;
  xEnd : option Z;
  yEnd : option Z
}.

Record DisplayObject : Type := mkObject {
  obj_x : Z;
  obj_y : Z;
  pivot_x : Z;
  pivot_y : Z;
  scale_x : Z;
  scale_y : Z;
  localBounds : AABB;            (* what [getLocalBounds()] returns *)
  cachedAABB : option AABB;      (* [object.AABB] *)
  spatial : option Spatial;      (* [object.spatial] *)
  dirty : bool;                  (* [undefined] is falsy *)
  staticObject : bool;
  visible : bool
}.

(** The two closures that [addContainer] creates; [n] tells the closures of
    different [addContainer] calls apart (function identity in [off]). *)
Inductive listener : Type :=
| AddedFn (n : nat)
| RemovedFn (n : nat).

Global Instance listener_eq_dec : EqDecision listener.
Proof. solve_decision. Defined.

Record ContainerCullObject : Type := mkCull {
  cull_static : bool;
  cull_added : option listener;
  cull_removed : option listener
}.

Record Container : Type := mkContainer {
  children : list oid;
  cull_ : option ContainerCullObject;        (* [container.cull] *)
  listeners : list (string * listener)       (* the event emitter's table *)
}.

Record SpatialHashOptions : Type := mkOptions {
  opt_size : option Z;
  opt_xSize : option Z;
  opt_ySize : option Z;
  opt_simpleTest : option bool;
  opt_dirtyTest : option bool
}.

Record SpatialHash : Type := mkSpatialHash {
  xSize : Z;
  ySize : Z;
  simpleTest : bool;
  dirtyTest : bool;
  width : Z;
  height : Z;
  hash : gmap key (list oid);
  containers : list cid;
  elements : list oid;
  lastBuckets : Z
}.

(** The heap together with the one index under study.  [closures] counts the
    [addContainer] calls made so far and names the closures of the next. *)
Record World : Type := mkWorld {
  objs : oid -> DisplayObject;
  conts : cid -> Container;
  this : SpatialHash;
  closures : nat
}.

(** *** Field updates *)

Definition upd {A : Type} (f : nat -> A) (i : nat) (a : A) : nat -> A :=
  fun j => if decide (j = i) then a else f j.

Definition set_cachedAABB (b : option AABB) (d : DisplayObject) : DisplayObject :=
  mkObject (obj_x d) (obj_y d) (pivot_x d) (pivot_y d) (scale_x d) (scale_y d)
    (localBounds d) b (spatial d) (dirty d) (staticObject d) (visible d).

Definition set_spatial (s : option Spatial) (d : DisplayObject) : DisplayObject :=
  mkObject (obj_x d) (obj_y d) (pivot_x d) (pivot_y d) (scale_x d) (scale_y d)
    (localBounds d) (cachedAABB d) s (dirty d) (staticObject d) (visible d).

Definition set_dirty (b : bool) (d : DisplayObject) : DisplayObject :=
  mkObject (obj_x d) (obj_y d) (pivot_x d) (pivot_y d) (scale_x d) (scale_y d)
    (localBounds d) (cachedAABB d) (spatial d) b (staticObject d) (visible d).

Definition set_staticObject (b : bool) (d : DisplayObject) : DisplayObject :=
  mkObject (obj_x d) (obj_y d) (pivot_x d) (pivot_y d) (scale_x d) (scale_y d)
    (localBounds d) (cachedAABB d) (spatial d) (dirty d) b (visible d).

Definition set_visible (b : bool) (d : DisplayObject) : DisplayObject :=
  mkObject (obj_x d) (obj_y d) (pivot_x d) (pivot_y d) (scale_x d) (scale_y d)
    (localBounds d) (cachedAABB d) (spatial d) (dirty d) (staticObject d) b.

Definition set_hashes (l : list key) (s : Spatial) : Spatial :=
  mkSpatial l (xStart s) (yStart s) (xEnd s) (yEnd s).

Definition set_range (b : SpatialHashBounds) (s : Spatial) : Spatial :=
  mkSpatial (hashes s) (Some (bxStart b)) (Some (byStart b))
    (Some (bxEnd b)) (Some (byEnd b)).

Definition set_hash (h : gmap key (list oid)) (s : SpatialHash) : SpatialHash :=
  mkSpatialHash (xSize s) (ySize s) (simpleTest s) (dirtyTest s) (width s)
    (height s) h (containers s) (elements s) (lastBuckets s).

Definition set_containers (l : list cid) (s : SpatialHash) : SpatialHash :=
  mkSpatialHash (xSize s) (ySize s) (simpleTest s) (dirtyTest s) (width s)
    (height s) (hash s) l (elements s) (lastBuckets s).

Definition set_elements (l : list oid) (s : SpatialHash) : SpatialHash :=
  mkSpatialHash (xSize s) (ySize s) (simpleTest s) (dirtyTest s) (width s)
    (height s) (hash s) (containers s) l (lastBuckets s).

Definition set_lastBuckets (n : Z) (s : SpatialHash) : SpatialHash :=
  mkSpatialHash (xSize s) (ySize s) (simpleTest s) (dirtyTest s) (width s)
    (height s) (hash s) (containers s) (elements s) n.

Definition with_obj (o : oid) (f : DisplayObject -> DisplayObject) (w : World) : World :=
  mkWorld (upd (objs w) o (f (objs w o))) (conts w) (this w) (closures w).

Definition with_cont (c : cid) (f : Container -> Container) (w : World) : World :=
  mkWorld (objs w) (upd (conts w) c (f (conts w c))) (this w) (closures w).

Definition with_this (f : SpatialHash -> SpatialHash) (w : World) : World :=
  mkWorld (objs w) (conts w) (f (this w)) (closures w).

(** *** Array primitives of the host language *)

(** [Array.prototype.indexOf]: the first position of [o], or [-1]. *)
Fixpoint indexOf (o : nat) (l : list nat) : Z :=
  match l with
  | [] => -1
  | a :: l' =>
      if decide (a = o) then 0
      else let i := indexOf o l' in if i <? 0 then -1 else i + 1
  end.

(** [l.splice(start, 1)]: a negative [start] counts from the end, so
    [splice(-1, 1)] deletes the last element. *)
Definition splice1 {A : Type} (start : Z) (l : list A) : list A :=
  let len := Z.of_nat (length l) in
  let s := if start <? 0 then Z.max (len + start) 0 else Z.min start len in
  delete (Z.to_nat s) l.

(** A [for] loop over the snapshot of an array, in the error monad. *)
Fixpoint forEach {A S : Type} (f : A -> S -> outcome S) (l : list A) (s : S)
  : outcome S :=
  match l with
  | [] => Returned s
  | a :: l' => let! s' := f a s in forEach f l' s'
  end.

(** ** The operations of [SpatialHash] *)

Definition SpatialHashDefaultOptions : SpatialHashOptions :=
  mkOptions None (Some 1000) (Some 1000) (Some true) (Some true).

(** Object spread [{ ...a, ...b }], one property at a time.  [None] is a
    property that [b] omits.  A property that [b] holds with the value
    [undefined] would replace the one of [a] as well and leave the index
    with [undefined] for a cell size or a toggle; such an options object is
    outside the model. *)
Definition spread {A : Type} (a b : option A) : option A :=
  match b with
  | Some v => Some v
  | None => a
  end.

Definition spreadOptions (a b : SpatialHashOptions) : SpatialHashOptions :=
  mkOptions (spread (opt_size a) (opt_size b))
            (spread (opt_xSize a) (opt_xSize b))
            (spread (opt_ySize a) (opt_ySize b))
            (spread (opt_simpleTest a) (opt_simpleTest b))
            (spread (opt_dirtyTest a) (opt_dirtyTest b)).

(** Truthiness of an optional number: [undefined] and [0] are falsy. *)
Definition truthy (n : option Z) : bool :=
  match n with
  | Some v => negb (v =? 0)
  | None => false
  end.

(** [constructor(options?)].  The body has no [throw]; the result type keeps
    room for one so that "construction fails" can be stated at all.  The
    non-null assertions [options.xSize!] are erased by the compiler; the
    spread with the defaults makes the four properties present. *)
Definition constructor (options : option SpatialHashOptions) : outcome SpatialHash :=
  let options :=
    spreadOptions SpatialHashDefaultOptions
      (default (mkOptions None None None None None) options) in
  let xs := if truthy (opt_size options) then default 0 (opt_size options)
            else default 0 (opt_xSize options) in
  let ys := if truthy (opt_size options) then default 0 (opt_size options)
            else default 0 (opt_ySize options) in
  Returned (mkSpatialHash xs ys
              (default true (opt_simpleTest options))
              (default true (opt_dirtyTest options))
              0 0 ∅ [] [] 0).

(** [getBounds(AABB)].  [Math.floor (a / s)] is the floor division of [Z]
    for a cell size [s] other than zero; for a zero cell size the source
    gets an infinite value or [NaN] and its loops over the cell range need
    not end, so the function stands for the source under non-zero cell sizes
    only. *)
Definition getBounds (sh : SpatialHash) (a : AABB) : SpatialHashBounds :=
  mkBounds (aabb_x a / xSize sh)
           (aabb_y a / ySize sh)
           ((aabb_x a + aabb_width a) / xSize sh)
           ((aabb_y a + aabb_height a) / ySize sh).

(** The values of [for (let v = a; v <= b; v++)]. *)
Definition fromTo (a b : Z) : list Z := seqZ a (b - a + 1).

(** The keys visited by the nested loops over a cell range, [y] outermost. *)
Definition rangeKeys (b : SpatialHashBounds) : list key :=
  y ← fromTo (byStart b) (byEnd b);
  x ← fromTo (bxStart b) (bxEnd b);
  [mkKey x y].

(** [insert(object, key)] on the bucket map. *)
Definition insertBucket (o : oid) (k : key) (h : gmap key (list oid))
  : gmap key (list oid) :=
  match h !! k with
  | None => <[k := [o]]> h
  | Some l => <[k := l ++ [o]]> h
  end.

Definition insert (o : oid) (k : key) (w : World) : World :=
  with_this (fun s => set_hash (insertBucket o k (hash s)) s) w.

(** The body of the [while] loop of [removeFromHash], for the keys in the
    order in which [pop] delivers them. *)
Fixpoint purge (o : oid) (ks : list key) (h : gmap key (list oid))
  : outcome (gmap key (list oid)) :=
  match ks with
  | [] => Returned h
  | k :: ks' =>
      match h !! k with
      | None => Thrown TypeError           (* [list] is [undefined] *)
      | Some l => purge o ks' (<[k := splice1 (indexOf o l) l]> h)
      end
  end.

(** [removeFromHash(object)]: pops every key off [spatial.hashes] and splices
    the object out of that bucket. *)
Definition removeFromHash (o : oid) (w : World) : outcome World :=
  match spatial (objs w o) with
  | None => Returned w
  | Some sp =>
      let! h := purge o (reverse (hashes sp)) (hash (this w)) in
      Returned (with_obj o (set_spatial (Some (set_hashes [] sp)))
                  (with_this (set_hash h) w))
  end.

(** The world-space box computed at the head of [updateObject]. *)
Definition computeAABB (d : DisplayObject) : AABB :=
  let box := localBounds d in
  mkAABB (obj_x d + (aabb_x box - pivot_x d) * scale_x d)
         (obj_y d + (aabb_y box - pivot_y d) * scale_y d)
         (aabb_width box * scale_x d)
         (aabb_height box * scale_y d).

Definition emptySpatial : Spatial := mkSpatial [] None None None None.

(** [spatial.xStart !== xStart || ...] *)
Definition rangeChanged (sp : Spatial) (b : SpatialHashBounds) : bool :=
  negb (bool_decide (xStart sp = Some (bxStart b)))
  || negb (bool_decide (yStart sp = Some (byStart b)))
  || negb (bool_decide (xEnd sp = Some (bxEnd b)))
  || negb (bool_decide (yEnd sp = Some (byEnd b))).

Definition spatialOf (d : DisplayObject) : Spatial :=
  default emptySpatial (spatial d).

(** One turn of the inner loop of [updateObject]. *)
Definition insertAndPush (o : oid) (w : World) (k : key) : World :=
  with_obj o (fun d => set_spatial
                (Some (set_hashes (hashes (spatialOf d) ++ [k]) (spatialOf d))) d)
    (insert o k w).

(** [updateObject(object)] *)
Definition updateObject (o : oid) (w : World) : outcome World :=
  let box := computeAABB (objs w o) in
  let w := with_obj o (set_cachedAABB (Some box)) w in
  let w := with_obj o (fun d => set_spatial (Some (spatialOf d)) d) w in
  let b := getBounds (this w) box in
  if rangeChanged (spatialOf (objs w o)) b then
    let! w := (if bool_decide (hashes (spatialOf (objs w o)) = [])
               then Returned w else removeFromHash o w) in
    let w := fold_left (insertAndPush o) (rangeKeys b) w in
    Returned (with_obj o (fun d => set_spatial (Some (set_range b (spatialOf d))) d) w)
  else Returned w.

(** [add(object, staticObject?)] *)
Definition add (o : oid) (staticObj : bool) (w : World) : outcome World :=
  let w := with_obj o (set_spatial (Some emptySpatial)) w in
  let w := if dirtyTest (this w) then with_obj o (set_dirty true) w else w in
  let w := if staticObj then with_obj o (set_staticObject true) w else w in
  let! w := updateObject o w in
  Returned (with_this (fun s => set_elements (elements s ++ [o]) s) w).

(** [remove(object)] *)
Definition remove (o : oid) (w : World) : outcome World :=
  let w := with_this (fun s =>
             set_elements (splice1 (indexOf o (elements s)) (elements s)) s) w in
  removeFromHash o w.

(** *** The container's event emitter

    Modelled from the spec: the container contract of section 6
    ("subscription/unsubscription for child added and child removed
    notifications, each delivering the affected child").  The emitter class
    belongs to the scene-graph library, not to this repository.  [on]
    appends a listener under an event name, [off] removes the listeners of
    that name that are the given function (all of that name when the
    function is [undefined]), [emit] calls the listeners of a name in
    registration order. *)

Definition on (ev : string) (fn : listener) (c : Container) : Container :=
  mkContainer (children c) (cull_ c) (listeners c ++ [(ev, fn)]).

Definition listens (ev : string) (fn : option listener) (p : string * listener)
  : bool :=
  bool_decide (p.1 = ev)
  && match fn with
     | Some f => bool_decide (p.2 = f)
     | None => true
     end.

Definition off (ev : string) (fn : option listener) (c : Container) : Container :=
  mkContainer (children c) (cull_ c)
    (filter (fun p => listens ev fn p = false) (listeners c)).

(** The bodies of the closures [added] and [removed] of [addContainer]. *)
Definition callListener (fn : listener) (o : oid) (w : World) : outcome World :=
  match fn with
  | AddedFn _ =>
      updateObject o (with_obj o (set_spatial (Some emptySpatial)) w)
  | RemovedFn _ => removeFromHash o w
  end.

Definition emit (ev : string) (c : cid) (o : oid) (w : World) : outcome World :=
  forEach (fun p w => if decide (p.1 = ev) then callListener p.2 o w
                      else Returned w)
          (listeners (conts w c)) w.

Definition set_children (l : list oid) (c : Container) : Container :=
  mkContainer l (cull_ c) (listeners c).

Definition set_cull (k : option ContainerCullObject) (c : Container) : Container :=
  mkContainer (children c) k (listeners c).

(** Modelled from the spec: the scene graph adding a child to a container
    and notifying the subscribers. *)
Definition addChild (c : cid) (o : oid) (w : World) : outcome World :=
  emit "childAdded" c o
    (with_cont c (fun k => set_children (children k ++ [o]) k) w).

(** Modelled from the spec: the scene graph removing a child from a
    container and notifying the subscribers; nothing happens when the object
    is not a child. *)
Definition removeChild (c : cid) (o : oid) (w : World) : outcome World :=
  if indexOf o (children (conts w c)) <? 0 then Returned w
  else emit "childRemoved" c o
         (with_cont c (fun k =>
            set_children (splice1 (indexOf o (children k)) (children k)) k) w).

(** [addContainer(container, staticObject?)] *)
Definition addContainer (c : cid) (staticObj : bool) (w : World) : outcome World :=
  let added := AddedFn (closures w) in
  let removed := RemovedFn (closures w) in
  let w := mkWorld (objs w) (conts w) (this w) (S (closures w)) in
  let! w := forEach (fun o w =>
                       updateObject o (with_obj o (set_spatial (Some emptySpatial)) w))
                    (children (conts w c)) w in
  let w := with_cont c (set_cull (Some (mkCull false None None))) w in
  let w := with_this (fun s => set_containers (containers s ++ [c]) s) w in
  let w := with_cont c (on "childAdded" added) w in
  let w := with_cont c (on "childRemoved" removed) w in
  let w := with_cont c (fun k =>
             set_cull (Some (mkCull false (Some added) (Some removed))) k) w in
  Returned (if staticObj
            then with_cont c (fun k =>
                   set_cull (Some (mkCull true (Some added) (Some removed))) k) w
            else w).

(** [removeContainer(container)]; the second [off] names the event
    ['removedFrom'], as the source does. *)
Definition removeContainer (c : cid) (w : World) : outcome World :=
  let w := with_this (fun s =>
             set_containers (splice1 (indexOf c (containers s)) (containers s)) s) w in
  let! w := forEach removeFromHash (children (conts w c)) w in
  let w := with_cont c (fun k => off "childAdded" (cull_ k ≫= cull_added) k) w in
  let w := with_cont c (fun k => off "removedFrom" (cull_ k ≫= cull_removed) k) w in
  Returned (with_cont c (set_cull None) w).

(** [container.cull?.static] *)
Definition isStatic (c : Container) : bool :=
  match cull_ c with
  | Some k => cull_static k
  | None => false
  end.

(** [invisible()] *)
Definition invisible (w : World) : World :=
  let hide := fun (w : World) (o : oid) => with_obj o (set_visible false) w in
  let w := fold_left hide (elements (this w)) w in
  fold_left (fun w c => fold_left hide (children (conts w c)) w)
            (containers (this w)) w.

(** The body shared by the two dirty-test loops of [updateObjects]. *)
Definition refreshIfDirty (o : oid) (w : World) : outcome World :=
  if dirty (objs w o) then
    let! w := updateObject o w in
    Returned (with_obj o (set_dirty false) w)
  else Returned w.

(** [updateObjects()] *)
Definition updateObjects (w : World) : outcome World :=
  if dirtyTest (this w) then
    let! w := forEach refreshIfDirty (elements (this w)) w in
    forEach (fun c w =>
               if negb (isStatic (conts w c))
               then forEach refreshIfDirty (children (conts w c)) w
               else Returned w)
            (containers (this w)) w
  else
    let! w := forEach (fun o w =>
                         if negb (staticObject (objs w o)) then updateObject o w
                         else Returned w)
                      (elements (this w)) w in
    forEach (fun c w =>
               if negb (isStatic (conts w c))
               then forEach updateObject (children (conts w c)) w
               else Returned w)
            (containers (this w)) w.

(** *** Queries *)

(** The bounds test of [query] and [queryCallbackAll]:
    [box.x + box.width > AABB.x && box.x < AABB.x + AABB.width && ...]. *)
Definition intersects (box R : AABB) : bool :=
  (aabb_x box + aabb_width box >? aabb_x R)
  && (aabb_x box <? aabb_x R + aabb_width R)
  && (aabb_y box + aabb_height box >? aabb_y R)
  && (aabb_y box <? aabb_y R + aabb_height R).

(** The inner [for] loop of [query] in simple-test mode; [box.x] throws when
    [object.AABB] is [undefined]. *)
Fixpoint testEntry (w : World) (R : AABB) (entry results : list oid)
  : outcome (list oid) :=
  match entry with
  | [] => Returned results
  | o :: rest =>
      match cachedAABB (objs w o) with
      | None => Thrown TypeError
      | Some box =>
          testEntry w R rest (if intersects box R then results ++ [o] else results)
      end
  end.

(** The body of the cell loops of [query]; the accumulator is
    [(results, buckets)]. *)
Definition queryCell (w : World) (R : AABB) (simple : bool) (k : key)
    (acc : list oid * Z) : outcome (list oid * Z) :=
  match hash (this w) !! k with
  | None => Returned acc
  | Some entry =>
      let! results := (if simple then testEntry w R entry acc.1
                       else Returned (acc.1 ++ entry)) in
      Returned (results, acc.2 + 1)
  end.

(** [query(AABB, simpleTest)] *)
Definition query (R : AABB) (simple : bool) (w : World)
  : outcome (list oid * World) :=
  let! r := forEach (queryCell w R simple) (rangeKeys (getBounds (this w) R))
                    ([], 0) in
  Returned (r.1, with_this (set_lastBuckets r.2) w).

(** A caller-supplied callback is modelled by its boolean result; the calls
    it receives are recorded in order. *)
Abbreviation callback := (nat -> bool) (only parsing).

Fixpoint testEntryAll (w : World) (R : AABB) (entry : list oid)
    (acc : list oid * list oid) : outcome (list oid * list oid) :=
  match entry with
  | [] => Returned acc
  | o :: rest =>
      match cachedAABB (objs w o) with
      | None => Thrown TypeError
      | Some box =>
          testEntryAll w R rest
            (if intersects box R then (acc.1 ++ [o], acc.2 ++ [o]) else acc)
      end
  end.

(** The accumulator is [(results, calls, buckets)]. *)
Definition queryCellAll (w : World) (R : AABB) (simple : bool) (k : key)
    (acc : list oid * list oid * Z) : outcome (list oid * list oid * Z) :=
  match hash (this w) !! k with
  | None => Returned acc
  | Some entry =>
      let! rc := (if simple then testEntryAll w R entry acc.1
                  else Returned (acc.1.1 ++ entry, acc.1.2 ++ entry)) in
      Returned (rc, acc.2 + 1)
  end.

(** [queryCallbackAll(AABB, simpleTest, callback)]: the results, the objects
    the callback was called on, and the world. *)
Definition queryCallbackAll (R : AABB) (simple : bool) (cb : callback) (w : World)
  : outcome (list oid * list oid * World) :=
  let! r := forEach (queryCellAll w R simple) (rangeKeys (getBounds (this w) R))
                    ([], [], 0) in
  Returned (r.1, with_this (set_lastBuckets r.2) w).

(** The loop over one bucket in [queryCallback].  In the simple-test branch
    the source declares [const AABB = object.AABB], which shadows the
    parameter [AABB]: both sides of the test are the object's own box. *)
Fixpoint callbackEntry (w : World) (R : AABB) (simple : bool) (cb : callback)
    (entry calls : list oid) : outcome (bool * list oid) :=
  match entry with
  | [] => Returned (false, calls)
  | o :: rest =>
      if simple then
        match cachedAABB (objs w o) with
        | None => Thrown TypeError
        | Some AABB' =>
            if intersects AABB' AABB' then
              if cb o then Returned (true, calls ++ [o])
              else callbackEntry w R simple cb rest (calls ++ [o])
            else callbackEntry w R simple cb rest calls
        end
      else
        if cb o then Returned (true, calls ++ [o])
        else callbackEntry w R simple cb rest (calls ++ [o])
  end.

Fixpoint callbackCells (w : World) (R : AABB) (simple : bool) (cb : callback)
    (ks : list key) (calls : list oid) : outcome (bool * list oid) :=
  match ks with
  | [] => Returned (false, calls)
  | k :: ks' =>
      match hash (this w) !! k with
      | None => callbackCells w R simple cb ks' calls
      | Some entry =>
          let! r := callbackEntry w R simple cb entry calls in
          if r.1 then Returned r
          else callbackCells w R simple cb ks' r.2
      end
  end.

(** [queryCallback(AABB, callback, simpleTest)]: the returned boolean and
    the objects the callback was called on. *)
Definition queryCallback (R : AABB) (cb : callback) (simple : bool) (w : World)
  : outcome (bool * list oid) :=
  callbackCells w R simple cb (rangeKeys (getBounds (this w) R)) [].

(** [cull(AABB, skipUpdate?, callback?)] *)
Definition cull (R : AABB) (skipUpdate : bool) (cb : option callback) (w : World)
  : outcome (Z * World) :=
  let! w := (if skipUpdate then Returned w else updateObjects w) in
  let w := invisible w in
  let! r := match cb with
            | Some f =>
                let! q := queryCallbackAll R (simpleTest (this w)) f w in
                Returned (q.1.1, q.2)
            | None => query R (simpleTest (this w)) w
            end in
  let w := fold_left (fun w o => with_obj o (set_visible true) w) r.1 r.2 in
  Returned (lastBuckets (this w), w).

(** *** Diagnostics *)

(** [getBuckets(minimum = 1)], up to the enumeration order of the keys. *)
Definition getBuckets (minimum : Z) (w : World) : list (list oid) :=
  filter (fun l => minimum <= Z.of_nat (length l))
         ((map_to_list (hash (this w))).*2).

(** [getNumberOfBuckets()] *)
Definition getNumberOfBuckets (w : World) : Z :=
  Z.of_nat (size (hash (this w))).

(** ** Call sequences

    What the caller and the scene graph can do to the world: the methods of
    the index, a change of an object's transform, setting its [dirty] flag,
    and the scene graph adding or removing a child of a container. *)

Record Transform : Type := mkTransform {
  t_x : Z;
  t_y : Z;
  t_pivot_x : Z;
  t_pivot_y : Z;
  t_scale_x : Z;
  t_scale_y : Z;
  t_localBounds : AABB
}.

Definition set_transform (t : Transform) (d : DisplayObject) : DisplayObject :=
  mkObject (t_x t) (t_y t) (t_pivot_x t) (t_pivot_y t) (t_scale_x t) (t_scale_y t)
    (t_localBounds t) (cachedAABB d) (spatial d) (dirty d) (staticObject d)
    (visible d).

Inductive Op : Type :=
| OpAdd (o : oid) (staticObj : bool)
| OpRemove (o : oid)
| OpAddContainer (c : cid) (staticObj : bool)
| OpRemoveContainer (c : cid)
| OpUpdateObjects
| OpCull (R : AABB) (skipUpdate : bool) (cb : option callback)
| OpSetTransform (o : oid) (t : Transform)
| OpSetDirty (o : oid) (b : bool)
| OpAddChild (c : cid) (o : oid)
| OpRemoveChild (c : cid) (o : oid).

Definition exec (op : Op) (w : World) : outcome World :=
  match op with
  | OpAdd o s => add o s w
  | OpRemove o => remove o w
  | OpAddContainer c s => addContainer c s w
  | OpRemoveContainer c => removeContainer c w
  | OpUpdateObjects => updateObjects w
  | OpCull R skip cb => let! r := cull R skip cb w in Returned r.2
  | OpSetTransform o t => Returned (with_obj o (set_transform t) w)
  | OpSetDirty o b => Returned (with_obj o (set_dirty b) w)
  | OpAddChild c o => addChild c o w
  | OpRemoveChild c o => removeChild c o w
  end.

Definition run (ops : list Op) (w : World) : outcome World :=
  forEach exec ops w.

(** A heap before any index touched it: objects with the given transforms,
    containers with the given children, nothing cached. *)
Definition freshObject (t : Transform) : DisplayObject :=
  mkObject (t_x t) (t_y t) (t_pivot_x t) (t_pivot_y t) (t_scale_x t) (t_scale_y t)
    (t_localBounds t) None None false false true.

Definition freshContainer (l : list oid) : Container :=
  mkContainer l None [].

Definition newWorld (ts : oid -> Transform) (cs : cid -> list oid) (sh : SpatialHash)
  : World :=
  mkWorld (fun o => freshObject (ts o)) (fun c => freshContainer (cs c)) sh 0.

(** An unscaled object whose local bounds are [(0, 0, w, h)], placed at
    [(x, y)]. *)
Definition boxAt (x y w h : Z) : Transform :=
  mkTransform x y 0 0 1 1 (mkAABB 0 0 w h).

Definition grid (xs ys : Z) (simple dirtyT : bool) : SpatialHash :=
  mkSpatialHash xs ys simple dirtyT 0 0 ∅ [] [] 0.

(** ** Specification vocabulary *)

(** The cell keys in an object's spatial state; none while [object.spatial]
    is [undefined]. *)
Definition hashesOf (d : DisplayObject) : list key := hashes (spatialOf d).

(** The tracked objects: the individually added ones and the current
    children of the registered containers. *)
Definition trackedChildren (w : World) : list oid :=
  c ← containers (this w); children (conts w c).

Definition trackedList (w : World) : list oid :=
  elements (this w) ++ trackedChildren w.

(** Object [a] is a member of the bucket of key [k]. *)
Definition inBucket (h : gmap key (list oid)) (k : key) (a : oid) : Prop :=
  ∃ l, h !! k = Some l ∧ a ∈ l.

Definition occurrences (o : oid) (l : list oid) : nat :=
  length (filter (fun a => a = o) l).

(** Bidirectional consistency of the bucket map and the spatial states. *)
Definition consistent (w : World) : Prop :=
  (∀ o k, o ∈ trackedList w → k ∈ hashesOf (objs w o) →
          ∃ l, hash (this w) !! k = Some l ∧ occurrences o l = 1%nat)
  ∧ (∀ k l o, hash (this w) !! k = Some l → o ∈ l → k ∈ hashesOf (objs w o)).

(** An object is settled when its spatial state is the one [updateObject]
    leaves behind for its cached box: the cached range is the range of that
    box and the keys are the cells of that range. *)
Definition settled (sh : SpatialHash) (d : DisplayObject) : Prop :=
  ∃ box sp, cachedAABB d = Some box ∧ spatial d = Some sp
            ∧ rangeChanged sp (getBounds sh box) = false
            ∧ hashes sp = rangeKeys (getBounds sh box).

Definition bucketsNoDup (h : gmap key (list oid)) : Prop :=
  ∀ k l, h !! k = Some l → NoDup l.

(** The buckets and the spatial states describe the same membership, and no
    bucket lists an object twice. *)
Definition linked (w : World) : Prop :=
  (∀ k a, inBucket (hash (this w)) k a ↔ k ∈ hashesOf (objs w a))
  ∧ bucketsNoDup (hash (this w)).

(** The bookkeeping invariant for a set [T] of objects that count as
    tracked: those are settled, the others occupy no bucket. *)
Record indexedT (T : list oid) (w : World) : Prop := mkIndexedT {
  ix_linked : linked w;
  ix_settled : ∀ o, o ∈ T → settled (this w) (objs w o);
  ix_untracked : ∀ o, o ∉ T → hashesOf (objs w o) = []
}.

(** Two worlds that agree on what the bookkeeping reads: the buckets, the
    cell sizes, and every cached box and spatial state. *)
Definition sameIndex (w w' : World) : Prop :=
  hash (this w') = hash (this w)
  ∧ xSize (this w') = xSize (this w) ∧ ySize (this w') = ySize (this w)
  ∧ ∀ a, cachedAABB (objs w' a) = cachedAABB (objs w a)
         ∧ spatial (objs w' a) = spatial (objs w a).

(** The subscriptions the index holds on the containers.  Every listener is
    one of the two closures under its own event name; a registered container
    carries exactly one child-added listener, the one recorded in
    [container.cull], and at least one child-removed listener; an
    unregistered container carries no child-added listener. *)
Definition isAddedEntry (p : string * listener) : Prop :=
  ∃ n, p = ("childAdded", AddedFn n).

Definition isRemovedEntry (p : string * listener) : Prop :=
  ∃ n, p = ("childRemoved", RemovedFn n).

Definition addedEntries (c : Container) : list (string * listener) :=
  filter (fun p => p.1 = "childAdded") (listeners c).

Record subscribed (w : World) : Prop := mkSubscribed {
  sub_shape : ∀ c p, p ∈ listeners (conts w c) → isAddedEntry p ∨ isRemovedEntry p;
  sub_registered : ∀ c, c ∈ containers (this w) →
      ∃ n, cull_ (conts w c) ≫= cull_added = Some (AddedFn n)
           ∧ addedEntries (conts w c) = [("childAdded", AddedFn n)]
           ∧ ∃ m, ("childRemoved", RemovedFn m) ∈ listeners (conts w c);
  sub_unregistered : ∀ c, c ∉ containers (this w) → addedEntries (conts w c) = []
}.

(** Every tracked object is tracked once: no element and no registered
    container is listed twice, no registered container lists a child twice,
    and a child of a registered container is neither an element nor a child
    of another registered container. *)
Record owned (w : World) : Prop := mkOwned {
  own_elements : NoDup (elements (this w));
  own_containers : NoDup (containers (this w));
  own_children : ∀ c, c ∈ containers (this w) → NoDup (children (conts w c));
  own_apart : ∀ c a, c ∈ containers (this w) → a ∈ children (conts w c) →
                     a ∉ elements (this w);
  own_parent : ∀ c c' a, c ∈ containers (this w) → c' ∈ containers (this w) →
                         a ∈ children (conts w c) → a ∈ children (conts w c') →
                         c = c'
}.

(** The invariant of the index. *)
Record Inv (w : World) : Prop := mkInv {
  inv_xSize : 0 < xSize (this w);
  inv_ySize : 0 < ySize (this w);
  inv_indexed : indexedT (trackedList w) w;
  inv_owned : owned w;
  inv_subscribed : subscribed w
}.

(** Two worlds with the same containers, elements and registrations. *)
Definition sameTracking (w w' : World) : Prop :=
  conts w' = conts w ∧ elements (this w') = elements (this w)
  ∧ containers (this w') = containers (this w).

(** A world in which the index was just constructed with positive cell
    sizes: nothing is tracked, no object occupies a bucket and no container
    carries a listener of the index. *)
Record pristine (w : World) : Prop := mkPristine {
  pr_xSize : 0 < xSize (this w);
  pr_ySize : 0 < ySize (this w);
  pr_hash : hash (this w) = ∅;
  pr_elements : elements (this w) = [];
  pr_containers : containers (this w) = [];
  pr_objs : ∀ o, hashesOf (objs w o) = [];
  pr_conts : ∀ c, listeners (conts w c) = []
}.

(** The discipline of a caller that registers nothing twice: [add] and
    [addContainer] take objects that are not tracked at that moment,
    [remove] and [removeContainer] take what is registered, a child that
    joins a registered container is not tracked already, and a child that
    leaves an unregistered container is not tracked. *)
Definition guard (op : Op) (w : World) : bool :=
  match op with
  | OpAdd o _ => bool_decide (o ∉ trackedList w)
  | OpRemove o => bool_decide (o ∈ elements (this w))
  | OpAddContainer c _ =>
      bool_decide (c ∉ containers (this w))
      && bool_decide (NoDup (children (conts w c)))
      && bool_decide (Forall (fun o => o ∉ trackedList w) (children (conts w c)))
  | OpRemoveContainer c => bool_decide (c ∈ containers (this w))
  | OpAddChild c o =>
      bool_decide (c ∈ containers (this w) → o ∉ trackedList w)
  | OpRemoveChild c o =>
      bool_decide (c ∈ containers (this w) ∨ o ∉ trackedList w)
  | _ => true
  end.

Fixpoint legal (ops : list Op) (w : World) : bool :=
  match ops with
  | [] => true
  | op :: ops' =>
      guard op w
      && match exec op w with
         | Returned w' => legal ops' w'
         | Thrown _ => false
         end
  end.

(** The objects on which a refresh pass calls [updateObject]. *)
Definition refreshedChild (w : World) (o : oid) : Prop :=
  ∃ c, c ∈ containers (this w) ∧ isStatic (conts w c) = false
       ∧ o ∈ children (conts w c).

Definition refreshed (w : World) (o : oid) : Prop :=
  if dirtyTest (this w)
  then dirty (objs w o) = true ∧ (o ∈ elements (this w) ∨ refreshedChild w o)
  else (o ∈ elements (this w) ∧ staticObject (objs w o) = false)
       ∨ refreshedChild w o.

(** *** Example worlds *)

(** Cells of 100 by 100; object 0 is A at (10, 10, 20, 20), object 1 is B at
    (150, 10, 20, 20), object 2 is a mirrored sprite (scale.x = -1) whose box
    starts at x = 110 with width -20; container 0 holds the objects 5 and
    6. *)
Definition exampleTransforms (o : oid) : Transform :=
  match o with
  | 0%nat => boxAt 10 10 20 20
  | 1%nat => boxAt 150 10 20 20
  | 2%nat => mkTransform 110 10 0 0 (-1) 1 (mkAABB 0 0 20 20)
  | 5%nat => boxAt 10 110 20 20
  | 6%nat => boxAt 250 110 20 20
  | _ => boxAt 0 0 10 10
  end.

Definition exampleChildren (c : cid) : list oid :=
  match c with
  | 0%nat => [5%nat; 6%nat]
  | _ => []
  end.

Definition exampleWorld (simple dirtyT : bool) : World :=
  newWorld exampleTransforms exampleChildren (grid 100 100 simple dirtyT).

(** What an example reports about a final world: the buckets, the tracked
    elements and the flags of the objects 0, 1, 2, 5 and 6. *)
Definition snapshot (r : outcome World)
  : option (list (key * list oid) * list oid * list cid * list (list key * bool)) :=
  match r with
  | Returned w =>
      Some (map_to_list (hash (this w)), elements (this w), containers (this w),
            (fun o => (hashesOf (objs w o), visible (objs w o)))
              <$> [0%nat; 1%nat; 2%nat; 5%nat; 6%nat])
  | Thrown _ => None
  end.

(** *** Frames: what an operation leaves alone *)

(** An object up to its cached box and spatial state. *)
Definition bodyOf (d : DisplayObject) : DisplayObject :=
  set_cachedAABB None (set_spatial None d).

Definition sameBody (d d' : DisplayObject) : Prop := bodyOf d' = bodyOf d.

(** The index up to its buckets and the last-query count. *)
Definition configOf (s : SpatialHash) : SpatialHash :=
  set_hash ∅ (set_lastBuckets 0 s).

Definition sameConfig (w w' : World) : Prop :=
  conts w' = conts w ∧ closures w' = closures w
  ∧ configOf (this w') = configOf (this w).

(** No bucket disappears. *)
Definition keepsKeys (h h' : gmap key (list oid)) : Prop :=
  ∀ k, is_Some (h !! k) → is_Some (h' !! k).

(** The cached range agrees with the range of the box the current transform
    gives: [updateObject] takes its cheap path. *)
Definition upToDate (sh : SpatialHash) (d : DisplayObject) : Prop :=
  rangeChanged (spatialOf d) (getBounds sh (computeAABB d)) = false.

(** [updateObject] behind a test on the object, as in the full-scan loops
    of [updateObjects]. *)
Definition updateIf (g : DisplayObject -> bool) (o : oid) (w : World) : outcome World :=
  if g (objs w o) then updateObject o w else Returned w.

(** What a full-scan pass keeps: the configuration, every object up to its
    cached box and spatial state, and every cached range that is up to
    date. *)
Definition scanKeeps (w w' : World) : Prop :=
  sameConfig w w'
  ∧ (∀ a, sameBody (objs w a) (objs w' a))
  ∧ (∀ a, upToDate (this w) (objs w a) → upToDate (this w') (objs w' a)).

(** What a dirty-test pass keeps: the configuration and every cleared
    [dirty] flag. *)
Definition dirtyKeeps (w w' : World) : Prop :=
  sameConfig w w'
  ∧ (∀ a, dirty (objs w a) = false → dirty (objs w' a) = false).

(** Inserting an object under a list of keys, as the loops of
    [updateObject] do. *)
Definition insertAll (o : oid) (ks : list key) (h : gmap key (list oid))
  : gmap key (list oid) :=
  fold_left (fun h k => insertBucket o k h) ks h.

(** The loop over the containers in full-scan mode. *)
Definition scanContainer (c : cid) (w : World) : outcome World :=
  if negb (isStatic (conts w c)) then forEach updateObject (children (conts w c)) w
  else Returned w.

(** The loop over the containers in dirty-test mode. *)
Definition dirtyContainer (c : cid) (w : World) : outcome World :=
  if negb (isStatic (conts w c)) then forEach refreshIfDirty (children (conts w c)) w
  else Returned w.

(** The world a call returned, or [w0] when it threw. *)
Definition returned (w0 : World) (r : outcome World) : World :=
  match r with
  | Returned w => w
  | Thrown _ => w0
  end.

(** The example world after object 0 and container 0 were registered and
    object 0 moved to another cell; in dirty-test mode its flag is still set
    from [add]. *)
Definition refreshExample : World :=
  returned (exampleWorld true true)
    (run [OpAdd 0 false; OpAddContainer 0 false;
          OpSetTransform 0 (boxAt 250 250 20 20)] (exampleWorld true true)).

(** The example world after [add] of object 0 (A). *)
Definition addedExample : World :=
  returned (exampleWorld true true) (run [OpAdd 0 false] (exampleWorld true true)).

(** Options that give a zero cell width and a negative cell height. *)
Definition degenerateOptions : SpatialHashOptions :=
  mkOptions None (Some 0) (Some (-3)) None None.

(** The objects a traversal collects from the cells [ks]. *)
Definition collected (w : World) (R : AABB) (simple : bool) (ks : list key) (a : oid)
  : Prop :=
  ∃ k, k ∈ ks ∧ inBucket (hash (this w)) k a
       ∧ (simple = true → ∃ box, cachedAABB (objs w a) = Some box
                                 ∧ intersects box R = true).

(** The body of the loop of [addContainer], which is also the closure
    [added]. *)
Definition resetAndUpdate (o : oid) (w : World) : outcome World :=
  updateObject o (with_obj o (set_spatial (Some emptySpatial)) w).

(** The body of the loop of [emit]. *)
Definition deliver (ev : string) (o : oid) (p : string * listener) (w : World)
  : outcome World :=
  if decide (p.1 = ev) then callListener p.2 o w else Returned w.

(** The example world after object 0 was added twice. *)
Definition doubleAddExample : World :=
  returned (exampleWorld true true)
    (run [OpAdd 0 false; OpAdd 0 false] (exampleWorld true true)).

(** The example world after the mirrored sprite (object 2) was added and the
    rectangle (0, 0, 200, 200) was culled. *)
Definition mirroredExample : World :=
  returned (exampleWorld true true)
    (run [OpAdd 2 false; OpCull (mkAABB 0 0 200 200) false None]
         (exampleWorld true true)).

(** A call sequence that obeys the discipline of [guard] and uses every
    operation. *)
Definition exampleCalls : list Op :=
  [OpAdd 0 false; OpAdd 1 true; OpAddContainer 0 false;
   OpSetTransform 0 (boxAt 250 250 20 20); OpSetDirty 0 true; OpUpdateObjects;
   OpCull (mkAABB 0 0 60 60) false None; OpAddChild 0 7; OpRemoveChild 0 5;
   OpRemoveContainer 0; OpRemove 0].

(** *** Following one object through a refresh pass

    [w] is the world before the pass and [o] the object followed. *)

(** The pass has not changed the configuration, the transform or the
    [staticObject] flag of the object. *)
Definition reachBase (w : World) (o : oid) (t : World) : Prop :=
  sameConfig w t
  ∧ computeAABB (objs t o) = computeAABB (objs w o)
  ∧ staticObject (objs t o) = staticObject (objs w o).

(** The object was re-indexed: its cached box is the box of its transform. *)
Definition reached (w : World) (o : oid) (t : World) : Prop :=
  cachedAABB (objs t o) = Some (computeAABB (objs w o)).

(** The object was re-indexed or is still as it was. *)
Definition pending (w : World) (o : oid) (t : World) : Prop :=
  reached w o t ∨ objs t o = objs w o.

(** A loop body that keeps the three properties above and re-indexes the
    object on the turns that satisfy [hits]. *)
Definition passBody {A : Type} (w : World) (o : oid)
    (f : A -> World -> outcome World) (hits : A -> Prop) : Prop :=
  (∀ a t t', f a t = Returned t' → reachBase w o t → reachBase w o t')
  ∧ (∀ a t t', f a t = Returned t' → reachBase w o t → reached w o t → reached w o t')
  ∧ (∀ a t t', f a t = Returned t' → reachBase w o t → pending w o t → pending w o t')
  ∧ (∀ a t t', hits a → f a t = Returned t' → reachBase w o t → pending w o t →
               reached w o t').

(** The example world after a static container was registered, its child 5
    moved to another cell and marked dirty, and the index refreshed. *)
Definition staticChildExample : World :=
  returned (exampleWorld true true)
    (run [OpAddContainer 0 true; OpSetTransform 5 (boxAt 250 250 20 20);
          OpSetDirty 5 true; OpUpdateObjects] (exampleWorld true true)).

(** The example world, in dirty-test mode, after object 0 was added as
    static, moved to another cell and marked dirty; and the same after a
    refresh. *)
Definition staticMovedExample : World :=
  returned (exampleWorld true true)
    (run [OpAdd 0 true; OpSetTransform 0 (boxAt 250 250 20 20); OpSetDirty 0 true]
         (exampleWorld true true)).

Definition staticRefreshedExample : World :=
  returned staticMovedExample (updateObjects staticMovedExample).

(** An object whose transform was changed and that was marked dirty. *)
Definition moveAndMark (o : oid) (t : Transform) (w : World) : World :=
  with_obj o (set_dirty true) (with_obj o (set_transform t) w).

(** The example world, in full-scan mode, after object 0 was added as
    static, moved to another cell and marked dirty. *)
Definition staticScanExample : World :=
  returned (exampleWorld true false)
    (run [OpAdd 0 true; OpSetTransform 0 (boxAt 250 250 20 20); OpSetDirty 0 true]
         (exampleWorld true false)).

(** ** The remaining methods of [SpatialHash] *)

(** [neighbors(object)].  [results.concat(this.hash[key])] appends the
    members of the bucket, and appends the single element [undefined] when
    the key has no bucket; [None] stands for that element. *)
Definition neighbors (o : oid) (w : World) : list (option oid) :=
  fold_left (fun results k =>
               results ++ match hash (this w) !! k with
                          | Some l => Some <$> l
                          | None => [None]
                          end)
            (hashesOf (objs w o)) [].

Record SpatialHashStats : Type := mkStats {
  stat_buckets : Z;
  stat_total : Z;
  stat_visible : Z;
  stat_culled : Z
}.

(** One turn of the counting loops of [stats]; the accumulator is
    [(visible, count)]. *)
Definition countObject (w : World) (acc : Z * Z) (o : oid) : Z * Z :=
  (acc.1 + (if visible (objs w o) then 1 else 0), acc.2 + 1).

(** [stats()] *)
Definition stats (w : World) : SpatialHashStats :=
  let acc := fold_left (countObject w) (elements (this w)) (0, 0) in
  let acc := fold_left (fun acc c => fold_left (countObject w) (children (conts w c)) acc)
                       (containers (this w)) acc in
  mkStats (lastBuckets (this w)) acc.2 acc.1 (acc.2 - acc.1).

(** [getLargest()], up to the enumeration order of the keys. *)
Definition getLargest (w : World) : Z :=
  fold_left (fun largest l =>
               if Z.of_nat (length l) >? largest then Z.of_nat (length l) else largest)
            ((map_to_list (hash (this w))).*2) 0.

(** The quotient [n / d] of two integers, a floating-point division in the
    host language: the model keeps the two operands instead of a rounded
    value.  The quotient is [NaN] when both are zero. *)
Record JsQuotient : Type := mkQuotient {
  numerator : Z;
  denominator : Z
}.

(** [getAverageSize()]: the members of all buckets over the number of
    buckets that [getBuckets()] returns. *)
Definition getAverageSize (w : World) : JsQuotient :=
  mkQuotient
    (fold_left (fun total l => total + Z.of_nat (length l))
               ((map_to_list (hash (this w))).*2) 0)
    (Z.of_nat (length (getBuckets 1 w))).

(** A number that may be [Infinity]. *)
Inductive JsNumber : Type :=
| Num (z : Z)
| Infinity.

(** The result of [getWorldBounds()]: the two starts begin at [Infinity],
    the two ends at [0]. *)
Record WorldBounds : Type := mkWorldBounds {
  wxStart : JsNumber;
  wyStart : JsNumber;
  wxEnd : Z;
  wyEnd : Z
}.

(** [x < m ? x : m] *)
Definition jsMin (x : Z) (m : JsNumber) : JsNumber :=
  match m with
  | Infinity => Num x
  | Num v => if x <? v then Num x else Num v
  end.

(** [x > m ? x : m] *)
Definition jsMax (x m : Z) : Z := if x >? m then x else m.

(** [getWorldBounds()].  The source splits the key at the comma and parses
    the two parts; on the pair that models the key these are the two
    components. *)
Definition getWorldBounds (w : World) : WorldBounds :=
  fold_left (fun b k =>
               mkWorldBounds (jsMin k.1 (wxStart b)) (jsMin k.2 (wyStart b))
                             (jsMax k.1 (wxEnd b)) (jsMax k.2 (wyEnd b)))
            ((map_to_list (hash (this w))).*1)
            (mkWorldBounds Infinity Infinity 0 0).

(** The values of [for (let v = a; v < b; v++)]; none when [a] is
    [Infinity]. *)
Definition fromUntil (a : JsNumber) (b : Z) : list Z :=
  match a with
  | Num a => seqZ a (b - a)
  | Infinity => []
  end.

(** The cells that the loops of [getSparseness] visit. *)
Definition sparsenessCells (R : option AABB) (w : World) : list key :=
  let b := match R with
           | Some a => let b := getBounds (this w) a in
                       mkWorldBounds (Num (bxStart b)) (Num (byStart b)) (bxEnd b) (byEnd b)
           | None => getWorldBounds w
           end in
  y ← fromUntil (wyStart b) (wyEnd b);
  x ← fromUntil (wxStart b) (wxEnd b);
  [mkKey x y].

(** [getSparseness(AABB?)]: [count / total], where a cell counts when its
    key has a bucket (an array is truthy, empty or not). *)
Definition getSparseness (R : option AABB) (w : World) : JsQuotient :=
  fold_left (fun q k =>
               mkQuotient (numerator q + (match hash (this w) !! k with Some _ => 1 | None => 0 end))
                          (denominator q + 1))
            (sparsenessCells R w) (mkQuotient 0 0).

(** ** Vocabulary for the further properties *)

(** A world that a call sequence reaches from a freshly constructed index
    with positive cell sizes, every call obeying the discipline of [guard]:
    [add] and [addContainer] take what is not tracked, [remove] and
    [removeContainer] what is registered, an object joins a registered
    container only if it is not tracked, and an object leaves a container
    only if the container is registered or the object is not tracked. *)
Definition reachable (w : World) : Prop :=
  ∃ w0 ops, pristine w0 ∧ legal ops w0 = true ∧ run ops w0 = Returned w.

(** The world in which [add] calls [updateObject]: the spatial state is
    reset and the two flags are set as asked. *)
Definition prepareAdd (o : oid) (staticObj : bool) (w : World) : World :=
  let w := with_obj o (set_spatial (Some emptySpatial)) w in
  let w := if dirtyTest (this w) then with_obj o (set_dirty true) w else w in
  if staticObj then with_obj o (set_staticObject true) w else w.

(** The cells of a range that have a bucket. *)
Definition existingCells (w : World) (ks : list key) : list key :=
  filter (fun k => is_Some (hash (this w) !! k)) ks.

(** The test that [queryCallback] applies to a bucket member: none without
    the simple test, and with it the comparison of the member's box with
    itself. *)
Definition passesCallbackTest (w : World) (simple : bool) (a : oid) : bool :=
  if simple then
    match cachedAABB (objs w a) with
    | Some box => intersects box box
    | None => false
    end
  else true.

(** The bucket members of the cells [ks] that pass that test, in traversal
    order. *)
Definition callbackCandidates (w : World) (simple : bool) (ks : list key) : list oid :=
  k ← ks; filter (fun a => passesCallbackTest w simple a = true)
                 (default [] (hash (this w) !! k)).

(** A list up to and including its first element that satisfies [cb]. *)
Fixpoint untilHit (cb : callback) (l : list oid) : list oid :=
  match l with
  | [] => []
  | a :: l' => a :: (if cb a then [] else untilHit cb l')
  end.

(** The example world after A and B were added, B moved onto A,
    and the index refreshed. *)
Definition sharedCellExample : World :=
  returned (exampleWorld true true)
    (run [OpAdd 0 false; OpAdd 1 false; OpSetTransform 1 (boxAt 20 20 20 20);
          OpUpdateObjects] (exampleWorld true true)).

(** [m <= x] for a number [m] that may be [Infinity]. *)
Definition jsLe (m : JsNumber) (x : Z) : Prop :=
  match m with
  | Num v => v <= x
  | Infinity => False
  end.

(** The members of the buckets of the cells [ks], in traversal order, every
    bucket in its own order. *)
Definition bucketMembers (w : World) (ks : list key) : list oid :=
  k ← ks; default [] (hash (this w) !! k).

(** The box test of [query] on the cached box of an object. *)
Definition hitsBox (w : World) (R : AABB) (a : oid) : bool :=
  match cachedAABB (objs w a) with
  | Some box => intersects box R
  | None => false
  end.

(** The result of culling the rectangle (0, 0, 50, 50) in that world. *)
Definition culledExample : Z * World :=
  match cull (mkAABB 0 0 50 50) false None sharedCellExample with
  | Returned p => p
  | Thrown _ => (0, sharedCellExample)
  end.

(** The example world without the simple test, after A and B were added. *)
Definition plainExample : World :=
  returned (exampleWorld false true)
    (run [OpAdd 0 false; OpAdd 1 false] (exampleWorld false true)).

(** Two states of an object with the same transform, the same
    [staticObject] flag and the same visibility. *)
Definition sameShape (d d' : DisplayObject) : Prop :=
  computeAABB d' = computeAABB d ∧ staticObject d' = staticObject d
  ∧ visible d' = visible d.

(** A loop body that changes the bookkeeping of its own object only. *)
Definition touchesOnly (f : oid -> World -> outcome World) : Prop :=
  ∀ o u u', f o u = Returned u' →
    sameConfig u u' ∧ (∀ b, b ≠ o → objs u' b = objs u b)
    ∧ sameShape (objs u o) (objs u' o).

(** The example world after A was added, with an object 1 that was never
    inserted but whose spatial state names the cell of A. *)
Definition strayKeyExample : World :=
  with_obj 1 (set_spatial (Some (mkSpatial [mkKey 0 0] None None None None)))
    addedExample.

(** The tracked objects that a refresh pass leaves out: the children of the
    registered containers that are static, in both modes, and the elements
    whose [staticObject] flag is set, in full-scan mode. *)
Definition skipped (w : World) (o : oid) : Prop :=
  (∃ c, c ∈ containers (this w) ∧ isStatic (conts w c) = true
        ∧ o ∈ children (conts w c))
  ∨ (dirtyTest (this w) = false ∧ o ∈ elements (this w)
     ∧ staticObject (objs w o) = true).

(** A call sequence that leaves five objects tracked: the elements 0 and 1
    and the children 5, 6 and 7 of container 0; the world it reaches from
    the example world; and the result of culling the rectangle
    (0, 0, 120, 120) there, which the boxes of 0, 5 and 7 intersect. *)
Definition crowdedCalls : list Op :=
  [OpAdd 0 false; OpAdd 1 true; OpAddContainer 0 false; OpAddChild 0 7].

Definition crowdedExample : World :=
  returned (exampleWorld true true) (run crowdedCalls (exampleWorld true true)).

Definition crowdedCulled : Z * World :=
  match cull (mkAABB 0 0 120 120) false None crowdedExample with
  | Returned p => p
  | Thrown _ => (0, crowdedExample)
  end.

(** * Verification *)

(** ** The error monad and the loops *)

Lemma obind_Returned {A B : Type} (m : outcome A) (f : A -> outcome B) (b : B) :
  obind m f = Returned b → ∃ a, m = Returned a ∧ f a = Returned b.
Proof. destruct m as [a|e]; simpl; [eauto | discriminate]. Qed.

Lemma forEach_app {A S : Type} (f : A -> S -> outcome S) (l1 l2 : list A) (s : S) :
  forEach f (l1 ++ l2) s = let! s' := forEach f l1 s in forEach f l2 s'.
Proof.
  revert s. induction l1 as [|a l1 IH]; intros s; simpl; [done|].
  destruct (f a s) as [s'|e]; simpl; [apply IH | done].
Qed.

(** A property that every turn of a loop keeps holds when the loop
    returns. *)
Lemma forEach_keeps {A S : Type} (P : S -> Prop) (f : A -> S -> outcome S)
    (l : list A) (s s' : S) :
  (∀ a t t', a ∈ l → P t → f a t = Returned t' → P t') →
  P s → forEach f l s = Returned s' → P s'.
Proof.
  revert s. induction l as [|a l IH]; intros s Hf Hs H; simpl in H.
  - by inversion H; subst.
  - apply obind_Returned in H as (t & Ht & H).
    apply (IH t); [| |done].
    + intros b u u' Hb. apply Hf. by right.
    + eapply Hf; [by left| |]; done.
Qed.

(** A loop whose turns all return under an invariant returns. *)
Lemma forEach_returns {A S : Type} (P : S -> Prop) (f : A -> S -> outcome S)
    (l : list A) (s : S) :
  (∀ a t, a ∈ l → P t → ∃ t', f a t = Returned t' ∧ P t') →
  P s → ∃ s', forEach f l s = Returned s' ∧ P s'.
Proof.
  revert s. induction l as [|a l IH]; intros s Hf Hs; simpl.
  - eauto.
  - destruct (Hf a s) as (t & Ht & HP); [by left|done|].
    rewrite Ht. simpl. apply IH; [|done].
    intros b u Hb. apply Hf. by right.
Qed.

Lemma upd_eq {A : Type} (f : nat -> A) (i : nat) (a : A) : upd f i a i = a.
Proof. unfold upd. by rewrite decide_True. Qed.

Lemma upd_ne {A : Type} (f : nat -> A) (i j : nat) (a : A) :
  j ≠ i → upd f i a j = f j.
Proof. intros. unfold upd. by rewrite decide_False. Qed.

(** ** [indexOf] and [splice] *)

Lemma indexOf_bounds (o : nat) (l : list nat) :
  -1 <= indexOf o l < Z.of_nat (length l).
Proof.
  induction l as [|a l IH]; simpl; [lia|].
  destruct (decide (a = o)); [lia|].
  destruct (indexOf o l <? 0) eqn:E; lia.
Qed.

Lemma indexOf_absent (o : nat) (l : list nat) : o ∉ l → indexOf o l = -1.
Proof.
  induction l as [|a l IH]; simpl; [done|].
  intros [? ?]%not_elem_of_cons.
  rewrite decide_False by done. rewrite IH by done. done.
Qed.

Lemma indexOf_present (o : nat) (l : list nat) : o ∈ l → 0 <= indexOf o l.
Proof.
  induction l as [|a l IH]; simpl; [by inversion 1|].
  intros [->|H]%elem_of_cons.
  - by rewrite decide_True.
  - destruct (decide (a = o)); [lia|].
    specialize (IH H). destruct (indexOf o l <? 0) eqn:E; lia.
Qed.

Lemma indexOf_first (o : nat) (l1 l2 : list nat) :
  o ∉ l1 → indexOf o (l1 ++ o :: l2) = Z.of_nat (length l1).
Proof.
  induction l1 as [|a l1 IH]; simpl.
  - intros _. by rewrite decide_True.
  - intros [? ?]%not_elem_of_cons.
    rewrite decide_False by done. rewrite IH by done.
    destruct (Z.of_nat (length l1) <? 0) eqn:E; lia.
Qed.

Lemma splice1_at {A : Type} (l1 l2 : list A) (a : A) :
  splice1 (Z.of_nat (length l1)) (l1 ++ a :: l2) = l1 ++ l2.
Proof.
  unfold splice1.
  replace (Z.of_nat (length l1) <? 0) with false by (symmetry; apply Z.ltb_ge; lia).
  rewrite Z.min_l by (rewrite length_app; cbn [length]; lia).
  rewrite Nat2Z.id. apply delete_middle.
Qed.

(** [splice(-1, 1)] deletes the last element. *)
Lemma splice1_minus_one {A : Type} (l : list A) (a : A) :
  splice1 (-1) (l ++ [a]) = l.
Proof.
  unfold splice1.
  replace (-1 <? 0) with true by done.
  replace (Z.to_nat (Z.max (Z.of_nat (length (l ++ [a])) + -1) 0)) with (length l)
    by (rewrite length_app; cbn [length]; lia).
  rewrite delete_middle. apply app_nil_r.
Qed.

Lemma splice1_nil {A : Type} (i : Z) : splice1 i (@nil A) = [].
Proof. unfold splice1. by destruct (Z.to_nat _). Qed.

(** Splicing an object out of a list that holds it once removes exactly
    that object. *)
Lemma splice_indexOf_elem (o a : nat) (l : list nat) :
  o ∈ l → NoDup l → a ∈ splice1 (indexOf o l) l ↔ a ∈ l ∧ a ≠ o.
Proof.
  intros Ho Hnd.
  apply list_elem_of_split_l in Ho as (l1 & l2 & -> & Hl1).
  rewrite indexOf_first by done. rewrite splice1_at.
  apply NoDup_app in Hnd as (_ & Hdis & Hnd2).
  apply NoDup_cons in Hnd2 as [Hl2 _].
  rewrite !elem_of_app, elem_of_cons. split.
  - intros [H|H]; (split; [tauto|intros ->; tauto]).
  - intros [[H|[H|H]] Hne]; tauto.
Qed.

Lemma splice_indexOf_NoDup (o : nat) (l : list nat) :
  NoDup l → NoDup (splice1 (indexOf o l) l).
Proof.
  intros Hnd. unfold splice1.
  set (i := Z.to_nat _). clearbody i. revert i.
  induction Hnd as [|x l Hx Hnd IH]; intros [|i]; simpl;
    try done; try by constructor.
  constructor; [|apply IH].
  intros H%list_elem_of_delete_inv. done.
Qed.

Lemma splice_indexOf_self (o : nat) (l : list nat) :
  o ∈ l → NoDup l → o ∉ splice1 (indexOf o l) l.
Proof. intros Ho Hnd H. apply splice_indexOf_elem in H; [tauto|done..]. Qed.

(** Splicing never adds a member. *)
Lemma splice1_subseteq {A : Type} (i : Z) (l : list A) (a : A) :
  a ∈ splice1 i l → a ∈ l.
Proof. unfold splice1. apply list_elem_of_delete_inv. Qed.

(** ** Cell ranges *)

Lemma elem_of_fromTo (a b v : Z) : v ∈ fromTo a b ↔ a <= v <= b.
Proof. unfold fromTo. rewrite elem_of_seqZ. lia. Qed.

Lemma elem_of_rangeKeys (b : SpatialHashBounds) (x y : Z) :
  (x, y) ∈ rangeKeys b ↔ bxStart b <= x <= bxEnd b ∧ byStart b <= y <= byEnd b.
Proof.
  unfold rangeKeys. rewrite list_elem_of_bind. split.
  - intros (y' & (x' & Hk & Hx)%list_elem_of_bind & Hy).
    apply list_elem_of_singleton in Hk. unfold mkKey in Hk. simplify_eq.
    apply elem_of_fromTo in Hx, Hy. done.
  - intros [Hx Hy]. exists y. rewrite elem_of_fromTo. split; [|done].
    apply list_elem_of_bind. exists x. rewrite elem_of_fromTo.
    split; [|done]. by apply list_elem_of_singleton.
Qed.

Lemma NoDup_rangeKeys (b : SpatialHashBounds) : NoDup (rangeKeys b).
Proof.
  unfold rangeKeys, fromTo. apply NoDup_bind; [| |apply NoDup_seqZ].
  - intros y1 y2 k _ _ (x1 & Hk1 & _)%list_elem_of_bind
      (x2 & Hk2 & _)%list_elem_of_bind.
    apply list_elem_of_singleton in Hk1, Hk2. unfold mkKey in *. congruence.
  - intros y _. apply NoDup_bind; [| |apply NoDup_seqZ].
    + intros x1 x2 k _ _ Hk1%list_elem_of_singleton Hk2%list_elem_of_singleton.
      unfold mkKey in *. congruence.
    + intros x _. apply NoDup_singleton.
Qed.

Lemma rangeChanged_emptySpatial (b : SpatialHashBounds) :
  rangeChanged emptySpatial b = true.
Proof. done. Qed.

Lemma rangeChanged_set_range (sp : Spatial) (b : SpatialHashBounds) :
  rangeChanged (set_range b sp) b = false.
Proof. unfold rangeChanged. simpl. by rewrite !bool_decide_eq_true_2. Qed.

Lemma rangeChanged_false (sp : Spatial) (b : SpatialHashBounds) :
  rangeChanged sp b = false ↔
  xStart sp = Some (bxStart b) ∧ yStart sp = Some (byStart b)
  ∧ xEnd sp = Some (bxEnd b) ∧ yEnd sp = Some (byEnd b).
Proof.
  unfold rangeChanged. rewrite !orb_false_iff, !negb_false_iff.
  rewrite !bool_decide_eq_true. tauto.
Qed.

Lemma rangeChanged_set_hashes (l : list key) (sp : Spatial) (b : SpatialHashBounds) :
  rangeChanged (set_hashes l sp) b = rangeChanged sp b.
Proof. done. Qed.

(** ** Frames *)

Lemma sameBody_refl (d : DisplayObject) : sameBody d d.
Proof. done. Qed.

Lemma sameBody_trans (d1 d2 d3 : DisplayObject) :
  sameBody d1 d2 → sameBody d2 d3 → sameBody d1 d3.
Proof. unfold sameBody. congruence. Qed.

Lemma sameBody_fields (d d' : DisplayObject) :
  sameBody d d' →
  computeAABB d' = computeAABB d ∧ dirty d' = dirty d
  ∧ staticObject d' = staticObject d ∧ visible d' = visible d.
Proof.
  unfold sameBody, bodyOf. destruct d, d'. simpl. intros [=]. by subst.
Qed.

Lemma sameBody_set_cachedAABB (b : option AABB) (d : DisplayObject) :
  sameBody d (set_cachedAABB b d).
Proof. done. Qed.

Lemma sameBody_set_spatial (s : option Spatial) (d : DisplayObject) :
  sameBody d (set_spatial s d).
Proof. done. Qed.

Lemma sameConfig_refl (w : World) : sameConfig w w.
Proof. done. Qed.

Lemma sameConfig_trans (w1 w2 w3 : World) :
  sameConfig w1 w2 → sameConfig w2 w3 → sameConfig w1 w3.
Proof. unfold sameConfig. intros (?&?&?) (?&?&?). split_and!; congruence. Qed.

Lemma sameConfig_fields (w w' : World) :
  sameConfig w w' →
  conts w' = conts w
  ∧ xSize (this w') = xSize (this w) ∧ ySize (this w') = ySize (this w)
  ∧ simpleTest (this w') = simpleTest (this w)
  ∧ dirtyTest (this w') = dirtyTest (this w)
  ∧ elements (this w') = elements (this w)
  ∧ containers (this w') = containers (this w).
Proof.
  unfold sameConfig, configOf. intros (Hc & _ & H).
  destruct (this w), (this w'). simpl in *. revert H. intros [=]. by subst.
Qed.

Lemma sameConfig_getBounds (w w' : World) (a : AABB) :
  sameConfig w w' → getBounds (this w') a = getBounds (this w) a.
Proof.
  intros (_ & Hx & Hy & _)%sameConfig_fields. unfold getBounds. by rewrite Hx, Hy.
Qed.

Lemma sameConfig_trackedList (w w' : World) :
  sameConfig w w' → trackedList w' = trackedList w.
Proof.
  intros (Hc & _ & _ & _ & _ & He & Hk)%sameConfig_fields.
  unfold trackedList, trackedChildren. by rewrite Hc, He, Hk.
Qed.

Lemma sameConfig_with_obj (o : oid) (f : DisplayObject -> DisplayObject) (w : World) :
  sameConfig w (with_obj o f w).
Proof. done. Qed.

Lemma sameConfig_set_hash (h : gmap key (list oid)) (w : World) :
  sameConfig w (with_this (set_hash h) w).
Proof. done. Qed.

Lemma sameConfig_set_lastBuckets (n : Z) (w : World) :
  sameConfig w (with_this (set_lastBuckets n) w).
Proof. done. Qed.

Lemma keepsKeys_refl (h : gmap key (list oid)) : keepsKeys h h.
Proof. by intros k. Qed.

Lemma keepsKeys_trans (h1 h2 h3 : gmap key (list oid)) :
  keepsKeys h1 h2 → keepsKeys h2 h3 → keepsKeys h1 h3.
Proof. intros H1 H2 k Hk. by apply H2, H1. Qed.

(** *** Buckets under [insert] *)

Lemma insertBucket_lookup (o : oid) (k k' : key) (h : gmap key (list oid)) :
  insertBucket o k h !! k' =
  if decide (k' = k) then Some (default [] (h !! k) ++ [o]) else h !! k'.
Proof.
  unfold insertBucket. destruct (h !! k) as [l|] eqn:E; simpl;
    (destruct (decide (k' = k)) as [->|Hne];
     [by rewrite lookup_insert_eq | by rewrite lookup_insert_ne]).
Qed.

Lemma insertBucket_keepsKeys (o : oid) (k : key) (h : gmap key (list oid)) :
  keepsKeys h (insertBucket o k h).
Proof.
  intros k' Hk'. rewrite insertBucket_lookup. by destruct (decide (k' = k)).
Qed.

Lemma insertBucket_creates (o : oid) (k : key) (h : gmap key (list oid)) :
  is_Some (insertBucket o k h !! k).
Proof. rewrite insertBucket_lookup, decide_True by done. eauto. Qed.

Lemma inBucket_insertBucket (o : oid) (k k' : key) (a : oid) (h : gmap key (list oid)) :
  inBucket (insertBucket o k h) k' a ↔ inBucket h k' a ∨ (a = o ∧ k' = k).
Proof.
  unfold inBucket. rewrite insertBucket_lookup.
  destruct (decide (k' = k)) as [->|Hne].
  - split.
    + intros (l & [= <-] & [Ha|Ha%list_elem_of_singleton]%elem_of_app); [|by right].
      left. destruct (h !! k); [eauto|by inversion Ha].
    + intros [(l & Hl & Ha)|[-> _]].
      * rewrite Hl. simpl. eexists; split; [done|]. apply elem_of_app. by left.
      * eexists; split; [done|]. apply elem_of_app. right. by left.
  - split; [by left|]. intros [?|[_ ?]]; done.
Qed.

Lemma insertBucket_NoDup (o : oid) (k : key) (h : gmap key (list oid)) :
  bucketsNoDup h → ¬ inBucket h k o → bucketsNoDup (insertBucket o k h).
Proof.
  intros Hnd Ho k' l. rewrite insertBucket_lookup.
  destruct (decide (k' = k)) as [->|Hne]; [|apply Hnd].
  intros [= <-]. destruct (h !! k) as [l'|] eqn:E; simpl.
  - apply NoDup_app. split_and!; [by eapply Hnd| |apply NoDup_singleton].
    intros a Ha Hb%list_elem_of_singleton. subst a. apply Ho. by exists l'.
  - apply NoDup_singleton.
Qed.

Lemma insertAll_keepsKeys (o : oid) (ks : list key) (h : gmap key (list oid)) :
  keepsKeys h (insertAll o ks h).
Proof.
  revert h. induction ks as [|k ks IH]; intros h; [apply keepsKeys_refl|].
  eapply keepsKeys_trans; [apply (insertBucket_keepsKeys o k)|apply IH].
Qed.

Lemma insertAll_creates (o : oid) (ks : list key) (h : gmap key (list oid)) (k : key) :
  k ∈ ks → is_Some (insertAll o ks h !! k).
Proof.
  revert h. induction ks as [|k' ks IH]; intros h; [by inversion 1|].
  intros [->|Hk]%elem_of_cons; [|by apply (IH (insertBucket o k' h))].
  apply (insertAll_keepsKeys o ks (insertBucket o k' h)), insertBucket_creates.
Qed.

Lemma inBucket_insertAll (o : oid) (ks : list key) (h : gmap key (list oid))
    (k : key) (a : oid) :
  inBucket (insertAll o ks h) k a ↔ inBucket h k a ∨ (a = o ∧ k ∈ ks).
Proof.
  revert h. induction ks as [|k' ks IH]; intros h; simpl.
  - split; [by left|]. intros [?|[_ H]]; [done|by inversion H].
  - unfold insertAll in *. simpl. rewrite IH, inBucket_insertBucket, elem_of_cons. tauto.
Qed.

Lemma insertAll_NoDup (o : oid) (ks : list key) (h : gmap key (list oid)) :
  bucketsNoDup h → NoDup ks → (∀ k, k ∈ ks → ¬ inBucket h k o) →
  bucketsNoDup (insertAll o ks h).
Proof.
  revert h. induction ks as [|k ks IH]; intros h Hnd Hks Ho; [done|].
  apply NoDup_cons in Hks as [Hk Hks]. unfold insertAll in *. simpl. apply IH.
  - apply insertBucket_NoDup; [done|]. apply Ho. by left.
  - done.
  - intros k' Hk'. rewrite inBucket_insertBucket. intros [H|[_ ->]]; [|done].
    revert H. apply Ho. by right.
Qed.

(** *** Buckets under [removeFromHash] *)

Lemma purge_keepsKeys (o : oid) (ks : list key) (h h' : gmap key (list oid)) :
  purge o ks h = Returned h' → ∀ k, is_Some (h' !! k) ↔ is_Some (h !! k).
Proof.
  revert h. induction ks as [|k ks IH]; intros h H; simpl in H.
  - by inversion H.
  - destruct (h !! k) as [l|] eqn:E; [|done]. intros k'.
    rewrite (IH _ H). destruct (decide (k' = k)) as [Heq|Hne].
    + subst k'. rewrite lookup_insert_eq. rewrite E. split; eauto.
    + by rewrite lookup_insert_ne.
Qed.

Lemma inBucket_splice (o : oid) (k k' : key) (a : oid) (l : list oid)
    (h : gmap key (list oid)) :
  h !! k = Some l → o ∈ l → NoDup l →
  inBucket (<[k := splice1 (indexOf o l) l]> h) k' a
  ↔ inBucket h k' a ∧ ¬ (a = o ∧ k' = k).
Proof.
  intros Hl Ho Hnd. unfold inBucket.
  destruct (decide (k' = k)) as [->|Hne].
  - rewrite lookup_insert_eq, Hl. split.
    + intros (l' & [= <-] & Ha). apply splice_indexOf_elem in Ha as [Ha Hne]; [|done..].
      split; [eauto|tauto].
    + intros [(l' & [= <-] & Ha) Hne]. eexists; split; [done|].
      apply splice_indexOf_elem; [done..|]. split; [done|]. intros ->. tauto.
  - rewrite lookup_insert_ne by done. split; [|tauto]. intros H. split; [done|tauto].
Qed.

Lemma purge_spec (o : oid) (ks : list key) (h : gmap key (list oid)) :
  NoDup ks → (∀ k, k ∈ ks → inBucket h k o) → bucketsNoDup h →
  ∃ h', purge o ks h = Returned h' ∧ bucketsNoDup h'
        ∧ ∀ k a, inBucket h' k a ↔ inBucket h k a ∧ ¬ (a = o ∧ k ∈ ks).
Proof.
  revert h. induction ks as [|k ks IH]; intros h Hks Ho Hnd; simpl.
  - exists h. split_and!; [done..|]. intros k a. split; [|tauto].
    intros H. split; [done|]. intros [_ Hk]. by inversion Hk.
  - apply NoDup_cons in Hks as [Hk Hks].
    destruct (Ho k) as (l & Hl & Hol); [by left|]. rewrite Hl.
    destruct (IH (<[k := splice1 (indexOf o l) l]> h)) as (h' & Hp & Hnd' & Hin).
    + done.
    + intros k' Hk'. apply inBucket_splice; [done|done|by eapply Hnd|].
      split; [apply Ho; by right|]. intros [_ ->]. done.
    + intros k' l'. destruct (decide (k' = k)) as [->|Hne].
      * rewrite lookup_insert_eq. intros [= <-].
        apply splice_indexOf_NoDup. by eapply Hnd.
      * rewrite lookup_insert_ne by done. apply Hnd.
    + exists h'. split_and!; [done..|]. intros k' a.
      rewrite Hin, inBucket_splice, elem_of_cons; [|done|done|by eapply Hnd]. tauto.
Qed.

(** *** Reading the heap after an update *)

Lemma objs_with_obj_eq (o : oid) (f : DisplayObject -> DisplayObject) (w : World) :
  objs (with_obj o f w) o = f (objs w o).
Proof. apply upd_eq. Qed.

Lemma objs_with_obj_ne (o a : oid) (f : DisplayObject -> DisplayObject) (w : World) :
  a ≠ o → objs (with_obj o f w) a = objs w a.
Proof. apply upd_ne. Qed.

Lemma objs_with_obj (o a : oid) (f : DisplayObject -> DisplayObject) (w : World) :
  objs (with_obj o f w) a = if decide (a = o) then f (objs w o) else objs w a.
Proof. done. Qed.

Lemma conts_with_cont_eq (c : cid) (f : Container -> Container) (w : World) :
  conts (with_cont c f w) c = f (conts w c).
Proof. apply upd_eq. Qed.

Lemma conts_with_cont_ne (c a : cid) (f : Container -> Container) (w : World) :
  a ≠ c → conts (with_cont c f w) a = conts w a.
Proof. apply upd_ne. Qed.

Lemma spatialOf_Some (d : DisplayObject) (sp : Spatial) :
  spatial d = Some sp → spatialOf d = sp.
Proof. unfold spatialOf. by intros ->. Qed.

Lemma set_hashes_id (sp : Spatial) : set_hashes (hashes sp) sp = sp.
Proof. by destruct sp. Qed.

Lemma computeAABB_set_spatial (s : option Spatial) (d : DisplayObject) :
  computeAABB (set_spatial s d) = computeAABB d.
Proof. done. Qed.

Lemma fold_insertAndPush (o : oid) (ks : list key) (w : World) (sp : Spatial) :
  spatial (objs w o) = Some sp →
  let w' := fold_left (insertAndPush o) ks w in
  hash (this w') = insertAll o ks (hash (this w))
  ∧ sameConfig w w'
  ∧ (∀ a, a ≠ o → objs w' a = objs w a)
  ∧ sameBody (objs w o) (objs w' o)
  ∧ cachedAABB (objs w' o) = cachedAABB (objs w o)
  ∧ spatial (objs w' o) = Some (set_hashes (hashes sp ++ ks) sp).
Proof.
  revert w sp. induction ks as [|k ks IH]; intros w sp Hsp; simpl.
  - split_and!; try done. by rewrite app_nil_r, set_hashes_id.
  - set (w1 := insertAndPush o w k).
    assert (Hsp1 : spatial (objs w1 o) = Some (set_hashes (hashes sp ++ [k]) sp)).
    { unfold w1, insertAndPush. rewrite objs_with_obj_eq. simpl.
      by rewrite (spatialOf_Some _ _ Hsp). }
    destruct (IH w1 _ Hsp1) as (Hh & Hc & Ho & Hb & Ha & Hs).
    split_and!.
    + by rewrite Hh.
    + eapply sameConfig_trans; [|exact Hc]. done.
    + intros a Ha'. rewrite Ho by done. unfold w1, insertAndPush.
      by rewrite objs_with_obj_ne.
    + eapply sameBody_trans; [|exact Hb]. unfold w1, insertAndPush.
      rewrite objs_with_obj_eq. apply sameBody_set_spatial.
    + rewrite Ha. unfold w1, insertAndPush. by rewrite objs_with_obj_eq.
    + rewrite Hs. simpl. by rewrite <- (assoc_L (++)).
Qed.

Lemma removeFromHash_frame (o : oid) (w w' : World) :
  removeFromHash o w = Returned w' →
  sameConfig w w'
  ∧ (∀ a, a ≠ o → objs w' a = objs w a)
  ∧ sameBody (objs w o) (objs w' o)
  ∧ cachedAABB (objs w' o) = cachedAABB (objs w o)
  ∧ (∀ k, is_Some (hash (this w') !! k) ↔ is_Some (hash (this w) !! k))
  ∧ spatial (objs w' o) = set_hashes [] <$> spatial (objs w o).
Proof.
  unfold removeFromHash. destruct (spatial (objs w o)) as [sp|] eqn:Hsp.
  - intros (h & Hp & [= <-])%obind_Returned. split_and!.
    + done.
    + intros a Ha. by rewrite objs_with_obj_ne.
    + rewrite objs_with_obj_eq. apply sameBody_set_spatial.
    + by rewrite objs_with_obj_eq.
    + intros k. simpl. by apply purge_keepsKeys with (k := k) in Hp.
    + by rewrite objs_with_obj_eq.
  - intros [= <-]. rewrite Hsp. done.
Qed.

Lemma upToDate_sameBody (w w' : World) (d d' : DisplayObject) :
  sameConfig w w' → sameBody d d' → spatialOf d' = spatialOf d →
  upToDate (this w) d → upToDate (this w') d'.
Proof.
  intros Hc (Hb & _)%sameBody_fields Hs. unfold upToDate.
  by rewrite Hb, Hs, (sameConfig_getBounds _ _ _ Hc).
Qed.

Lemma updateObject_frame (o : oid) (w w' : World) :
  updateObject o w = Returned w' →
  sameConfig w w'
  ∧ (∀ a, a ≠ o → objs w' a = objs w a)
  ∧ sameBody (objs w o) (objs w' o)
  ∧ cachedAABB (objs w' o) = Some (computeAABB (objs w o))
  ∧ keepsKeys (hash (this w)) (hash (this w'))
  ∧ upToDate (this w') (objs w' o)
  ∧ (upToDate (this w) (objs w o) → hash (this w') = hash (this w)).
Proof.
  unfold updateObject. cbv zeta.
  set (box := computeAABB (objs w o)).
  set (w1 := with_obj o (fun d => set_spatial (Some (spatialOf d)) d)
               (with_obj o (set_cachedAABB (Some box)) w)).
  assert (H1 : objs w1 o = set_spatial (Some (spatialOf (objs w o)))
                             (set_cachedAABB (Some box) (objs w o))).
  { unfold w1. by rewrite !objs_with_obj_eq. }
  assert (H1' : ∀ a, a ≠ o → objs w1 a = objs w a).
  { intros a Ha. unfold w1. by rewrite !objs_with_obj_ne. }
  assert (Hs1 : spatialOf (objs w1 o) = spatialOf (objs w o)) by by rewrite H1.
  change (this w1) with (this w). rewrite Hs1.
  set (b := getBounds (this w) box).
  destruct (rangeChanged (spatialOf (objs w o)) b) eqn:Hch.
  - intros (w2 & Hw2 & [= <-])%obind_Returned.
    assert (Hfr : sameConfig w1 w2
                  ∧ (∀ a, a ≠ o → objs w2 a = objs w1 a)
                  ∧ sameBody (objs w1 o) (objs w2 o)
                  ∧ cachedAABB (objs w2 o) = cachedAABB (objs w1 o)
                  ∧ (∀ k, is_Some (hash (this w2) !! k) ↔ is_Some (hash (this w1) !! k))
                  ∧ ∃ sp2, spatial (objs w2 o) = Some sp2).
    { destruct (bool_decide (hashes (spatialOf (objs w o)) = [])).
      - injection Hw2 as <-. split_and!; try done. rewrite H1. eauto.
      - apply removeFromHash_frame in Hw2 as (?&?&?&?&?&Hsp).
        split_and!; try done. rewrite Hsp, H1. simpl. eauto. }
    destruct Hfr as (Hc2 & Ho2 & Hb2 & Ha2 & Hk2 & sp2 & Hsp2).
    destruct (fold_insertAndPush o (rangeKeys b) w2 sp2 Hsp2)
      as (Hh3 & Hc3 & Ho3 & Hb3 & Ha3 & Hsp3).
    set (w3 := fold_left (insertAndPush o) (rangeKeys b) w2) in *.
    split_and!.
    + eapply sameConfig_trans; [|exact Hc3]. eapply sameConfig_trans; [|exact Hc2]. done.
    + intros a Ha. rewrite objs_with_obj_ne, Ho3, Ho2, H1' by done. done.
    + rewrite objs_with_obj_eq.
      eapply sameBody_trans; [|apply sameBody_set_spatial].
      eapply sameBody_trans; [|exact Hb3]. eapply sameBody_trans; [|exact Hb2].
      rewrite H1. done.
    + rewrite objs_with_obj_eq. simpl. rewrite Ha3, Ha2, H1. done.
    + simpl. rewrite Hh3. intros k Hk. apply insertAll_keepsKeys. by apply Hk2.
    + unfold upToDate. rewrite objs_with_obj_eq.
      assert (Hbody : sameBody (objs w o) (objs w3 o)).
      { eapply sameBody_trans; [|exact Hb3]. eapply sameBody_trans; [|exact Hb2].
        rewrite H1. done. }
      apply sameBody_fields in Hbody as (Hbox & _).
      assert (Hc13 : sameConfig w w3).
      { eapply sameConfig_trans; [|exact Hc3]. eapply sameConfig_trans; [|exact Hc2]. done. }
      change (this (with_obj o _ w3)) with (this w3).
      rewrite (sameConfig_getBounds _ _ _ Hc13), computeAABB_set_spatial, Hbox.
      apply rangeChanged_set_range.
    + unfold upToDate. fold box. fold b. rewrite Hch. done.
  - intros [= <-]. split_and!; try done.
    + rewrite H1. done.
    + rewrite H1. done.
    + apply keepsKeys_refl.
    + unfold upToDate. rewrite H1. exact Hch.
Qed.

(** ** Refreshing twice *)

Lemma forEach_ext {A S : Type} (f g : A -> S -> outcome S) (l : list A) (s : S) :
  (∀ a t, f a t = g a t) → forEach f l s = forEach g l s.
Proof.
  intros H. revert s. induction l as [|a l IH]; intros s; simpl; [done|].
  rewrite H. destruct (g a s); simpl; [apply IH|done].
Qed.

Lemma scanKeeps_refl (w : World) : scanKeeps w w.
Proof. done. Qed.

Lemma scanKeeps_trans (w1 w2 w3 : World) :
  scanKeeps w1 w2 → scanKeeps w2 w3 → scanKeeps w1 w3.
Proof.
  intros (Hc & Hb & Hu) (Hc' & Hb' & Hu'). refine (conj _ (conj _ _)).
  - exact (sameConfig_trans _ _ _ Hc Hc').
  - intros a. eapply sameBody_trans; [apply Hb|apply Hb'].
  - intros a Ha. by apply Hu', Hu.
Qed.

Lemma updateObject_scanKeeps (o : oid) (w w' : World) :
  updateObject o w = Returned w' → scanKeeps w w' ∧ upToDate (this w') (objs w' o).
Proof.
  intros (Hc & Ho & Hb & _ & _ & Hu & _)%updateObject_frame.
  split; [|done]. split_and!; [done| |].
  - intros a. destruct (decide (a = o)) as [->|Hne]; [done|].
    rewrite Ho by done. apply sameBody_refl.
  - intros a Ha. destruct (decide (a = o)) as [->|Hne]; [done|].
    rewrite Ho by done. revert Ha. by apply upToDate_sameBody.
Qed.

Lemma updateObject_upToDate (o : oid) (w : World) :
  upToDate (this w) (objs w o) →
  ∃ w', updateObject o w = Returned w' ∧ hash (this w') = hash (this w).
Proof.
  intros Hu. destruct (updateObject o w) as [w'|e] eqn:E.
  - exists w'. split; [done|].
    apply updateObject_frame in E as (_ & _ & _ & _ & _ & _ & Hh). by apply Hh.
  - exfalso. revert E. unfold updateObject. cbv zeta.
    rewrite !objs_with_obj_eq. simpl. unfold upToDate in Hu.
    change (spatialOf (set_spatial (Some ?s) ?d)) with s.
    change (spatialOf (set_cachedAABB ?b ?d)) with (spatialOf d).
    rewrite Hu. done.
Qed.

Section Passes.
Variable g : DisplayObject -> bool.
Hypothesis g_body : ∀ d d', sameBody d d' → g d' = g d.

(** After a pass, every object the pass re-indexed is up to date. *)
Lemma pass_settles (l : list oid) (w w' : World) :
  forEach (updateIf g) l w = Returned w' →
  scanKeeps w w'
  ∧ ∀ a, a ∈ l → g (objs w a) = true → upToDate (this w') (objs w' a).
Proof.
  revert w. induction l as [|o l IH]; intros w H; simpl in H.
  - injection H as <-. split; [done|]. intros a Ha. by inversion Ha.
  - apply obind_Returned in H as (w1 & H1 & H).
    assert (Hk1 : scanKeeps w w1
                  ∧ (g (objs w o) = true → upToDate (this w1) (objs w1 o))).
    { unfold updateIf in H1. destruct (g (objs w o)).
      - apply updateObject_scanKeeps in H1 as [? ?]. done.
      - injection H1 as <-. done. }
    destruct Hk1 as [Hk1 Ho1]. destruct (IH _ H) as [Hk Hl].
    split; [eapply scanKeeps_trans; eassumption|].
    intros a [->|Ha]%elem_of_cons Hg.
    + destruct Hk as (_ & _ & Hu). by apply Hu, Ho1.
    + apply Hl; [done|]. destruct Hk1 as (_ & Hb & _).
      by rewrite (g_body _ _ (Hb a)).
Qed.

(** A pass over objects that are up to date returns and changes no
    bucket. *)
Lemma pass_idle (l : list oid) (w : World) :
  (∀ a, a ∈ l → g (objs w a) = true → upToDate (this w) (objs w a)) →
  ∃ w', forEach (updateIf g) l w = Returned w'
        ∧ scanKeeps w w' ∧ hash (this w') = hash (this w).
Proof.
  revert w. induction l as [|o l IH]; intros w Hl; simpl.
  - by exists w.
  - assert (H1 : ∃ w1, updateIf g o w = Returned w1 ∧ scanKeeps w w1
                       ∧ hash (this w1) = hash (this w)).
    { unfold updateIf. destruct (g (objs w o)) eqn:Hg.
      - destruct (updateObject_upToDate o w) as (w1 & H1 & Hh).
        { apply Hl; [by left|done]. }
        exists w1. split_and!; [done| |done].
        by apply updateObject_scanKeeps in H1 as [? _].
      - by exists w. }
    destruct H1 as (w1 & -> & Hk1 & Hh1). simpl.
    destruct (IH w1) as (w' & H' & Hk & Hh).
    { intros a Ha Hg. destruct Hk1 as (_ & Hb & Hu). apply Hu, Hl.
      - by right.
      - by rewrite <- (g_body _ _ (Hb a)). }
    exists w'. split_and!; [done| |congruence]. eapply scanKeeps_trans; eassumption.
Qed.
End Passes.

Lemma scanContainer_alt (c : cid) (w : World) :
  scanContainer c w =
  if negb (isStatic (conts w c))
  then forEach (updateIf (fun _ => true)) (children (conts w c)) w
  else Returned w.
Proof. unfold scanContainer. destruct (negb _); [|done]. by apply forEach_ext. Qed.

Lemma scanContainers_settle (cs : list cid) (w w' : World) :
  forEach scanContainer cs w = Returned w' →
  scanKeeps w w'
  ∧ ∀ c a, c ∈ cs → isStatic (conts w c) = false → a ∈ children (conts w c) →
           upToDate (this w') (objs w' a).
Proof.
  revert w. induction cs as [|c cs IH]; intros w H; simpl in H.
  - injection H as <-. split; [done|]. intros c a Hc. by inversion Hc.
  - apply obind_Returned in H as (w1 & H1 & H).
    assert (Hk1 : scanKeeps w w1
                  ∧ (isStatic (conts w c) = false →
                     ∀ a, a ∈ children (conts w c) → upToDate (this w1) (objs w1 a))).
    { rewrite scanContainer_alt in H1. destruct (isStatic (conts w c)); simpl in H1.
      - injection H1 as <-. done.
      - apply pass_settles in H1 as [Hk Hl]; [|done]. split; [done|]. eauto. }
    destruct Hk1 as [Hk1 Hc1]. destruct (IH _ H) as [Hk Hl].
    split; [eapply scanKeeps_trans; eassumption|].
    assert (Hconts : conts w1 = conts w) by apply Hk1.
    intros c' a [->|Hc']%elem_of_cons Hst Ha.
    + destruct Hk as (_ & _ & Hu). by apply Hu, Hc1.
    + apply (Hl c' a); [done|by rewrite Hconts..].
Qed.

Lemma scanContainers_idle (cs : list cid) (w : World) :
  (∀ c a, c ∈ cs → isStatic (conts w c) = false → a ∈ children (conts w c) →
          upToDate (this w) (objs w a)) →
  ∃ w', forEach scanContainer cs w = Returned w'
        ∧ scanKeeps w w' ∧ hash (this w') = hash (this w).
Proof.
  revert w. induction cs as [|c cs IH]; intros w Hl; simpl.
  - by exists w.
  - assert (H1 : ∃ w1, scanContainer c w = Returned w1 ∧ scanKeeps w w1
                       ∧ hash (this w1) = hash (this w)).
    { rewrite scanContainer_alt. destruct (isStatic (conts w c)) eqn:Hst; simpl.
      - by exists w.
      - apply pass_idle; [done|]. intros a Ha _. apply (Hl c); [by left|done..]. }
    destruct H1 as (w1 & -> & Hk1 & Hh1). simpl.
    assert (Hconts : conts w1 = conts w) by apply Hk1.
    destruct (IH w1) as (w' & H' & Hk & Hh).
    { intros c' a Hc' Hst Ha. rewrite Hconts in Hst, Ha.
      destruct Hk1 as (_ & _ & Hu). apply Hu, (Hl c'); [by right|done..]. }
    exists w'. split_and!; [done| |congruence]. eapply scanKeeps_trans; eassumption.
Qed.

(** The dirty-test loops. *)

Lemma dirtyKeeps_refl (w : World) : dirtyKeeps w w.
Proof. done. Qed.

Lemma dirtyKeeps_trans (w1 w2 w3 : World) :
  dirtyKeeps w1 w2 → dirtyKeeps w2 w3 → dirtyKeeps w1 w3.
Proof.
  intros (Hc & Hd) (Hc' & Hd'). split; [eapply sameConfig_trans; eassumption|].
  intros a Ha. by apply Hd', Hd.
Qed.

Lemma refreshIfDirty_keeps (o : oid) (w w' : World) :
  refreshIfDirty o w = Returned w' →
  dirtyKeeps w w' ∧ dirty (objs w' o) = false.
Proof.
  unfold refreshIfDirty. destruct (dirty (objs w o)) eqn:Hd.
  - intros (w1 & H1 & [= <-])%obind_Returned.
    apply updateObject_frame in H1 as (Hc & Ho & _).
    split; [|by rewrite objs_with_obj_eq]. split.
    + eapply sameConfig_trans; [exact Hc|done].
    + intros a Ha. rewrite objs_with_obj. destruct (decide (a = o)); [done|].
      by rewrite Ho.
  - intros [= <-]. done.
Qed.

Lemma dirtyPass_clears (l : list oid) (w w' : World) :
  forEach refreshIfDirty l w = Returned w' →
  dirtyKeeps w w' ∧ ∀ a, a ∈ l → dirty (objs w' a) = false.
Proof.
  revert w. induction l as [|o l IH]; intros w H; simpl in H.
  - injection H as <-. split; [done|]. intros a Ha. by inversion Ha.
  - apply obind_Returned in H as (w1 & H1 & H).
    apply refreshIfDirty_keeps in H1 as [Hk1 Ho1]. destruct (IH _ H) as [Hk Hl].
    split; [eapply dirtyKeeps_trans; eassumption|].
    intros a [->|Ha]%elem_of_cons; [|by apply Hl]. by apply Hk.
Qed.

Lemma dirtyPass_idle (l : list oid) (w : World) :
  (∀ a, a ∈ l → dirty (objs w a) = false) → forEach refreshIfDirty l w = Returned w.
Proof.
  induction l as [|o l IH]; intros Hl; simpl; [done|].
  unfold refreshIfDirty at 1. rewrite Hl by by left. simpl.
  apply IH. intros a Ha. apply Hl. by right.
Qed.

Lemma dirtyContainers_clear (cs : list cid) (w w' : World) :
  forEach dirtyContainer cs w = Returned w' →
  dirtyKeeps w w'
  ∧ ∀ c a, c ∈ cs → isStatic (conts w c) = false → a ∈ children (conts w c) →
           dirty (objs w' a) = false.
Proof.
  revert w. induction cs as [|c cs IH]; intros w H; simpl in H.
  - injection H as <-. split; [done|]. intros c a Hc. by inversion Hc.
  - apply obind_Returned in H as (w1 & H1 & H).
    assert (Hk1 : dirtyKeeps w w1
                  ∧ (isStatic (conts w c) = false →
                     ∀ a, a ∈ children (conts w c) → dirty (objs w1 a) = false)).
    { unfold dirtyContainer in H1. destruct (isStatic (conts w c)); simpl in H1.
      - injection H1 as <-. done.
      - apply dirtyPass_clears in H1 as [Hk Hl]. split; [done|]. eauto. }
    destruct Hk1 as [Hk1 Hc1]. destruct (IH _ H) as [Hk Hl].
    split; [eapply dirtyKeeps_trans; eassumption|].
    assert (Hconts : conts w1 = conts w) by apply Hk1.
    intros c' a [->|Hc']%elem_of_cons Hst Ha.
    + by apply Hk, Hc1.
    + apply (Hl c' a); [done|by rewrite Hconts..].
Qed.

Lemma dirtyContainers_idle (cs : list cid) (w : World) :
  (∀ c a, c ∈ cs → isStatic (conts w c) = false → a ∈ children (conts w c) →
          dirty (objs w a) = false) →
  forEach dirtyContainer cs w = Returned w.
Proof.
  induction cs as [|c cs IH]; intros Hl; simpl; [done|].
  unfold dirtyContainer at 1. destruct (isStatic (conts w c)) eqn:Hst; simpl.
  - apply IH. intros c' a Hc'. apply Hl. by right.
  - rewrite dirtyPass_idle; simpl.
    + apply IH. intros c' a Hc'. apply Hl. by right.
    + intros a Ha. apply (Hl c); [by left|done..].
Qed.

Lemma updateObjects_unfold (w : World) :
  updateObjects w =
  if dirtyTest (this w) then
    let! w1 := forEach refreshIfDirty (elements (this w)) w in
    forEach dirtyContainer (containers (this w1)) w1
  else
    let! w1 := forEach (updateIf (fun d => negb (staticObject d))) (elements (this w)) w in
    forEach scanContainer (containers (this w1)) w1.
Proof. reflexivity. Qed.

Lemma negb_staticObject_body (d d' : DisplayObject) :
  sameBody d d' → negb (staticObject d') = negb (staticObject d).
Proof. intros (_ & _ & -> & _)%sameBody_fields. done. Qed.

Lemma second_refresh_changes_no_bucket (w w1 : World) :
  updateObjects w = Returned w1 →
  ∃ w2, updateObjects w1 = Returned w2 ∧ hash (this w2) = hash (this w1).
Proof.
  rewrite !updateObjects_unfold. destruct (dirtyTest (this w)) eqn:Hdt.
  - intros (wa & Ha & Hb)%obind_Returned.
    apply dirtyPass_clears in Ha as [Hka Hla].
    apply dirtyContainers_clear in Hb as [Hkb Hlb].
    destruct (sameConfig_fields _ _ (proj1 Hka)) as (Hca & _ & _ & _ & _ & _ & Hcsa).
    destruct (sameConfig_fields _ _ (proj1 Hkb)) as (Hcb & _ & _ & _ & Hdb & Heb & Hcsb).
    destruct (sameConfig_fields _ _ (proj1 Hka)) as (_ & _ & _ & _ & Hda & Hea & _).
    rewrite Hdb, Hda, Hdt, Heb, Hea. exists w1.
    rewrite dirtyPass_idle; simpl.
    + split; [|done]. apply dirtyContainers_idle.
      intros c a Hc Hst Hin. rewrite Hcb in Hst, Hin. rewrite Hcsb in Hc.
      by apply (Hlb c a).
    + intros a Hin. by apply Hkb, Hla.
  - intros (wa & Ha & Hb)%obind_Returned.
    apply pass_settles in Ha as [Hka Hla]; [|apply negb_staticObject_body].
    apply scanContainers_settle in Hb as [Hkb Hlb].
    destruct (sameConfig_fields _ _ (proj1 Hka)) as (Hca & _ & _ & _ & Hda & Hea & Hcsa).
    destruct (sameConfig_fields _ _ (proj1 Hkb)) as (Hcb & _ & _ & _ & Hdb & Heb & Hcsb).
    rewrite Hdb, Hda, Hdt, Heb, Hea.
    destruct (pass_idle (fun d => negb (staticObject d)) negb_staticObject_body
                (elements (this w)) w1) as (wb & -> & Hkc & Hhc).
    { intros a Hin Hst. destruct Hkb as (_ & Hbody & Hu). apply Hu, Hla; [done|].
      rewrite (negb_staticObject_body _ _ (Hbody a)) in Hst.
      by rewrite (negb_staticObject_body _ _ (proj1 (proj2 Hka) a)) in Hst. }
    simpl.
    destruct (sameConfig_fields _ _ (proj1 Hkc)) as (Hcc & _ & _ & _ & _ & _ & Hcsc).
    destruct (scanContainers_idle (containers (this wb)) wb) as (w2 & -> & _ & Hh).
    { intros c a Hc Hst Hin. rewrite Hcc, Hcb in Hst, Hin. rewrite Hcsc, Hcsb in Hc.
      destruct Hkc as (_ & _ & Hu). apply Hu. by apply (Hlb c a). }
    exists w2. split; [done|congruence].
Qed.


(** C8.  Refresh is idempotent on the buckets.  For an index with non-zero
    cell sizes (the domain of the model): when [updateObjects] has returned,
    a second call right after it returns as well and leaves the bucket map
    exactly as the first call left it, in dirty-test mode and in full-scan
    mode.  Nothing else is asked of the state of the index. *)
Theorem updateObjects_idempotent (w w1 : World) :
  xSize (this w) ≠ 0 → ySize (this w) ≠ 0 →
  updateObjects w = Returned w1 →
  ∃ w2, updateObjects w1 = Returned w2 ∧ hash (this w2) = hash (this w1).
Proof.
  intros _ _. apply second_refresh_changes_no_bucket.
Qed.

Lemma updateObjects_idempotent_witness :
  ∃ w2, updateObjects (returned (refreshExample) (updateObjects refreshExample))
        = Returned w2
        ∧ hash (this w2)
          = hash (this (returned (refreshExample) (updateObjects refreshExample))).
Proof.
  apply (updateObjects_idempotent refreshExample).
  - vm_compute. discriminate.
  - vm_compute. discriminate.
  - vm_compute. reflexivity.
Defined.

(** ** Buckets are never deleted *)

Lemma fold_with_obj_frame (f : DisplayObject -> DisplayObject) (l : list oid) (w : World) :
  let w' := fold_left (fun w o => with_obj o f w) l w in
  this w' = this w ∧ conts w' = conts w ∧ closures w' = closures w
  ∧ ∀ a, a ∉ l → objs w' a = objs w a.
Proof.
  revert w. induction l as [|o l IH]; intros w; simpl; [done|].
  destruct (IH (with_obj o f w)) as (Ht & Hc & Hcl & Ho).
  split_and!; [done..|].
  intros a [Hne Ha]%not_elem_of_cons. rewrite Ho by done. by rewrite objs_with_obj_ne.
Qed.

Lemma hideChildren_frame (cs : list cid) (w : World) :
  let w' := fold_left (fun w c =>
              fold_left (fun w o => with_obj o (set_visible false) w)
                        (children (conts w c)) w) cs w in
  this w' = this w ∧ conts w' = conts w ∧ closures w' = closures w.
Proof.
  revert w. induction cs as [|c cs IH]; intros w; simpl; [done|].
  destruct (fold_with_obj_frame (set_visible false) (children (conts w c)) w)
    as (Ht & Hc & Hcl & _).
  set (w1 := fold_left _ (children (conts w c)) w) in *.
  destruct (IH w1) as (E1 & E2 & E3). rewrite E1, E2, E3. done.
Qed.

Lemma invisible_frame (w : World) :
  this (invisible w) = this w ∧ conts (invisible w) = conts w
  ∧ closures (invisible w) = closures w.
Proof.
  unfold invisible. cbv zeta.
  destruct (fold_with_obj_frame (set_visible false) (elements (this w)) w)
    as (Ht & Hc & Hcl & _).
  set (w1 := fold_left _ (elements (this w)) w) in *.
  destruct (hideChildren_frame (containers (this w1)) w1) as (E1 & E2 & E3).
  rewrite E1, E2, E3. done.
Qed.

Lemma query_frame (R : AABB) (simple : bool) (w w' : World) (r : list oid) :
  query R simple w = Returned (r, w') → ∃ n, w' = with_this (set_lastBuckets n) w.
Proof.
  unfold query. intros (q & _ & [= <- <-])%obind_Returned. eauto.
Qed.

Lemma queryCallbackAll_frame (R : AABB) (simple : bool) (cb : callback)
    (w w' : World) (r : list oid * list oid) :
  queryCallbackAll R simple cb w = Returned (r, w') →
  ∃ n, w' = with_this (set_lastBuckets n) w.
Proof.
  unfold queryCallbackAll. intros (q & _ & [= <- <-])%obind_Returned. eauto.
Qed.

(** The part of [cull] after the refresh. *)
Lemma cull_unfold (R : AABB) (skip : bool) (cb : option callback) (w w' : World) (n : Z) :
  cull R skip cb w = Returned (n, w') →
  ∃ w1 r m,
    (if skip then Returned w else updateObjects w) = Returned w1
    ∧ (match cb with
       | Some f => let! q := queryCallbackAll R (simpleTest (this (invisible w1))) f
                               (invisible w1) in Returned (q.1.1, q.2)
       | None => query R (simpleTest (this (invisible w1))) (invisible w1)
       end) = Returned (r, with_this (set_lastBuckets m) (invisible w1))
    ∧ w' = fold_left (fun w o => with_obj o (set_visible true) w) r
             (with_this (set_lastBuckets m) (invisible w1)).
Proof.
  unfold cull. intros (w1 & H1 & (q & Hq & [= <- <-])%obind_Returned)%obind_Returned.
  exists w1. destruct q as [r w2].
  assert (∃ m, w2 = with_this (set_lastBuckets m) (invisible w1)) as [m ->].
  { destruct cb as [f|].
    - apply obind_Returned in Hq as ([q1 q2] & Hq & [= <- <-]).
      by apply queryCallbackAll_frame in Hq.
    - by apply query_frame in Hq. }
  by exists r, m.
Qed.

Lemma removeFromHash_keys (o : oid) (w w' : World) :
  removeFromHash o w = Returned w' → keepsKeys (hash (this w)) (hash (this w')).
Proof. intros (_ & _ & _ & _ & Hk & _)%removeFromHash_frame k. by apply Hk. Qed.

Lemma updateObject_keys (o : oid) (w w' : World) :
  updateObject o w = Returned w' → keepsKeys (hash (this w)) (hash (this w')).
Proof. by intros (_ & _ & _ & _ & Hk & _)%updateObject_frame. Qed.

Lemma forEach_keys {A : Type} (f : A -> World -> outcome World) (l : list A)
    (w w' : World) :
  (∀ a t t', f a t = Returned t' → keepsKeys (hash (this t)) (hash (this t'))) →
  forEach f l w = Returned w' → keepsKeys (hash (this w)) (hash (this w')).
Proof.
  intros Hf. apply (forEach_keeps (fun t => keepsKeys (hash (this w)) (hash (this t)))).
  - intros a t t' _ Ht Hft. eapply keepsKeys_trans; [exact Ht|]. by eapply Hf.
  - apply keepsKeys_refl.
Qed.

Lemma refreshIfDirty_keys (o : oid) (w w' : World) :
  refreshIfDirty o w = Returned w' → keepsKeys (hash (this w)) (hash (this w')).
Proof.
  unfold refreshIfDirty. destruct (dirty (objs w o)).
  - intros (w1 & H1 & [= <-])%obind_Returned. by apply updateObject_keys in H1.
  - intros [= <-]. apply keepsKeys_refl.
Qed.

Lemma updateIf_keys (g : DisplayObject -> bool) (o : oid) (w w' : World) :
  updateIf g o w = Returned w' → keepsKeys (hash (this w)) (hash (this w')).
Proof.
  unfold updateIf. destruct (g (objs w o)).
  - apply updateObject_keys.
  - intros [= <-]. apply keepsKeys_refl.
Qed.

Lemma updateObjects_keys (w w' : World) :
  updateObjects w = Returned w' → keepsKeys (hash (this w)) (hash (this w')).
Proof.
  rewrite updateObjects_unfold. destruct (dirtyTest (this w)).
  - intros (w1 & H1 & H2)%obind_Returned.
    eapply keepsKeys_trans.
    + eapply forEach_keys; [|exact H1]. apply refreshIfDirty_keys.
    + eapply forEach_keys; [|exact H2]. intros c t t'. unfold dirtyContainer.
      destruct (negb _); [|intros [= <-]; apply keepsKeys_refl].
      apply forEach_keys, refreshIfDirty_keys.
  - intros (w1 & H1 & H2)%obind_Returned.
    eapply keepsKeys_trans.
    + eapply forEach_keys; [|exact H1]. apply updateIf_keys.
    + eapply forEach_keys; [|exact H2]. intros c t t'. unfold scanContainer.
      destruct (negb _); [|intros [= <-]; apply keepsKeys_refl].
      apply forEach_keys, updateObject_keys.
Qed.

Lemma callListener_keys (fn : listener) (o : oid) (w w' : World) :
  callListener fn o w = Returned w' → keepsKeys (hash (this w)) (hash (this w')).
Proof.
  destruct fn; simpl.
  - intros H%updateObject_keys. done.
  - apply removeFromHash_keys.
Qed.

Lemma emit_keys (ev : string) (c : cid) (o : oid) (w w' : World) :
  emit ev c o w = Returned w' → keepsKeys (hash (this w)) (hash (this w')).
Proof.
  unfold emit. apply forEach_keys. intros p t t'.
  destruct (decide _); [apply callListener_keys|].
  intros [= <-]. apply keepsKeys_refl.
Qed.

Lemma exec_keys (op : Op) (w w' : World) :
  exec op w = Returned w' → keepsKeys (hash (this w)) (hash (this w')).
Proof.
  destruct op as [o s|o|c s|c| |R skip cb|o t|o b|c o|c o]; simpl.
  - unfold add. intros (w1 & H1 & [= <-])%obind_Returned.
    apply updateObject_keys in H1.
    match type of H1 with
    | keepsKeys (hash (this ?W)) _ => assert (this W = this w) as HW
    end.
    { repeat case_match; reflexivity. }
    by rewrite HW in H1.
  - unfold remove. intros H%removeFromHash_keys. done.
  - unfold addContainer. intros (w1 & H1 & [= <-])%obind_Returned.
    assert (keepsKeys (hash (this w)) (hash (this w1))) as Hk.
    { eapply (forEach_keys _ _ (mkWorld (objs w) (conts w) (this w) (S (closures w))));
        [|exact H1].
      intros a t t' Ht%updateObject_keys. done. }
    by destruct s.
  - unfold removeContainer. intros (w1 & H1 & [= <-])%obind_Returned.
    eapply (forEach_keys _ _ (with_this _ w)) in H1; [done|].
    apply removeFromHash_keys.
  - apply updateObjects_keys.
  - intros ([n w1] & (w2 & r & m & H2 & _ & Hw)%cull_unfold & [= <-])%obind_Returned.
    subst w1.
    destruct (fold_with_obj_frame (set_visible true) r
                (with_this (set_lastBuckets m) (invisible w2))) as (-> & _).
    simpl. destruct (invisible_frame w2) as (-> & _).
    destruct skip; [injection H2 as <-; apply keepsKeys_refl|by apply updateObjects_keys].
  - intros [= <-]. apply keepsKeys_refl.
  - intros [= <-]. apply keepsKeys_refl.
  - unfold addChild. intros H%emit_keys. done.
  - unfold removeChild. destruct (_ <? 0); [intros [= <-]; apply keepsKeys_refl|].
    intros H%emit_keys. done.
Qed.

Lemma run_keys (ops : list Op) (w w' : World) :
  run ops w = Returned w' → keepsKeys (hash (this w)) (hash (this w')).
Proof. apply forEach_keys. apply exec_keys. Qed.

Lemma elem_of_getBuckets (w : World) (l : list oid) :
  l ∈ getBuckets 1 w ↔ l ≠ [] ∧ ∃ k, hash (this w) !! k = Some l.
Proof.
  unfold getBuckets. rewrite list_elem_of_filter, list_elem_of_fmap. split.
  - intros [Hlen ([k l'] & -> & Hin%elem_of_map_to_list)]. simpl in *.
    split; [|eauto]. intros ->. simpl in Hlen. lia.
  - intros [Hne [k Hk]]. split.
    + destruct l; [done|]. simpl. lia.
    + exists (k, l). split; [done|]. by apply elem_of_map_to_list.
Qed.

(** C10.  No call sequence deletes a bucket: for an index with non-zero
    cell sizes (the domain of the model), a key that is in the bucket map
    stays in it whatever is called afterwards, and [insert] creates the key
    it is given.  [getNumberOfBuckets] counts the keys, emptied buckets
    included, while [getBuckets] with the default minimum of 1 returns
    exactly the non-empty buckets.  After [add] and [remove] of object 0 in
    the example world the one bucket is still there, and empty. *)
Theorem buckets_are_never_deleted :
  (∀ ops w w', xSize (this w) ≠ 0 → ySize (this w) ≠ 0 →
               run ops w = Returned w' →
               ∀ k, is_Some (hash (this w) !! k) → is_Some (hash (this w') !! k))
  ∧ (∀ o k w, is_Some (hash (this (insert o k w)) !! k))
  ∧ (∀ w, getNumberOfBuckets w = Z.of_nat (size (dom (hash (this w)))))
  ∧ (∀ w l, l ∈ getBuckets 1 w ↔ l ≠ [] ∧ ∃ k, hash (this w) !! k = Some l)
  ∧ (let w := returned (exampleWorld true true)
                (run [OpAdd 0 false; OpRemove 0] (exampleWorld true true)) in
     hash (this w) = {[ (0, 0) := [] ]}
     ∧ getNumberOfBuckets w = 1 ∧ getBuckets 1 w = []).
Proof.
  split_and!.
  - intros ops w w' _ _ H. exact (run_keys ops w w' H).
  - intros o k w. apply insertBucket_creates.
  - intros w. unfold getNumberOfBuckets. by rewrite size_dom.
  - apply elem_of_getBuckets.
  - by vm_compute.
Qed.

Lemma buckets_are_never_deleted_witness :
  is_Some (hash (this (returned (exampleWorld true true)
                         (run [OpAdd 0 false; OpRemove 0]
                              (insert 1 (3, 4) (exampleWorld true true)))))
           !! (3, 4)).
Proof.
  apply (proj1 buckets_are_never_deleted [OpAdd 0 false; OpRemove 0]
           (insert 1 (3, 4) (exampleWorld true true))).
  - vm_compute. discriminate.
  - vm_compute. discriminate.
  - vm_compute. reflexivity.
  - vm_compute. eauto.
Defined.

(** ** Construction *)

(** C5, as stated, fails: the constructor returns an index for a zero cell
    width and a negative cell height; it throws nothing. *)
Lemma constructor_accepts_degenerate_sizes :
  constructor (Some degenerateOptions) = Returned (grid 0 (-3) true true)
  ∧ ¬ ∃ e, constructor (Some degenerateOptions) = Thrown e.
Proof. split; [reflexivity|]. intros [e H]. discriminate H. Qed.

(** C5, amended.  Construction never fails, whatever the options: the
    constructor validates nothing and returns an empty index.  What it
    stores is determined for every options object: a [size] other than zero
    becomes both cell dimensions, positive or negative; without a [size],
    or with a [size] of zero, the cell dimensions are [xSize] and [ySize]
    as given, zero and negative values included, and 1000 where omitted;
    omitted toggles are true.  In particular every positive pair of cell
    dimensions is stored as given. *)
Theorem constructor_never_fails :
  (∀ options, ∃ sh, constructor options = Returned sh
                    ∧ hash sh = ∅ ∧ elements sh = [] ∧ containers sh = [])
  ∧ (∀ s xs ys st dt, s ≠ 0 →
       constructor (Some (mkOptions (Some s) xs ys st dt))
       = Returned (grid s s (default true st) (default true dt)))
  ∧ (∀ xs ys st dt,
       constructor (Some (mkOptions None xs ys st dt))
       = Returned (grid (default 1000 xs) (default 1000 ys)
                        (default true st) (default true dt)))
  ∧ (∀ xs ys st dt,
       constructor (Some (mkOptions (Some 0) xs ys st dt))
       = Returned (grid (default 1000 xs) (default 1000 ys)
                        (default true st) (default true dt)))
  ∧ constructor None = Returned (grid 1000 1000 true true).
Proof.
  split_and!.
  - intros options. eexists. split; [reflexivity|]. done.
  - intros s xs ys st dt Hs. unfold constructor. simpl.
    replace (s =? 0) with false by (symmetry; by apply Z.eqb_neq).
    by destruct st, dt.
  - intros xs ys st dt. unfold constructor. simpl. by destruct xs, ys, st, dt.
  - intros xs ys st dt. unfold constructor. simpl. by destruct xs, ys, st, dt.
  - reflexivity.
Qed.

Lemma constructor_never_fails_witness :
  constructor (Some (mkOptions (Some (-64)) None (Some 7) None None))
  = Returned (grid (-64) (-64) true true)
  ∧ constructor (Some (mkOptions None (Some 100) (Some 50) None (Some false)))
    = Returned (grid 100 50 true false)
  ∧ constructor (Some (mkOptions None (Some 0) (Some (-3)) None None))
    = Returned (grid 0 (-3) true true)
  ∧ constructor (Some (mkOptions (Some 0) None (Some 50) None None))
    = Returned (grid 1000 50 true true).
Proof.
  split_and!.
  - apply (proj1 (proj2 constructor_never_fails) (-64) None (Some 7) None None); lia.
  - apply (proj1 (proj2 (proj2 constructor_never_fails))
             (Some 100) (Some 50) None (Some false)).
  - apply (proj1 (proj2 (proj2 constructor_never_fails))
             (Some 0) (Some (-3)) None None).
  - apply (proj1 (proj2 (proj2 (proj2 constructor_never_fails)))
             None (Some 50) None None).
Defined.

(** ** [queryCallback] *)

Lemma callbackEntry_rectangle (w : World) (R R' : AABB) (simple : bool)
    (cb : callback) (entry calls : list oid) :
  callbackEntry w R simple cb entry calls = callbackEntry w R' simple cb entry calls.
Proof.
  revert calls. induction entry as [|o rest IH]; intros calls; simpl; [done|].
  destruct simple.
  - destruct (cachedAABB (objs w o)); [|done].
    destruct (intersects _ _); [|apply IH]. destruct (cb o); [done|apply IH].
  - destruct (cb o); [done|apply IH].
Qed.

Lemma callbackCells_rectangle (w : World) (R R' : AABB) (simple : bool)
    (cb : callback) (ks : list key) (calls : list oid) :
  callbackCells w R simple cb ks calls = callbackCells w R' simple cb ks calls.
Proof.
  revert calls. induction ks as [|k ks IH]; intros calls; simpl; [done|].
  destruct (hash (this w) !! k); [|apply IH].
  rewrite (callbackEntry_rectangle w R R').
  destruct (callbackEntry w R' simple cb l calls) as [[[] ?]|]; simpl; [done|apply IH|done].
Qed.

(** C4, on the code.  With the simple test enabled, [queryCallback] looks at
    the query rectangle only to find the cells: two rectangles over the same
    cells give the same calls and the same result.  In the example, A at
    (10, 10, 20, 20) does not intersect the rectangle (50, 50, 10, 10) of
    the same cell, and still the callback is called on A and the query
    returns true. *)
Theorem queryCallback_ignores_rectangle :
  (∀ w R R' cb, getBounds (this w) R = getBounds (this w) R' →
                queryCallback R cb true w = queryCallback R' cb true w)
  ∧ cachedAABB (objs addedExample 0) = Some (mkAABB 10 10 20 20)
  ∧ intersects (mkAABB 10 10 20 20) (mkAABB 50 50 10 10) = false
  ∧ queryCallback (mkAABB 50 50 10 10) (fun _ => true) true addedExample
    = Returned (true, [0%nat]).
Proof.
  split_and!.
  - intros w R R' cb H. unfold queryCallback. rewrite H.
    apply callbackCells_rectangle.
  - reflexivity.
  - reflexivity.
  - by vm_compute.
Qed.

Lemma queryCallback_ignores_rectangle_witness :
  queryCallback (mkAABB 50 50 10 10) (fun _ => true) true addedExample
  = queryCallback (mkAABB 10 10 20 20) (fun _ => true) true addedExample.
Proof.
  apply (proj1 queryCallback_ignores_rectangle addedExample).
  vm_compute. reflexivity.
Defined.

(** ** [remove] of an object that was never added *)

Lemma removeFromHash_untouched (o : oid) (w : World) :
  spatial (objs w o) = None → removeFromHash o w = Returned w.
Proof. unfold removeFromHash. by intros ->. Qed.

(** C6, on the code.  [remove] of an object that is not in the list of
    elements and that no index ever touched deletes the last element of the
    list, because [indexOf] answers [-1] and [splice(-1, 1)] counts from the
    end; the buckets and the spatial states stay as they are, so the dropped
    element remains in its buckets.  In the example, removing the
    unregistered B after adding A leaves no element, with A still in the
    bucket of cell (0, 0). *)
Theorem remove_unregistered_drops_last_element :
  (∀ w o l a, elements (this w) = l ++ [a] → o ∉ elements (this w) →
              spatial (objs w o) = None →
              ∃ w', remove o w = Returned w'
                    ∧ elements (this w') = l
                    ∧ hash (this w') = hash (this w)
                    ∧ objs w' = objs w)
  ∧ elements (this addedExample) = [0%nat]
  ∧ snapshot (remove 1 addedExample)
    = Some ([((0, 0), [0%nat])], [], [],
            [([(0, 0)], true); ([], true); ([], true); ([], true); ([], true)]).
Proof.
  split_and!.
  - intros w o l a He Ho Hsp. unfold remove.
    rewrite removeFromHash_untouched by done. eexists. split; [reflexivity|].
    simpl. rewrite indexOf_absent by done. rewrite He.
    by rewrite splice1_minus_one.
  - reflexivity.
  - by vm_compute.
Qed.

Lemma remove_unregistered_drops_last_element_witness :
  ∃ w', remove 1 addedExample = Returned w'
        ∧ elements (this w') = []
        ∧ hash (this w') = hash (this addedExample)
        ∧ objs w' = objs addedExample.
Proof.
  apply (proj1 remove_unregistered_drops_last_element addedExample 1%nat [] 0%nat).
  - reflexivity.
  - vm_compute. intros H. inversion H as [|? ? ? H']. inversion H'.
  - reflexivity.
Defined.

(** ** [removeContainer] and the subscriptions *)

(** C9, on the code.  [addContainer] subscribes its two closures under
    ['childAdded'] and ['childRemoved']; [removeContainer] releases the first
    and calls [off] with the name ['removedFrom'] for the second, which
    therefore stays subscribed.  In the example the child-removed listener
    is still on container 0 after [removeContainer]; when object 5 is then
    added on its own and later leaves the container, that listener empties
    its bucket although the object is still tracked. *)
Theorem removeContainer_keeps_removed_listener :
  (listeners ∘ (fun w => conts w 0%nat))
     <$> [returned (exampleWorld true true)
            (run [OpAddContainer 0 false] (exampleWorld true true));
          returned (exampleWorld true true)
            (run [OpAddContainer 0 false; OpRemoveContainer 0] (exampleWorld true true))]
  = [[("childAdded", AddedFn 0); ("childRemoved", RemovedFn 0)];
     [("childRemoved", RemovedFn 0)]]
  ∧ snapshot (run [OpAddContainer 0 false; OpRemoveContainer 0; OpAdd 5 false]
                  (exampleWorld true true))
    = Some ([((0, 1), [5%nat]); ((2, 1), [])], [5%nat], [],
            [([], true); ([], true); ([], true); ([(0, 1)], true); ([], true)])
  ∧ snapshot (run [OpAddContainer 0 false; OpRemoveContainer 0; OpAdd 5 false;
                   OpRemoveChild 0 5] (exampleWorld true true))
    = Some ([((0, 1), []); ((2, 1), [])], [5%nat], [],
            [([], true); ([], true); ([], true); ([], true); ([], true)]).
Proof. split_and!; by vm_compute. Qed.

(** ** The bookkeeping invariant *)

Lemma settled_sizes (s s' : SpatialHash) (d : DisplayObject) :
  xSize s' = xSize s → ySize s' = ySize s → settled s d → settled s' d.
Proof.
  intros Hx Hy (box & sp & ? & ? & ? & ?). exists box, sp.
  unfold getBounds in *. rewrite Hx, Hy. done.
Qed.

Lemma settled_NoDup (s : SpatialHash) (d : DisplayObject) :
  settled s d → NoDup (hashesOf d).
Proof.
  intros (box & sp & _ & Hsp & _ & Hh). unfold hashesOf.
  rewrite (spatialOf_Some _ _ Hsp), Hh. apply NoDup_rangeKeys.
Qed.

Lemma indexedT_NoDup (T : list oid) (w : World) (o : oid) :
  indexedT T w → NoDup (hashesOf (objs w o)).
Proof.
  intros [_ Hs Hu]. destruct (decide (o ∈ T)) as [Ho|Ho].
  - eapply settled_NoDup, Hs, Ho.
  - rewrite (Hu o Ho). constructor.
Qed.

Lemma indexedT_ext (T T' : list oid) (w : World) :
  (∀ o, o ∈ T' ↔ o ∈ T) → indexedT T w → indexedT T' w.
Proof.
  intros HT [Hl Hs Hu]. split; [done| |].
  - intros o Ho. apply Hs, HT, Ho.
  - intros o Ho. apply Hu. by rewrite <- HT.
Qed.

Lemma linked_sameIndex (w w' : World) : sameIndex w w' → linked w → linked w'.
Proof.
  intros (Hh & _ & _ & Ho) [Hm Hnd]. split.
  - intros k a. rewrite Hh, Hm. unfold hashesOf, spatialOf.
    by rewrite (proj2 (Ho a)).
  - by rewrite Hh.
Qed.

Lemma indexedT_sameIndex (T : list oid) (w w' : World) :
  sameIndex w w' → indexedT T w → indexedT T w'.
Proof.
  intros Hs [Hl Hse Hu]. split.
  - by eapply linked_sameIndex.
  - intros o Ho. destruct Hs as (_ & Hx & Hy & Hobj).
    eapply settled_sizes; [done..|]. destruct (Hse o Ho) as (box & sp & ? & ? & ? & ?).
    exists box, sp. destruct (Hobj o) as [-> ->]. done.
  - intros o Ho. destruct Hs as (_ & _ & _ & Hobj).
    unfold hashesOf, spatialOf. rewrite (proj2 (Hobj o)). by apply Hu.
Qed.

Lemma sameIndex_refl (w : World) : sameIndex w w.
Proof. done. Qed.

Lemma sameIndex_trans (w1 w2 w3 : World) :
  sameIndex w1 w2 → sameIndex w2 w3 → sameIndex w1 w3.
Proof.
  intros (Hh & Hx & Hy & Ho) (Hh' & Hx' & Hy' & Ho').
  refine (conj _ (conj _ (conj _ _))); [congruence..|].
  intros a. destruct (Ho a), (Ho' a). split; congruence.
Qed.

(** Changing fields other than the cached box and the spatial state. *)
Lemma sameIndex_with_obj (o : oid) (f : DisplayObject -> DisplayObject) (w : World) :
  (∀ d, cachedAABB (f d) = cachedAABB d ∧ spatial (f d) = spatial d) →
  sameIndex w (with_obj o f w).
Proof.
  intros Hf. refine (conj _ (conj _ (conj _ _))); [done..|].
  intros a. rewrite objs_with_obj. destruct (decide (a = o)) as [->|]; [apply Hf|done].
Qed.

Lemma sameIndex_fold_with_obj (f : DisplayObject -> DisplayObject) (l : list oid)
    (w : World) :
  (∀ d, cachedAABB (f d) = cachedAABB d ∧ spatial (f d) = spatial d) →
  sameIndex w (fold_left (fun w o => with_obj o f w) l w).
Proof.
  intros Hf. revert w. induction l as [|o l IH]; intros w; simpl; [done|].
  eapply sameIndex_trans; [|apply IH]. by apply sameIndex_with_obj.
Qed.

(** *** [removeFromHash] *)

Lemma removeFromHash_linked (o : oid) (w : World) :
  linked w → NoDup (hashesOf (objs w o)) →
  ∃ w', removeFromHash o w = Returned w' ∧ linked w'.
Proof.
  intros [Hm Hnd] Hks. unfold removeFromHash.
  destruct (spatial (objs w o)) as [sp|] eqn:Hsp; [|by exists w].
  assert (Hh : hashesOf (objs w o) = hashes sp).
  { unfold hashesOf. by rewrite (spatialOf_Some _ _ Hsp). }
  destruct (purge_spec o (reverse (hashes sp)) (hash (this w))) as (h' & -> & Hnd' & Hin).
  - rewrite reverse_Permutation. by rewrite <- Hh.
  - intros k Hk. rewrite elem_of_reverse in Hk. apply Hm. by rewrite Hh.
  - done.
  - simpl. eexists. split; [done|]. split; [|done].
    intros k a. rewrite objs_with_obj.
    change (hash (this (with_obj _ _ (with_this (set_hash h') w)))) with h'.
    change (objs (with_this (set_hash h') w)) with (objs w).
    rewrite Hin, elem_of_reverse, Hm.
    destruct (decide (a = o)) as [->|Hne].
    + rewrite Hh. unfold hashesOf. simpl. split; [tauto|]. by inversion 1.
    + split; [tauto|]. intros H. split; [done|tauto].
Qed.

Lemma removeFromHash_indexed (T : list oid) (o : oid) (w : World) :
  indexedT T w →
  ∃ w', removeFromHash o w = Returned w'
        ∧ indexedT (filter (fun a => a ≠ o) T) w' ∧ sameConfig w w'.
Proof.
  intros Hix.
  destruct (removeFromHash_linked o w) as (w' & Hrm & Hl');
    [apply Hix|by eapply indexedT_NoDup|].
  exists w'. destruct (removeFromHash_frame _ _ _ Hrm) as (Hc & Ho & _ & _ & _ & Hsp).
  split; [done|]. split; [|done]. split; [done| |].
  - intros a [Hne Ha]%list_elem_of_filter. rewrite Ho by done.
    apply sameConfig_fields in Hc as (_ & Hx & Hy & _).
    eapply settled_sizes; [done..|]. by apply Hix.
  - intros a Ha. destruct (decide (a = o)) as [->|Hne].
    + unfold hashesOf, spatialOf. rewrite Hsp. by destruct (spatial (objs w o)).
    + rewrite Ho by done. apply Hix. intros HT. apply Ha.
      by apply list_elem_of_filter.
Qed.

(** *** [updateObject] *)

Lemma bounds_eq_of_unchanged (sp : Spatial) (b b' : SpatialHashBounds) :
  rangeChanged sp b = false → rangeChanged sp b' = false → b = b'.
Proof.
  intros (?&?&?&?)%rangeChanged_false (?&?&?&?)%rangeChanged_false.
  destruct b, b'. simpl in *. congruence.
Qed.

Lemma insertAndPush_linked (o : oid) (ks : list key) (w : World) (sp : Spatial) :
  linked w → spatial (objs w o) = Some sp → hashes sp = [] → NoDup ks →
  linked (fold_left (insertAndPush o) ks w).
Proof.
  intros [Hm Hnd] Hsp Hh Hks.
  destruct (fold_insertAndPush o ks w sp Hsp) as (Hhash & _ & Ho & _ & _ & Hsp').
  assert (Hno : ∀ k, ¬ inBucket (hash (this w)) k o).
  { intros k. rewrite Hm. unfold hashesOf. rewrite (spatialOf_Some _ _ Hsp), Hh.
    by inversion 1. }
  split.
  - intros k a. rewrite Hhash, inBucket_insertAll.
    destruct (decide (a = o)) as [->|Hne].
    + unfold hashesOf. rewrite (spatialOf_Some _ _ Hsp'). simpl. rewrite Hh. simpl.
      split; [|by right]. intros [H|[_ H]]; [by apply Hno in H|done].
    + rewrite Ho by done. rewrite Hm. split; [|by left]. intros [H|[? _]]; done.
  - rewrite Hhash. apply insertAll_NoDup; [done..|]. intros k _. apply Hno.
Qed.

Lemma linked_ext (w w' : World) :
  hash (this w') = hash (this w) →
  (∀ a, hashesOf (objs w' a) = hashesOf (objs w a)) → linked w → linked w'.
Proof.
  intros Hh Ho [Hm Hnd]. split; [|by rewrite Hh].
  intros k a. by rewrite Hh, Ho.
Qed.

Lemma updateObject_indexed (T : list oid) (o : oid) (w : World) :
  indexedT T w → o ∈ T ∨ spatialOf (objs w o) = emptySpatial →
  ∃ w', updateObject o w = Returned w' ∧ indexedT (o :: T) w'.
Proof.
  intros Hix Hmode.
  pose proof (indexedT_NoDup T w o Hix) as Hks.
  destruct Hix as [Hl Hs Hu].
  unfold updateObject. cbv zeta.
  set (box := computeAABB (objs w o)).
  set (w1 := with_obj o (fun d => set_spatial (Some (spatialOf d)) d)
               (with_obj o (set_cachedAABB (Some box)) w)).
  assert (H1 : objs w1 o = set_spatial (Some (spatialOf (objs w o)))
                             (set_cachedAABB (Some box) (objs w o))).
  { unfold w1. by rewrite !objs_with_obj_eq. }
  assert (H1' : ∀ a, a ≠ o → objs w1 a = objs w a).
  { intros a Ha. unfold w1. by rewrite !objs_with_obj_ne. }
  assert (Hs1 : spatialOf (objs w1 o) = spatialOf (objs w o)) by by rewrite H1.
  assert (Hh1 : ∀ a, hashesOf (objs w1 a) = hashesOf (objs w a)).
  { intros a. destruct (decide (a = o)) as [->|Hne]; [|by rewrite H1'].
    unfold hashesOf. by rewrite Hs1. }
  assert (Hl1 : linked w1) by by apply (linked_ext w).
  change (this w1) with (this w). rewrite Hs1.
  set (b := getBounds (this w) box).
  set (sp := spatialOf (objs w o)) in *.
  destruct (rangeChanged sp b) eqn:Hch.
  - assert (Hw2 : ∃ w2 sp2,
              (if bool_decide (hashes sp = []) then Returned w1
               else removeFromHash o w1) = Returned w2
              ∧ linked w2 ∧ sameConfig w w2
              ∧ (∀ a, a ≠ o → objs w2 a = objs w a)
              ∧ cachedAABB (objs w2 o) = Some box
              ∧ spatial (objs w2 o) = Some sp2 ∧ hashes sp2 = []).
    { case_bool_decide as Hnil.
      - exists w1, sp. split_and!; try done; by rewrite H1.
      - destruct (removeFromHash_linked o w1) as (w2 & Hrm & Hl2);
          [done|by rewrite Hh1|].
        destruct (removeFromHash_frame _ _ _ Hrm) as (Hc & Ho & _ & Ha & _ & Hsp).
        exists w2, (set_hashes [] sp). split_and!; try done.
        + intros a Hne. by rewrite Ho, H1'.
        + by rewrite Ha, H1.
        + by rewrite Hsp, H1. }
    destruct Hw2 as (w2 & sp2 & -> & Hl2 & Hc2 & Ho2 & Ha2 & Hsp2 & Hnil2). simpl.
    eexists. split; [reflexivity|].
    pose proof (insertAndPush_linked o (rangeKeys b) w2 sp2 Hl2 Hsp2 Hnil2
                  (NoDup_rangeKeys b)) as Hl3.
    destruct (fold_insertAndPush o (rangeKeys b) w2 sp2 Hsp2)
      as (_ & Hc3 & Ho3 & _ & Ha3 & Hsp3).
    set (w3 := fold_left (insertAndPush o) (rangeKeys b) w2) in *.
    assert (Hc : sameConfig w w3) by (eapply sameConfig_trans; eassumption).
    destruct (sameConfig_fields _ _ Hc) as (_ & Hx & Hy & _).
    split.
    + apply (linked_ext w3); [done| |done].
      intros a. rewrite objs_with_obj. by destruct (decide (a = o)) as [->|].
    + intros a [->|Ha]%elem_of_cons.
      * rewrite objs_with_obj_eq. exists box, (set_range b (spatialOf (objs w3 o))).
        simpl. rewrite Ha3, Ha2. split_and!; try done.
        -- replace (getBounds (this w3) box) with b.
           { apply rangeChanged_set_range. }
           unfold b, getBounds. by rewrite Hx, Hy.
        -- rewrite (spatialOf_Some _ _ Hsp3). simpl. rewrite Hnil2. simpl.
           unfold b, getBounds. by rewrite Hx, Hy.
      * destruct (decide (a = o)) as [->|Hne].
        -- rewrite objs_with_obj_eq. exists box, (set_range b (spatialOf (objs w3 o))).
           simpl. rewrite Ha3, Ha2. split_and!; try done.
           ++ replace (getBounds (this w3) box) with b.
              { apply rangeChanged_set_range. }
              unfold b, getBounds. by rewrite Hx, Hy.
           ++ rewrite (spatialOf_Some _ _ Hsp3). simpl. rewrite Hnil2. simpl.
              unfold b, getBounds. by rewrite Hx, Hy.
        -- rewrite objs_with_obj_ne, Ho3, Ho2 by done.
           eapply settled_sizes; [done..|]. by apply Hs.
    + intros a [Hne Ha]%not_elem_of_cons.
      rewrite objs_with_obj_ne, Ho3, Ho2 by done. by apply Hu.
  - eexists. split; [reflexivity|].
    destruct Hmode as [HoT|Hempty].
    2:{ fold sp in Hempty. rewrite Hempty in Hch. done. }
    split; [done| |].
    + intros a Ha.
      assert (HaT : a ∈ T). { apply elem_of_cons in Ha as [->|]; done. }
      destruct (decide (a = o)) as [->|Hne]; [|rewrite H1' by done; by apply Hs].
      destruct (Hs o HoT) as (box0 & sp0 & Hbox0 & Hsp0 & Hch0 & Hk0).
      assert (sp = sp0) as <- by (unfold sp; by apply spatialOf_Some).
      exists box, sp. rewrite H1. split_and!; try done.
      rewrite Hk0. f_equal. by eapply bounds_eq_of_unchanged.
    + intros a [Hne Ha]%not_elem_of_cons. rewrite H1' by done. by apply Hu.
Qed.

(** ** The invariant under the operations *)

Lemma elem_of_trackedList (w : World) (a : oid) :
  a ∈ trackedList w ↔
  a ∈ elements (this w)
  ∨ ∃ c, c ∈ containers (this w) ∧ a ∈ children (conts w c).
Proof.
  unfold trackedList, trackedChildren. rewrite elem_of_app, list_elem_of_bind.
  split; (intros [?|(c & ? & ?)]; [by left|right; by exists c]).
Qed.

Lemma sameTracking_trackedList (w w' : World) :
  sameTracking w w' → trackedList w' = trackedList w.
Proof.
  intros (Hc & He & Hk). unfold trackedList, trackedChildren. by rewrite Hc, He, Hk.
Qed.

Lemma sameConfig_sameTracking (w w' : World) : sameConfig w w' → sameTracking w w'.
Proof. intros (Hc & _ & _ & _ & _ & He & Hk)%sameConfig_fields. done. Qed.

Lemma owned_sameTracking (w w' : World) : sameTracking w w' → owned w → owned w'.
Proof.
  intros (Hc & He & Hk) [H1 H2 H3 H4 H5].
  split; rewrite ?Hc, ?He, ?Hk; done.
Qed.

Lemma subscribed_sameTracking (w w' : World) :
  sameTracking w w' → subscribed w → subscribed w'.
Proof.
  intros (Hc & He & Hk) [H1 H2 H3].
  split; rewrite ?Hc, ?He, ?Hk; done.
Qed.

(** An operation that keeps what the bookkeeping reads and what is tracked
    keeps the invariant. *)
Lemma Inv_same (w w' : World) :
  sameIndex w w' → sameTracking w w' → Inv w → Inv w'.
Proof.
  intros Hi Ht [Hx Hy Hix Ho Hs].
  destruct Hi as (Hh & Hx' & Hy' & Hobj).
  split.
  - by rewrite Hx'.
  - by rewrite Hy'.
  - rewrite (sameTracking_trackedList _ _ Ht).
    by apply (indexedT_sameIndex _ w).
  - by apply (owned_sameTracking w).
  - by apply (subscribed_sameTracking w).
Qed.

(** Replacing the index of a world that is otherwise kept. *)
Lemma Inv_indexed (T : list oid) (w w' : World) :
  (∀ a, a ∈ trackedList w' ↔ a ∈ T) →
  xSize (this w') = xSize (this w) → ySize (this w') = ySize (this w) →
  indexedT T w' → owned w' → subscribed w' → Inv w → Inv w'.
Proof.
  intros HT Hx Hy Hix Ho Hs [Hx0 Hy0 _ _ _]. split; [by rewrite Hx|by rewrite Hy| |done..].
  by apply (indexedT_ext T).
Qed.

Lemma indexedT_reset (T : list oid) (o : oid) (f : DisplayObject -> DisplayObject)
    (w : World) :
  indexedT T w → o ∉ T → (∀ d, hashesOf (f d) = []) → indexedT T (with_obj o f w).
Proof.
  intros [Hl Hs Hu] Ho Hf. split.
  - apply (linked_ext w); [done| |done].
    intros a. rewrite objs_with_obj. destruct (decide (a = o)) as [->|]; [|done].
    by rewrite Hf, Hu.
  - intros a Ha. rewrite objs_with_obj_ne; [by apply Hs|]. by intros ->.
  - intros a Ha. rewrite objs_with_obj. destruct (decide (a = o)) as [->|]; [done|].
    by apply Hu.
Qed.

(** *** [add] *)

Lemma add_unfold (o : oid) (s : bool) (w : World) :
  ∃ w0, sameConfig w w0 ∧ sameIndex (with_obj o (set_spatial (Some emptySpatial)) w) w0
        ∧ spatialOf (objs w0 o) = emptySpatial
        ∧ add o s w
          = let! w1 := updateObject o w0 in
            Returned (with_this (fun sh => set_elements (elements sh ++ [o]) sh) w1).
Proof.
  unfold add. cbv zeta. eexists. split_and!; [| | |reflexivity].
  - repeat case_match; done.
  - repeat case_match;
      repeat (eapply sameIndex_trans; [|by apply sameIndex_with_obj]);
      apply sameIndex_refl.
  - repeat case_match; rewrite ?objs_with_obj_eq; done.
Qed.

Lemma add_Inv (o : oid) (s : bool) (w : World) :
  Inv w → o ∉ trackedList w → ∃ w', add o s w = Returned w' ∧ Inv w'.
Proof.
  intros HInv Ho.
  destruct (add_unfold o s w) as (w0 & Hc0 & Hi0 & Hsp0 & ->).
  assert (Hix0 : indexedT (trackedList w) w0).
  { apply (indexedT_sameIndex _ _ _ Hi0).
    apply indexedT_reset; [apply HInv|done|done]. }
  destruct (updateObject_indexed _ o w0 Hix0) as (w1 & Hup & Hix1); [by right|].
  rewrite Hup. simpl. eexists. split; [reflexivity|].
  apply updateObject_frame in Hup as (Hc1 & _).
  assert (Hc : sameConfig w w1) by (eapply sameConfig_trans; eassumption).
  destruct (sameConfig_fields _ _ Hc) as (Hconts & Hx & Hy & _ & _ & He & Hk).
  set (w' := with_this _ w1).
  assert (Hconts' : conts w' = conts w) by done.
  assert (He' : elements (this w') = elements (this w) ++ [o]).
  { unfold w'. simpl. by rewrite He. }
  assert (Hk' : containers (this w') = containers (this w)) by done.
  rewrite elem_of_trackedList in Ho.
  apply (Inv_indexed (o :: trackedList w) w); [|done|done| | | |done].
  - intros a. rewrite elem_of_cons, !elem_of_trackedList, Hconts', He', Hk', elem_of_app.
    rewrite list_elem_of_singleton. tauto.
  - by apply (indexedT_sameIndex _ w1).
  - destruct (inv_owned _ HInv) as [H1 H2 H3 H4 H5].
    split; rewrite ?Hconts', ?He', ?Hk'; try done.
    + apply NoDup_app. split_and!; [done| |apply NoDup_singleton].
      intros a Ha Hb%list_elem_of_singleton. subst a. tauto.
    + intros c a Hc' Ha. rewrite not_elem_of_app. split; [by eapply H4|].
      intros Hb%list_elem_of_singleton. subst a. apply Ho. right. by exists c.
  - destruct (inv_subscribed _ HInv) as [H1 H2 H3].
    split; rewrite ?Hconts', ?Hk'; done.
Qed.

(** *** [remove] *)

Lemma remove_Inv (o : oid) (w : World) :
  Inv w → o ∈ elements (this w) → ∃ w', remove o w = Returned w' ∧ Inv w'.
Proof.
  intros HInv Ho. unfold remove.
  set (w0 := with_this _ w).
  assert (Hix0 : indexedT (trackedList w) w0).
  { by apply (indexedT_sameIndex _ w), HInv. }
  destruct (removeFromHash_indexed _ o w0 Hix0) as (w' & -> & Hix & Hc).
  exists w'. split; [done|].
  destruct (sameConfig_fields _ _ Hc) as (Hconts & Hx & Hy & _ & _ & He & Hk).
  change (conts w0) with (conts w) in Hconts.
  change (containers (this w0)) with (containers (this w)) in Hk.
  change (elements (this w0))
    with (splice1 (indexOf o (elements (this w))) (elements (this w))) in He.
  destruct (inv_owned _ HInv) as [H1 H2 H3 H4 H5].
  assert (HE : ∀ a, a ∈ elements (this w') ↔ a ∈ elements (this w) ∧ a ≠ o).
  { intros a. rewrite He. by apply splice_indexOf_elem. }
  apply (Inv_indexed (filter (fun a => a ≠ o) (trackedList w)) w); [|done|done|done| | |done].
  - intros a. rewrite list_elem_of_filter, !elem_of_trackedList, Hconts, Hk, HE.
    split; [|tauto]. intros [[? ?]|(c & Hc' & Ha)]; [tauto|].
    split; [|right; by exists c]. intros ->. by eapply H4.
  - split; rewrite ?Hconts, ?Hk; try done.
    + rewrite He. by apply splice_indexOf_NoDup.
    + intros c a Hc' Ha. rewrite HE. intros [? _]. by eapply H4.
  - destruct (inv_subscribed _ HInv) as [S1 S2 S3].
    split; rewrite ?Hconts, ?Hk; done.
Qed.

(** *** [updateObjects] *)

Lemma Inv_sameConfig (w w' : World) :
  Inv w → sameConfig w w' → indexedT (trackedList w) w' → Inv w'.
Proof.
  intros HInv Hc Hix.
  pose proof (sameConfig_sameTracking _ _ Hc) as Ht.
  destruct (sameConfig_fields _ _ Hc) as (_ & Hx & Hy & _).
  apply (Inv_indexed (trackedList w) w); [|done|done|done| | |done].
  - intros a. by rewrite (sameTracking_trackedList _ _ Ht).
  - apply (owned_sameTracking w); [done|apply HInv].
  - apply (subscribed_sameTracking w); [done|apply HInv].
Qed.

Lemma forEach_indexed {A : Type} (f : A -> World -> outcome World) (T : list oid)
    (l : list A) (w : World) :
  (∀ a t, a ∈ l → indexedT T t → sameConfig w t →
          ∃ t', f a t = Returned t' ∧ indexedT T t' ∧ sameConfig t t') →
  indexedT T w →
  ∃ w', forEach f l w = Returned w' ∧ indexedT T w' ∧ sameConfig w w'.
Proof.
  intros Hf Hix.
  destruct (forEach_returns (fun t => indexedT T t ∧ sameConfig w t) f l w)
    as (w' & H & Hix' & Hc'); [|done|by exists w'].
  intros a t Ha [Hixt Hct]. destruct (Hf a t Ha Hixt Hct) as (t' & Ht' & ? & ?).
  exists t'. split; [done|]. split; [done|]. eapply sameConfig_trans; eassumption.
Qed.

Lemma updateObject_tracked (T : list oid) (o : oid) (w : World) :
  indexedT T w → o ∈ T →
  ∃ w', updateObject o w = Returned w' ∧ indexedT T w' ∧ sameConfig w w'.
Proof.
  intros Hix Ho. destruct (updateObject_indexed T o w Hix) as (w' & Hup & Hix'); [by left|].
  exists w'. split; [done|]. split.
  - apply (indexedT_ext (o :: T)); [|done]. intros a. rewrite elem_of_cons.
    split; [by right|]. by intros [->|].
  - by apply updateObject_frame in Hup as (? & _).
Qed.

Lemma refreshIfDirty_tracked (T : list oid) (o : oid) (w : World) :
  indexedT T w → o ∈ T →
  ∃ w', refreshIfDirty o w = Returned w' ∧ indexedT T w' ∧ sameConfig w w'.
Proof.
  intros Hix Ho. unfold refreshIfDirty. destruct (dirty (objs w o)); [|by exists w].
  destruct (updateObject_tracked T o w Hix Ho) as (w' & -> & Hix' & Hc). simpl.
  eexists. split; [reflexivity|]. split.
  - apply (indexedT_sameIndex _ w'); [|done]. by apply sameIndex_with_obj.
  - eapply sameConfig_trans; [exact Hc|done].
Qed.

Lemma updateIf_tracked (g : DisplayObject -> bool) (T : list oid) (o : oid) (w : World) :
  indexedT T w → o ∈ T →
  ∃ w', updateIf g o w = Returned w' ∧ indexedT T w' ∧ sameConfig w w'.
Proof.
  intros Hix Ho. unfold updateIf. destruct (g (objs w o)); [|by exists w].
  by apply updateObject_tracked.
Qed.

Lemma updateObjects_indexed (w : World) :
  indexedT (trackedList w) w →
  ∃ w', updateObjects w = Returned w'
        ∧ indexedT (trackedList w) w' ∧ sameConfig w w'.
Proof.
  intros Hix. rewrite updateObjects_unfold.
  assert (HE : ∀ a, a ∈ elements (this w) → a ∈ trackedList w).
  { intros a Ha. apply elem_of_trackedList. by left. }
  assert (HC : ∀ c a, c ∈ containers (this w) → a ∈ children (conts w c) →
                      a ∈ trackedList w).
  { intros c a Hc Ha. apply elem_of_trackedList. right. by exists c. }
  destruct (dirtyTest (this w)).
  - destruct (forEach_indexed refreshIfDirty (trackedList w) (elements (this w)) w)
      as (w1 & -> & Hix1 & Hc1); [|done|].
    { intros a t Ha Ht _. apply refreshIfDirty_tracked; [done|by apply HE]. }
    simpl. destruct (sameConfig_fields _ _ Hc1) as (Hconts1 & _ & _ & _ & _ & _ & Hk1).
    destruct (forEach_indexed dirtyContainer (trackedList w) (containers (this w1)) w1)
      as (w' & -> & Hix' & Hc'); [|done|].
    { intros c t Hc Ht Hct. unfold dirtyContainer.
      destruct (negb _); [|by exists t].
      apply forEach_indexed; [|done]. intros a u Ha Hu _.
      apply refreshIfDirty_tracked; [done|]. apply (HC c); [by rewrite <- Hk1|].
      destruct (sameConfig_fields _ _ Hct) as (Hconts & _). by rewrite <- Hconts1, <- Hconts. }
    exists w'. split; [done|]. split; [done|]. eapply sameConfig_trans; eassumption.
  - destruct (forEach_indexed (updateIf (fun d => negb (staticObject d)))
                (trackedList w) (elements (this w)) w)
      as (w1 & -> & Hix1 & Hc1); [|done|].
    { intros a t Ha Ht _. apply updateIf_tracked; [done|by apply HE]. }
    simpl. destruct (sameConfig_fields _ _ Hc1) as (Hconts1 & _ & _ & _ & _ & _ & Hk1).
    destruct (forEach_indexed scanContainer (trackedList w) (containers (this w1)) w1)
      as (w' & -> & Hix' & Hc'); [|done|].
    { intros c t Hc Ht Hct. unfold scanContainer.
      destruct (negb _); [|by exists t].
      apply forEach_indexed; [|done]. intros a u Ha Hu _.
      apply updateObject_tracked; [done|]. apply (HC c); [by rewrite <- Hk1|].
      destruct (sameConfig_fields _ _ Hct) as (Hconts & _). by rewrite <- Hconts1, <- Hconts. }
    exists w'. split; [done|]. split; [done|]. eapply sameConfig_trans; eassumption.
Qed.

Lemma updateObjects_Inv (w : World) :
  Inv w → ∃ w', updateObjects w = Returned w' ∧ Inv w' ∧ sameConfig w w'.
Proof.
  intros HInv. destruct (updateObjects_indexed w) as (w' & H & Hix & Hc); [apply HInv|].
  exists w'. split; [done|]. split; [|done]. by apply (Inv_sameConfig w).
Qed.

(** *** The queries *)

Lemma testEntry_spec (w : World) (R : AABB) (entry results : list oid) :
  (∀ a, a ∈ entry → is_Some (cachedAABB (objs w a))) →
  ∃ r, testEntry w R entry results = Returned r
       ∧ ∀ a, a ∈ r ↔
              a ∈ results
              ∨ (a ∈ entry ∧ ∃ box, cachedAABB (objs w a) = Some box
                                    ∧ intersects box R = true).
Proof.
  revert results. induction entry as [|o rest IH]; intros results Hbox; simpl.
  - exists results. split; [done|]. intros a. split; [by left|].
    intros [?|[H _]]; [done|by inversion H].
  - destruct (Hbox o) as [box Hb]; [by left|]. rewrite Hb.
    destruct (IH (if intersects box R then results ++ [o] else results))
      as (r & -> & Hr).
    { intros a Ha. apply Hbox. by right. }
    exists r. split; [done|]. intros a. rewrite Hr, elem_of_cons.
    destruct (intersects box R) eqn:Hi.
    + rewrite elem_of_app, list_elem_of_singleton. split.
      * intros [[?| ->]|[? ?]]; [by left|right|right; tauto].
        split; [by left|]. by exists box.
      * intros [?|[[->|?] ?]]; [left; by left|left; by right|right; tauto].
    + split; [intros [?|[? ?]]; [by left|right; tauto]|].
      intros [?|[[->|?] (box' & Hb' & Hi')]]; [by left| |right; split; [done|by exists box']].
      rewrite Hb in Hb'. injection Hb' as <-. congruence.
Qed.

Lemma queryCells_spec (w : World) (R : AABB) (simple : bool) (ks : list key)
    (acc : list oid * Z) :
  (∀ k a, inBucket (hash (this w)) k a → is_Some (cachedAABB (objs w a))) →
  ∃ r n, forEach (queryCell w R simple) ks acc = Returned (r, n)
         ∧ ∀ a, a ∈ r ↔ a ∈ acc.1 ∨ collected w R simple ks a.
Proof.
  intros Hbox. revert acc. induction ks as [|k ks IH]; intros [r0 n0]; simpl.
  - exists r0, n0. split; [done|]. intros a. split; [by left|].
    intros [?|(k & Hk & _)]; [done|by inversion Hk].
  - assert (Hcell : ∃ r1 n1, queryCell w R simple k (r0, n0) = Returned (r1, n1)
              ∧ ∀ a, a ∈ r1 ↔ a ∈ r0 ∨ collected w R simple [k] a).
    { unfold queryCell, collected. destruct (hash (this w) !! k) as [entry|] eqn:Hk.
      - destruct simple; simpl.
        + destruct (testEntry_spec w R entry r0) as (r1 & -> & Hr1).
          { intros a Ha. apply (Hbox k). by exists entry. }
          simpl. exists r1, (n0 + 1). split; [done|]. intros a. rewrite Hr1.
          split.
          * intros [?|[Ha Hb]]; [by left|right]. exists k.
            split; [by left|]. split; [by exists entry|done].
          * intros [?|(k' & Hk'%list_elem_of_singleton & (l & Hl & Ha) & Hb)]; [by left|].
            subst k'. rewrite Hk in Hl. injection Hl as <-. right. split; [done|].
            by apply Hb.
        + exists (r0 ++ entry), (n0 + 1). split; [done|]. intros a.
          rewrite elem_of_app. split.
          * intros [?|Ha]; [by left|right]. exists k.
            split; [by left|]. split; [by exists entry|done].
          * intros [?|(k' & Hk'%list_elem_of_singleton & (l & Hl & Ha) & _)]; [by left|].
            subst k'. rewrite Hk in Hl. injection Hl as <-. by right.
      - exists r0, n0. split; [done|]. intros a. split; [by left|].
        intros [?|(k' & Hk'%list_elem_of_singleton & (l & Hl & _) & _)]; [done|].
        subst k'. by rewrite Hk in Hl. }
    destruct Hcell as (r1 & n1 & -> & Hr1). simpl.
    destruct (IH (r1, n1)) as (r & n & -> & Hr). exists r, n. split; [done|].
    intros a. rewrite Hr. simpl. rewrite Hr1. unfold collected.
    split.
    + intros [[?|(k' & Hk'%list_elem_of_singleton & ?)]|(k' & Hk' & ?)]; [by left|right..].
      * exists k'. subst k'. split; [by left|done].
      * exists k'. split; [by right|done].
    + intros [?|(k' & [->|Hk']%elem_of_cons & ?)]; [left; by left| |].
      * left. right. exists k. split; [by left|done].
      * right. exists k'. done.
Qed.

Lemma query_spec (R : AABB) (simple : bool) (w : World) :
  (∀ k a, inBucket (hash (this w)) k a → is_Some (cachedAABB (objs w a))) →
  ∃ r n, query R simple w = Returned (r, with_this (set_lastBuckets n) w)
         ∧ ∀ a, a ∈ r ↔ collected w R simple (rangeKeys (getBounds (this w) R)) a.
Proof.
  intros Hbox. unfold query.
  destruct (queryCells_spec w R simple (rangeKeys (getBounds (this w) R)) ([], 0) Hbox)
    as (r & n & -> & Hr).
  exists r, n. split; [done|]. intros a. rewrite Hr. simpl.
  split; [|by right]. intros [H|?]; [by inversion H|done].
Qed.

Lemma testEntryAll_testEntry (w : World) (R : AABB) (entry r : list oid) :
  testEntryAll w R entry (r, r)
  = let! r' := testEntry w R entry r in Returned (r', r').
Proof.
  revert r. induction entry as [|o rest IH]; intros r; simpl; [done|].
  destruct (cachedAABB (objs w o)) as [box|]; [|done].
  destruct (intersects box R); simpl; apply IH.
Qed.

Lemma queryCellsAll_queryCells (w : World) (R : AABB) (simple : bool) (ks : list key)
    (r : list oid) (n : Z) :
  forEach (queryCellAll w R simple) ks (r, r, n)
  = let! q := forEach (queryCell w R simple) ks (r, n) in Returned (q.1, q.1, q.2).
Proof.
  revert r n. induction ks as [|k ks IH]; intros r n; simpl; [done|].
  unfold queryCellAll at 1, queryCell at 1. simpl.
  destruct (hash (this w) !! k) as [entry|]; [|apply IH].
  destruct simple; simpl.
  - rewrite testEntryAll_testEntry. destruct (testEntry w R entry r); simpl; [apply IH|done].
  - apply IH.
Qed.

(** [queryCallbackAll] returns what [query] returns, and calls the callback
    exactly on the results, in order. *)
Lemma queryCallbackAll_query (R : AABB) (simple : bool) (cb : callback) (w : World) :
  queryCallbackAll R simple cb w
  = let! q := query R simple w in Returned (q.1, q.1, q.2).
Proof.
  unfold queryCallbackAll, query. rewrite queryCellsAll_queryCells.
  by destruct (forEach _ _ _).
Qed.

(** *** [cull] *)

Lemma fold_set_visible (b : bool) (l : list oid) (w : World) (a : oid) :
  visible (objs (fold_left (fun w o => with_obj o (set_visible b) w) l w) a)
  = if decide (a ∈ l) then b else visible (objs w a).
Proof.
  revert w. induction l as [|o l IH]; intros w; simpl; [done|].
  rewrite IH. destruct (decide (a ∈ l)) as [Hl|Hl].
  - rewrite decide_True; [done|by right].
  - rewrite objs_with_obj. destruct (decide (a = o)) as [->|Hne].
    + rewrite decide_True; [done|by left].
    + rewrite decide_False; [done|]. by intros [?|?]%elem_of_cons.
Qed.

Lemma hideChildren_sameIndex (cs : list cid) (w : World) :
  sameIndex w (fold_left (fun w c =>
                 fold_left (fun w o => with_obj o (set_visible false) w)
                           (children (conts w c)) w) cs w).
Proof.
  revert w. induction cs as [|c cs IH]; intros w; simpl; [apply sameIndex_refl|].
  eapply sameIndex_trans; [|apply IH]. by apply sameIndex_fold_with_obj.
Qed.

Lemma invisible_sameIndex (w : World) : sameIndex w (invisible w).
Proof.
  unfold invisible. cbv zeta.
  eapply sameIndex_trans; [|apply hideChildren_sameIndex].
  by apply sameIndex_fold_with_obj.
Qed.

Lemma hideChildren_visible (cs : list cid) (w : World) (a : oid) :
  visible (objs (fold_left (fun w c =>
                   fold_left (fun w o => with_obj o (set_visible false) w)
                             (children (conts w c)) w) cs w) a)
  = if decide (Exists (fun c => a ∈ children (conts w c)) cs) then false
    else visible (objs w a).
Proof.
  revert w. induction cs as [|c cs IH]; intros w; cbn [fold_left].
  - rewrite decide_False; [done|]. by inversion 1.
  - destruct (fold_with_obj_frame (set_visible false) (children (conts w c)) w)
      as (_ & Hc & _).
    rewrite IH. cbv zeta in Hc. rewrite Hc, fold_set_visible.
    destruct (decide (Exists (fun c0 => a ∈ children (conts w c0)) cs)) as [He|Hn].
    + rewrite decide_True; [done|]. by right.
    + destruct (decide (a ∈ children (conts w c))) as [Ha|Ha].
      * rewrite decide_True; [done|]. by left.
      * rewrite decide_False; [done|]. by inversion 1.
Qed.

Lemma invisible_tracked (w : World) (a : oid) :
  a ∈ trackedList w → visible (objs (invisible w) a) = false.
Proof.
  intros Ha%elem_of_trackedList. unfold invisible. cbv zeta.
  destruct (fold_with_obj_frame (set_visible false) (elements (this w)) w)
    as (Ht & Hc & _). cbv zeta in Ht, Hc.
  rewrite hideChildren_visible, Ht, Hc, fold_set_visible.
  destruct (decide (Exists (fun c => a ∈ children (conts w c)) (containers (this w))))
    as [|Hn]; [done|].
  destruct Ha as [Ha|Ha].
  - by rewrite decide_True.
  - exfalso. apply Hn, Exists_exists. done.
Qed.

Lemma indexedT_boxes (T : list oid) (w : World) (k : key) (a : oid) :
  indexedT T w → inBucket (hash (this w)) k a → is_Some (cachedAABB (objs w a)).
Proof.
  intros [[Hm _] Hs Hu] Hin. apply Hm in Hin.
  destruct (decide (a ∈ T)) as [Ha|Ha].
  - destruct (Hs a Ha) as (box & _ & -> & _). eauto.
  - rewrite (Hu a Ha) in Hin. by inversion Hin.
Qed.

(** What a cull pass does to a world that satisfies the invariant. *)
Lemma cull_spec (R : AABB) (skip : bool) (cb : option callback) (w : World) :
  Inv w →
  ∃ n w1 w', (if skip then Returned w else updateObjects w) = Returned w1
    ∧ cull R skip cb w = Returned (n, w')
    ∧ Inv w1 ∧ sameConfig w w1 ∧ sameIndex w1 w' ∧ sameTracking w1 w'
    ∧ ∀ a, a ∈ trackedList w →
           (visible (objs w' a) = true
            ↔ collected w1 R (simpleTest (this w))
                (rangeKeys (getBounds (this w) R)) a).
Proof.
  intros HInv.
  assert (H1 : ∃ w1, (if skip then Returned w else updateObjects w) = Returned w1
                     ∧ Inv w1 ∧ sameConfig w w1).
  { destruct skip; [by exists w|]. by apply updateObjects_Inv. }
  destruct H1 as (w1 & H1 & HInv1 & Hc1).
  pose proof (invisible_sameIndex w1) as Hi2.
  destruct (invisible_frame w1) as (Ht2 & Hconts2 & _).
  set (w2 := invisible w1) in *.
  assert (Hix2 : indexedT (trackedList w1) w2).
  { apply (indexedT_sameIndex _ w1); [done|apply HInv1]. }
  destruct (query_spec R (simpleTest (this w2)) w2) as (r & n & Hq & Hr).
  { intros k a. by apply (indexedT_boxes _ _ _ _ Hix2). }
  set (w3 := with_this (set_lastBuckets n) w2) in *.
  set (w' := fold_left (fun w o => with_obj o (set_visible true) w) r w3).
  exists (lastBuckets (this w')), w1, w'.
  split; [done|]. split.
  { unfold cull. rewrite H1. simpl. fold w2. destruct cb as [f|].
    - rewrite queryCallbackAll_query, Hq. done.
    - rewrite Hq. done. }
  split; [done|]. split; [done|].
  assert (Hi' : sameIndex w1 w').
  { eapply sameIndex_trans; [exact Hi2|].
    eapply sameIndex_trans; [|by apply sameIndex_fold_with_obj].
    done. }
  destruct (fold_with_obj_frame (set_visible true) r w3) as (Ht' & Hconts' & _).
  fold w' in Ht', Hconts'.
  split; [done|]. split.
  { unfold sameTracking. rewrite Hconts', Ht'. simpl. rewrite Ht2, Hconts2. done. }
  intros a Ha. unfold w'. rewrite fold_set_visible.
  destruct (sameConfig_fields _ _ Hc1) as (_ & Hx & Hy & Hst & _).
  assert (Hvis : visible (objs w3 a) = false).
  { apply invisible_tracked. by rewrite (sameConfig_trackedList _ _ Hc1). }
  assert (Hcol : ∀ ks, collected w2 R (simpleTest (this w2)) ks a
                       ↔ collected w1 R (simpleTest (this w)) ks a).
  { intros ks. unfold collected. rewrite Ht2, Hst.
    destruct Hi2 as (_ & _ & _ & Hobj). by rewrite (proj1 (Hobj a)). }
  assert (Hkey : a ∈ r ↔ collected w1 R (simpleTest (this w))
                           (rangeKeys (getBounds (this w) R)) a).
  { rewrite Hr, Hcol, Ht2.
    replace (getBounds (this w1) R) with (getBounds (this w) R); [done|].
    unfold getBounds. by rewrite Hx, Hy. }
  destruct (decide (a ∈ r)) as [Hin|Hin].
  - split; [intros _; by apply Hkey|done].
  - rewrite Hvis. split; [done|]. intros Hcl. exfalso. by apply Hin, Hkey.
Qed.

Lemma cull_Inv (R : AABB) (skip : bool) (cb : option callback) (w : World) :
  Inv w → ∃ r, cull R skip cb w = Returned r ∧ Inv r.2.
Proof.
  intros HInv.
  destruct (cull_spec R skip cb w HInv) as (n & w1 & w' & _ & -> & HInv1 & _ & Hi & Ht & _).
  exists (n, w'). split; [done|]. simpl. by apply (Inv_same w1).
Qed.

(** *** [addContainer] *)

Lemma resetAndUpdate_indexed (T : list oid) (o : oid) (w : World) :
  indexedT T w → o ∉ T →
  ∃ w', resetAndUpdate o w = Returned w' ∧ indexedT (o :: T) w' ∧ sameConfig w w'.
Proof.
  intros Hix Ho. unfold resetAndUpdate.
  set (w0 := with_obj o (set_spatial (Some emptySpatial)) w).
  assert (Hix0 : indexedT T w0) by by apply indexedT_reset.
  destruct (updateObject_indexed T o w0 Hix0) as (w' & Hup & Hix').
  { right. unfold w0. by rewrite objs_with_obj_eq. }
  exists w'. split; [done|]. split; [done|].
  apply updateObject_frame in Hup as (Hc & _).
  eapply sameConfig_trans; [|exact Hc]. done.
Qed.

Lemma addLoop_indexed (l T : list oid) (w : World) :
  indexedT T w → NoDup l → (∀ a, a ∈ l → a ∉ T) →
  ∃ w', forEach resetAndUpdate l w = Returned w'
        ∧ indexedT (l ++ T) w' ∧ sameConfig w w'.
Proof.
  revert T w. induction l as [|o l IH]; intros T w Hix Hnd Hdis; simpl.
  - by exists w.
  - apply NoDup_cons in Hnd as [Ho Hnd].
    destruct (resetAndUpdate_indexed T o w Hix) as (w1 & -> & Hix1 & Hc1).
    { apply Hdis. by left. }
    simpl. destruct (IH (o :: T) w1 Hix1 Hnd) as (w' & -> & Hix' & Hc').
    { intros a Ha [->|HT]%elem_of_cons; [done|]. revert HT. apply Hdis. by right. }
    exists w'. split; [done|]. split.
    + apply (indexedT_ext (l ++ o :: T)); [|done]. intros a.
      rewrite !elem_of_app, !elem_of_cons, elem_of_app. tauto.
    + eapply sameConfig_trans; eassumption.
Qed.

Lemma conts_with_this (f : SpatialHash -> SpatialHash) (w : World) :
  conts (with_this f w) = conts w.
Proof. done. Qed.

Lemma filter_none {A : Type} (P : A -> Prop) `{∀ x, Decision (P x)} (l : list A) :
  (∀ x, x ∈ l → ¬ P x) → filter P l = [].
Proof.
  induction l as [|x l IH]; intros Hl; [done|].
  rewrite filter_cons_False; [|apply Hl; by left].
  apply IH. intros y Hy. apply Hl. by right.
Qed.

Lemma addContainer_Inv (c : cid) (s : bool) (w : World) :
  Inv w → c ∉ containers (this w) → NoDup (children (conts w c)) →
  (∀ a, a ∈ children (conts w c) → a ∉ trackedList w) →
  ∃ w', addContainer c s w = Returned w' ∧ Inv w'.
Proof.
  intros HInv Hc Hnd Hdis. unfold addContainer. cbv zeta.
  set (w0 := mkWorld (objs w) (conts w) (this w) (S (closures w))).
  assert (Hix0 : indexedT (trackedList w) w0).
  { apply (indexedT_sameIndex _ w); [done|apply HInv]. }
  change (children (conts w0 c)) with (children (conts w c)).
  destruct (addLoop_indexed (children (conts w c)) (trackedList w) w0 Hix0 Hnd Hdis)
    as (wl & Hl & Hixl & Hcl).
  change (forEach _ (children (conts w c)) w0)
    with (forEach resetAndUpdate (children (conts w c)) w0).
  rewrite Hl. cbn [obind]. eexists. split; [reflexivity|].
  destruct (sameConfig_fields _ _ Hcl) as (Hconts & Hx & Hy & _ & _ & He & Hk).
  change (conts w0) with (conts w) in Hconts.
  set (added := AddedFn (closures w)). set (removed := RemovedFn (closures w)).
  set (K' := mkContainer (children (conts w c))
               (Some (mkCull s (Some added) (Some removed)))
               ((listeners (conts w c) ++ [("childAdded", added)])
                ++ [("childRemoved", removed)])).
  match goal with |- Inv ?W => set (w' := W) end.
  assert (HK : conts w' c = K').
  { unfold w'. destruct s;
      repeat (rewrite conts_with_cont_eq || rewrite conts_with_this);
      rewrite Hconts; done. }
  assert (HK' : ∀ c', c' ≠ c → conts w' c' = conts w c').
  { intros c' Hne. unfold w'. destruct s;
      repeat ((rewrite conts_with_cont_ne by done) || rewrite conts_with_this);
      by rewrite Hconts. }
  assert (Hchildren : ∀ c', children (conts w' c') = children (conts w c')).
  { intros c'. destruct (decide (c' = c)) as [->|Hne]; [by rewrite HK|by rewrite HK']. }
  assert (Hi : sameIndex wl w').
  { unfold w'. by destruct s. }
  assert (He' : elements (this w') = elements (this w)).
  { unfold w'. destruct s; simpl; by rewrite He. }
  assert (Hk' : containers (this w') = containers (this w) ++ [c]).
  { unfold w'. destruct s; simpl; by rewrite Hk. }
  assert (Hx' : xSize (this w') = xSize (this w)).
  { unfold w'. destruct s; simpl; by rewrite Hx. }
  assert (Hy' : ySize (this w') = ySize (this w)).
  { unfold w'. destruct s; simpl; by rewrite Hy. }
  clearbody w'.
  destruct (inv_owned _ HInv) as [O1 O2 O3 O4 O5].
  destruct (inv_subscribed _ HInv) as [S1 S2 S3].
  apply (Inv_indexed (children (conts w c) ++ trackedList w) w); [|done|done| | | |done].
  - intros a. rewrite elem_of_app, !elem_of_trackedList, He', Hk'.
    setoid_rewrite elem_of_app. setoid_rewrite list_elem_of_singleton.
    setoid_rewrite Hchildren. split.
    + intros [?|(c' & [?| ->] & ?)]; [right; by left|right; right; by exists c'|by left].
    + intros [?|[?|(c' & ? & ?)]]; [right; exists c; tauto|by left|right; exists c'; tauto].
  - by apply (indexedT_sameIndex _ wl).
  - split; rewrite ?He', ?Hk'; try done.
    + apply NoDup_app. split_and!; [done| |apply NoDup_singleton].
      intros c' Hc' Hb%list_elem_of_singleton. by subst c'.
    + intros c' [Hc'| ->%list_elem_of_singleton]%elem_of_app;
        rewrite Hchildren; [by apply O3|done].
    + intros c' a [Hc'| ->%list_elem_of_singleton]%elem_of_app;
        rewrite Hchildren; [by apply O4|].
      intros Ha He0. apply (Hdis a Ha), elem_of_trackedList. by left.
    + intros c1 c2 a [H1| ->%list_elem_of_singleton]%elem_of_app
        [H2| ->%list_elem_of_singleton]%elem_of_app; rewrite !Hchildren; intros Ha1 Ha2.
      * by apply (O5 c1 c2 a).
      * exfalso. apply (Hdis a Ha2), elem_of_trackedList. right. by exists c1.
      * exfalso. apply (Hdis a Ha1), elem_of_trackedList. right. by exists c2.
      * done.
  - split.
    + intros c' p. destruct (decide (c' = c)) as [->|Hne]; [|rewrite HK' by done; apply S1].
      rewrite HK. unfold K'. simpl. rewrite !elem_of_app, !list_elem_of_singleton.
      intros [[Hp| ->]| ->]; [by apply (S1 c)|left; by eexists|right; by eexists].
    + intros c'. rewrite Hk'. intros [Hc'| ->%list_elem_of_singleton]%elem_of_app.
      * rewrite HK'; [by apply S2|]. by intros ->.
      * rewrite HK. exists (closures w). split; [done|]. split.
        -- unfold addedEntries, K'. simpl. rewrite !filter_app.
           fold (addedEntries (conts w c)). rewrite (S3 c Hc). done.
        -- exists (closures w). unfold K'. simpl. rewrite elem_of_app. right. by left.
    + intros c'. rewrite Hk', not_elem_of_app. intros [Hc' Hne%not_elem_of_cons].
      rewrite HK'; [by apply S3|]. tauto.
Qed.

(** *** [removeContainer] *)

Lemma purgeLoop_indexed (l T : list oid) (w : World) :
  indexedT T w →
  ∃ w', forEach removeFromHash l w = Returned w'
        ∧ indexedT (filter (fun a => a ∉ l) T) w' ∧ sameConfig w w'.
Proof.
  revert T w. induction l as [|o l IH]; intros T w Hix; simpl.
  - exists w. split; [done|]. split; [|done].
    apply (indexedT_ext T); [|done]. intros a. rewrite list_elem_of_filter.
    split; [tauto|]. intros Ha. split; [by inversion 1|done].
  - destruct (removeFromHash_indexed T o w Hix) as (w1 & -> & Hix1 & Hc1). simpl.
    destruct (IH _ w1 Hix1) as (w' & -> & Hix' & Hc').
    exists w'. split; [done|]. split.
    + eapply indexedT_ext; [|exact Hix']. intros a.
      rewrite !list_elem_of_filter, not_elem_of_cons. tauto.
    + eapply sameConfig_trans; eassumption.
Qed.

Lemma removeContainer_Inv (c : cid) (w : World) :
  Inv w → c ∈ containers (this w) → ∃ w', removeContainer c w = Returned w' ∧ Inv w'.
Proof.
  intros HInv Hc. unfold removeContainer. cbv zeta.
  set (cs' := splice1 (indexOf c (containers (this w))) (containers (this w))).
  set (w0 := with_this _ w).
  assert (Hix0 : indexedT (trackedList w) w0).
  { apply (indexedT_sameIndex _ w); [done|apply HInv]. }
  change (children (conts w0 c)) with (children (conts w c)).
  destruct (purgeLoop_indexed (children (conts w c)) (trackedList w) w0 Hix0)
    as (wl & -> & Hixl & Hcl).
  cbn [obind]. eexists. split; [reflexivity|].
  destruct (sameConfig_fields _ _ Hcl) as (Hconts & Hx & Hy & _ & _ & He & Hk).
  change (conts w0) with (conts w) in Hconts.
  change (elements (this w0)) with (elements (this w)) in He.
  change (containers (this w0)) with cs' in Hk.
  change (xSize (this w0)) with (xSize (this w)) in Hx.
  change (ySize (this w0)) with (ySize (this w)) in Hy.
  destruct (inv_owned _ HInv) as [O1 O2 O3 O4 O5].
  destruct (inv_subscribed _ HInv) as [S1 S2 S3].
  destruct (S2 c Hc) as (n & Hadded & Hentries & _).
  match goal with |- Inv ?W => set (w' := W) end.
  assert (HK : children (conts w' c) = children (conts w c)
               ∧ (∀ p, p ∈ listeners (conts w' c) → p ∈ listeners (conts w c))
               ∧ addedEntries (conts w' c) = []).
  { unfold w'. repeat (rewrite conts_with_cont_eq || rewrite conts_with_this).
    rewrite Hconts. simpl. split; [done|]. split.
    - intros p [_ [_ Hp]%list_elem_of_filter]%list_elem_of_filter. done.
    - unfold addedEntries. simpl. apply filter_none.
      intros p [_ [Hp Hin]%list_elem_of_filter]%list_elem_of_filter Hname.
      assert (Hp' : p ∈ addedEntries (conts w c)).
      { unfold addedEntries. by apply list_elem_of_filter. }
      rewrite Hentries in Hp'. apply list_elem_of_singleton in Hp'. subst p.
      rewrite Hadded in Hp. unfold listens in Hp. simpl in Hp.
      by rewrite !bool_decide_eq_true_2 in Hp. }
  destruct HK as (HK1 & HK2 & HK3).
  assert (HK' : ∀ c', c' ≠ c → conts w' c' = conts w c').
  { intros c' Hne. unfold w'.
    repeat ((rewrite conts_with_cont_ne by done) || rewrite conts_with_this).
    by rewrite Hconts. }
  assert (Hchildren : ∀ c', children (conts w' c') = children (conts w c')).
  { intros c'. destruct (decide (c' = c)) as [->|Hne]; [done|by rewrite HK']. }
  assert (Hi : sameIndex wl w') by done.
  assert (He' : elements (this w') = elements (this w)) by (unfold w'; simpl; done).
  assert (Hk' : containers (this w') = cs') by (unfold w'; simpl; done).
  assert (Hx' : xSize (this w') = xSize (this w)) by (unfold w'; simpl; done).
  assert (Hy' : ySize (this w') = ySize (this w)) by (unfold w'; simpl; done).
  clearbody w'.
  assert (Hcs' : ∀ c', c' ∈ cs' ↔ c' ∈ containers (this w) ∧ c' ≠ c).
  { intros c'. by apply splice_indexOf_elem. }
  apply (Inv_indexed (filter (fun a => a ∉ children (conts w c)) (trackedList w)) w);
    [|done|done| | | |done].
  - intros a. rewrite list_elem_of_filter, !elem_of_trackedList, He', Hk'.
    setoid_rewrite Hchildren. setoid_rewrite Hcs'. split.
    + intros [Ha|(c' & [Hc' Hne] & Ha)].
      * split; [|by left]. intros Hch. by apply (O4 c a).
      * split; [|right; by exists c']. intros Hch. apply Hne. by apply (O5 c' c a).
    + intros [Hn [?|(c' & Hc' & Ha)]]; [by left|right]. exists c'.
      split; [|done]. split; [done|]. by intros ->.
  - by apply (indexedT_sameIndex _ wl).
  - split; rewrite ?He', ?Hk'; try done.
    + by apply splice_indexOf_NoDup.
    + intros c' [Hc' _]%Hcs'. rewrite Hchildren. by apply O3.
    + intros c' a [Hc' _]%Hcs'. rewrite Hchildren. by apply O4.
    + intros c1 c2 a [H1 _]%Hcs' [H2 _]%Hcs'. rewrite !Hchildren. by apply O5.
  - split.
    + intros c' p. destruct (decide (c' = c)) as [->|Hne]; [|rewrite HK' by done; apply S1].
      intros Hp%HK2. by apply (S1 c).
    + intros c'. rewrite Hk'. intros [Hc' Hne]%Hcs'. rewrite HK' by done. by apply S2.
    + intros c'. rewrite Hk', Hcs'. intros Hn.
      destruct (decide (c' = c)) as [->|Hne]; [done|].
      rewrite HK' by done. apply S3. tauto.
Qed.

(** *** Children joining and leaving a container *)

Lemma emit_unfold (ev : string) (c : cid) (o : oid) (w : World) :
  emit ev c o w = forEach (deliver ev o) (listeners (conts w c)) w.
Proof. reflexivity. Qed.

Lemma deliver_added_none (o : oid) (L : list (string * listener)) (w : World) :
  filter (fun p => p.1 = "childAdded") L = [] →
  forEach (deliver "childAdded" o) L w = Returned w.
Proof.
  induction L as [|p L IH]; intros HL; [done|]. cbn [forEach].
  unfold deliver at 1. destruct (decide (p.1 = "childAdded")) as [Hp|Hp].
  - by rewrite filter_cons_True in HL.
  - rewrite filter_cons_False in HL by done. cbn [obind]. by apply IH.
Qed.

Lemma added_entry_listener (p : string * listener) :
  isAddedEntry p ∨ isRemovedEntry p → p.1 = "childAdded" → ∃ n, p.2 = AddedFn n.
Proof. intros [[n ->]|[n ->]] Hp; [by exists n|done]. Qed.

Lemma removed_entry_listener (p : string * listener) :
  isAddedEntry p ∨ isRemovedEntry p → p.1 = "childRemoved" → ∃ n, p.2 = RemovedFn n.
Proof. intros [[n ->]|[n ->]] Hp; [done|by exists n]. Qed.

Lemma deliver_added_one (o : oid) (L : list (string * listener)) (T : list oid)
    (w : World) (e : string * listener) :
  (∀ p, p ∈ L → isAddedEntry p ∨ isRemovedEntry p) →
  filter (fun p => p.1 = "childAdded") L = [e] →
  indexedT T w → o ∉ T →
  ∃ w', forEach (deliver "childAdded" o) L w = Returned w'
        ∧ indexedT (o :: T) w' ∧ sameConfig w w'.
Proof.
  induction L as [|p L IH]; intros Hshape HL Hix Ho; [done|]. cbn [forEach].
  unfold deliver at 1. destruct (decide (p.1 = "childAdded")) as [Hp|Hp].
  - rewrite filter_cons_True in HL by done. injection HL as _ HL.
    destruct (added_entry_listener p) as [n Hn]; [apply Hshape; by left|done|].
    rewrite Hn. cbn [callListener].
    destruct (resetAndUpdate_indexed T o w Hix Ho) as (w1 & H1 & Hix1 & Hc1).
    unfold resetAndUpdate in H1. rewrite H1. cbn [obind].
    rewrite deliver_added_none by done. by exists w1.
  - rewrite filter_cons_False in HL by done. cbn [obind]. apply IH; [|done..].
    intros q Hq. apply Hshape. by right.
Qed.

Lemma filter_ne_absent (o : oid) (T : list oid) (a : oid) :
  o ∉ T → a ∈ filter (fun b => b ≠ o) T ↔ a ∈ T.
Proof.
  intros Ho. rewrite list_elem_of_filter. split; [tauto|].
  intros Ha. split; [|done]. by intros ->.
Qed.

Lemma deliver_removed_untracked (o : oid) (L : list (string * listener))
    (T : list oid) (w : World) :
  (∀ p, p ∈ L → isAddedEntry p ∨ isRemovedEntry p) →
  indexedT T w → o ∉ T →
  ∃ w', forEach (deliver "childRemoved" o) L w = Returned w'
        ∧ indexedT T w' ∧ sameConfig w w'.
Proof.
  intros Hshape Hix Ho. apply forEach_indexed; [|done].
  intros p t Hp Ht _. unfold deliver.
  destruct (decide (p.1 = "childRemoved")) as [Hn|Hn]; [|by exists t].
  destruct (removed_entry_listener p) as [n ->]; [by apply Hshape|done|].
  cbn [callListener].
  destruct (removeFromHash_indexed T o t Ht) as (t' & -> & Hix' & Hc').
  exists t'. split; [done|]. split; [|done].
  apply (indexedT_ext (filter (fun b => b ≠ o) T)); [|done].
  intros a. symmetry. by apply filter_ne_absent.
Qed.

Lemma deliver_removed_tracked (o : oid) (L : list (string * listener))
    (T : list oid) (w : World) :
  (∀ p, p ∈ L → isAddedEntry p ∨ isRemovedEntry p) →
  (∃ m, ("childRemoved", RemovedFn m) ∈ L) →
  indexedT T w →
  ∃ w', forEach (deliver "childRemoved" o) L w = Returned w'
        ∧ indexedT (filter (fun b => b ≠ o) T) w' ∧ sameConfig w w'.
Proof.
  revert w. induction L as [|p L IH]; intros w Hshape [m Hm] Hix.
  { by inversion Hm. }
  cbn [forEach]. unfold deliver at 1.
  destruct (decide (p.1 = "childRemoved")) as [Hn|Hn].
  - destruct (removed_entry_listener p) as [n ->]; [apply Hshape; by left|done|].
    cbn [callListener].
    destruct (removeFromHash_indexed T o w Hix) as (w1 & -> & Hix1 & Hc1).
    cbn [obind].
    destruct (deliver_removed_untracked o L (filter (fun b => b ≠ o) T) w1)
      as (w' & -> & Hix' & Hc'); [|done| |].
    + intros q Hq. apply Hshape. by right.
    + rewrite list_elem_of_filter. tauto.
    + exists w'. split; [done|]. split; [done|]. eapply sameConfig_trans; eassumption.
  - cbn [obind]. apply IH; [|exists m|done].
    + intros q Hq. apply Hshape. by right.
    + apply elem_of_cons in Hm as [Hm|Hm]; [|done]. by subst p.
Qed.

(** Changing the children of a container keeps its subscriptions. *)
Lemma subscribed_children (c : cid) (f : Container -> Container) (w w' : World) :
  (∀ k, listeners (f k) = listeners k ∧ cull_ (f k) = cull_ k) →
  conts w' = conts (with_cont c f w) →
  containers (this w') = containers (this w) →
  subscribed w → subscribed w'.
Proof.
  intros Hf Hconts Hk [S1 S2 S3].
  assert (HL : ∀ c', listeners (conts w' c') = listeners (conts w c')
                     ∧ cull_ (conts w' c') = cull_ (conts w c')).
  { intros c'. rewrite Hconts. destruct (decide (c' = c)) as [->|Hne].
    - rewrite conts_with_cont_eq. apply Hf.
    - by rewrite conts_with_cont_ne. }
  split; rewrite ?Hk; unfold addedEntries in *.
  - intros c' p. rewrite (proj1 (HL c')). apply S1.
  - intros c' Hc'. rewrite (proj1 (HL c')), (proj2 (HL c')). by apply S2.
  - intros c' Hc'. rewrite (proj1 (HL c')). by apply S3.
Qed.

Lemma addChild_Inv (c : cid) (o : oid) (w : World) :
  Inv w → (c ∈ containers (this w) → o ∉ trackedList w) →
  ∃ w', addChild c o w = Returned w' ∧ Inv w'.
Proof.
  intros HInv Hguard. unfold addChild. rewrite emit_unfold.
  set (f := fun k : Container => set_children (children k ++ [o]) k).
  set (w0 := with_cont c f w).
  assert (HL : listeners (conts w0 c) = listeners (conts w c)).
  { unfold w0. by rewrite conts_with_cont_eq. }
  assert (Hix0 : indexedT (trackedList w) w0).
  { apply (indexedT_sameIndex _ w); [done|apply HInv]. }
  destruct (inv_owned _ HInv) as [O1 O2 O3 O4 O5].
  destruct (inv_subscribed _ HInv) as [S1 S2 S3].
  assert (Hch : ∀ c', children (conts w0 c')
                      = if decide (c' = c) then children (conts w c) ++ [o]
                        else children (conts w c')).
  { intros c'. unfold w0. destruct (decide (c' = c)) as [->|Hne].
    - by rewrite conts_with_cont_eq.
    - by rewrite conts_with_cont_ne. }
  rewrite HL. destruct (decide (c ∈ containers (this w))) as [Hc|Hc].
  - destruct (S2 c Hc) as (n & _ & Hentries & _).
    specialize (Hguard Hc).
    destruct (deliver_added_one o (listeners (conts w c)) (trackedList w) w0 _
                (S1 c) Hentries Hix0 Hguard) as (w' & -> & Hix' & Hc').
    exists w'. split; [done|].
    destruct (sameConfig_fields _ _ Hc') as (Hconts & Hx & Hy & _ & _ & He & Hk).
    rewrite elem_of_trackedList in Hguard.
    apply (Inv_indexed (o :: trackedList w) w); [|done|done|done| | |done].
    + intros a. rewrite elem_of_cons, !elem_of_trackedList, He, Hk, Hconts.
      setoid_rewrite Hch. split.
      * intros [?|(c' & Hc0 & Ha)]; [right; by left|].
        destruct (decide (c' = c)) as [->|Hne]; [|right; right; by exists c'].
        apply elem_of_app in Ha as [Ha|Ha%list_elem_of_singleton]; [|by left].
        right. right. by exists c.
      * intros [->|[?|(c' & Hc0 & Ha)]]; [right|by left|right].
        -- exists c. rewrite decide_True by done. split; [done|].
           apply elem_of_app. right. by left.
        -- exists c'. split; [done|]. destruct (decide (c' = c)) as [->|]; [|done].
           apply elem_of_app. by left.
    + split; rewrite ?He, ?Hk, ?Hconts; try done.
      * intros c' Hc0. rewrite Hch. destruct (decide (c' = c)) as [->|]; [|by apply O3].
        apply NoDup_app. split_and!; [by apply O3| |apply NoDup_singleton].
        intros a Ha Hb%list_elem_of_singleton. subst a. apply Hguard. right. by exists c.
      * intros c' a Hc0. rewrite Hch. destruct (decide (c' = c)) as [->|]; [|by apply O4].
        intros [Ha|Ha%list_elem_of_singleton]%elem_of_app; [by apply (O4 c)|].
        subst a. tauto.
      * intros c1 c2 a H1 H2. rewrite !Hch. intros Ha1 Ha2.
        destruct (decide (c1 = c)) as [->|N1], (decide (c2 = c)) as [->|N2]; [done| | |].
        -- apply elem_of_app in Ha1 as [Ha1|Ha1%list_elem_of_singleton].
           ++ by apply (O5 c c2 a).
           ++ subst a. exfalso. apply Hguard. right. by exists c2.
        -- apply elem_of_app in Ha2 as [Ha2|Ha2%list_elem_of_singleton].
           ++ by apply (O5 c1 c a).
           ++ subst a. exfalso. apply Hguard. right. by exists c1.
        -- by apply (O5 c1 c2 a).
    + apply (subscribed_children c f w); [done|done|done|]. by split.
  - rewrite deliver_added_none by (by apply S3).
    exists w0. split; [done|].
    apply (Inv_indexed (trackedList w) w); [|done|done|done| | |done].
    + intros a. rewrite !elem_of_trackedList. setoid_rewrite Hch.
      split; (intros [?|(c' & Hc0 & Ha)]; [by left|right; exists c'; split; [done|]]).
      * destruct (decide (c' = c)) as [->|]; done.
      * destruct (decide (c' = c)) as [->|]; done.
    + split; try done.
      * intros c' Hc0. rewrite Hch. destruct (decide (c' = c)) as [->|]; [done|by apply O3].
      * intros c' a Hc0. rewrite Hch.
        destruct (decide (c' = c)) as [->|]; [done|by apply O4].
      * intros c1 c2 a H1 H2. rewrite !Hch.
        destruct (decide (c1 = c)) as [->|N1], (decide (c2 = c)) as [->|N2];
          [done..|by apply O5].
    + apply (subscribed_children c f w); [done|done|done|]. by split.
Qed.

Lemma indexOf_nonneg_elem (o : nat) (l : list nat) : ¬ indexOf o l < 0 → o ∈ l.
Proof.
  intros H. destruct (decide (o ∈ l)) as [|Hn]; [done|].
  rewrite (indexOf_absent o l Hn) in H. lia.
Qed.

Lemma removeChild_Inv (c : cid) (o : oid) (w : World) :
  Inv w → c ∈ containers (this w) ∨ o ∉ trackedList w →
  ∃ w', removeChild c o w = Returned w' ∧ Inv w'.
Proof.
  intros HInv Hguard. unfold removeChild.
  destruct (indexOf o (children (conts w c)) <? 0) eqn:Hidx; [by exists w|].
  apply Z.ltb_ge in Hidx.
  assert (Ho : o ∈ children (conts w c)) by (apply indexOf_nonneg_elem; lia).
  rewrite emit_unfold.
  set (f := fun k : Container =>
              set_children (splice1 (indexOf o (children k)) (children k)) k).
  set (w0 := with_cont c f w).
  assert (HL : listeners (conts w0 c) = listeners (conts w c)).
  { unfold w0. by rewrite conts_with_cont_eq. }
  assert (Hix0 : indexedT (trackedList w) w0).
  { apply (indexedT_sameIndex _ w); [done|apply HInv]. }
  destruct (inv_owned _ HInv) as [O1 O2 O3 O4 O5].
  destruct (inv_subscribed _ HInv) as [S1 S2 S3].
  assert (Hch : ∀ c', children (conts w0 c')
                      = if decide (c' = c)
                        then splice1 (indexOf o (children (conts w c))) (children (conts w c))
                        else children (conts w c')).
  { intros c'. unfold w0. destruct (decide (c' = c)) as [->|Hne].
    - by rewrite conts_with_cont_eq.
    - by rewrite conts_with_cont_ne. }
  rewrite HL. destruct (decide (c ∈ containers (this w))) as [Hc|Hc].
  - destruct (S2 c Hc) as (n & _ & _ & Hentry).
    destruct (deliver_removed_tracked o (listeners (conts w c)) (trackedList w) w0
                (S1 c) Hentry Hix0) as (w' & -> & Hix' & Hc').
    exists w'. split; [done|].
    destruct (sameConfig_fields _ _ Hc') as (Hconts & Hx & Hy & _ & _ & He & Hk).
    assert (Hsp : ∀ a, a ∈ splice1 (indexOf o (children (conts w c))) (children (conts w c))
                       ↔ a ∈ children (conts w c) ∧ a ≠ o).
    { intros a. apply splice_indexOf_elem; [done|by apply O3]. }
    apply (Inv_indexed (filter (fun b => b ≠ o) (trackedList w)) w);
      [|done|done|done| | |done].
    + intros a. rewrite list_elem_of_filter, !elem_of_trackedList, He, Hk, Hconts.
      setoid_rewrite Hch. split.
      * intros [Ha|(c' & Hc0 & Ha)].
        -- split; [|by left]. intros ->. by apply (O4 c o).
        -- destruct (decide (c' = c)) as [->|Hne].
           ++ apply Hsp in Ha as [Ha Hne]. split; [done|right; by exists c].
           ++ split; [|right; by exists c']. intros ->. apply Hne. by apply (O5 c' c o).
      * intros [Hne [?|(c' & Hc0 & Ha)]]; [by left|right]. exists c'. split; [done|].
        destruct (decide (c' = c)) as [->|]; [|done]. by apply Hsp.
    + split; rewrite ?He, ?Hk, ?Hconts; try done.
      * intros c' Hc0. rewrite Hch. destruct (decide (c' = c)) as [->|]; [|by apply O3].
        apply splice_indexOf_NoDup. by apply O3.
      * intros c' a Hc0. rewrite Hch. destruct (decide (c' = c)) as [->|]; [|by apply O4].
        intros [Ha _]%Hsp. by apply (O4 c).
      * intros c1 c2 a H1 H2. rewrite !Hch. intros Ha1 Ha2.
        destruct (decide (c1 = c)) as [->|N1], (decide (c2 = c)) as [->|N2]; [done| | |].
        -- apply Hsp in Ha1 as [Ha1 _]. by apply (O5 c c2 a).
        -- apply Hsp in Ha2 as [Ha2 _]. by apply (O5 c1 c a).
        -- by apply (O5 c1 c2 a).
    + apply (subscribed_children c f w); [done|done|done|]. by split.
  - destruct Hguard as [?|Hguard]; [done|].
    destruct (deliver_removed_untracked o (listeners (conts w c)) (trackedList w) w0
                (S1 c) Hix0 Hguard) as (w' & -> & Hix' & Hc').
    exists w'. split; [done|].
    destruct (sameConfig_fields _ _ Hc') as (Hconts & Hx & Hy & _ & _ & He & Hk).
    apply (Inv_indexed (trackedList w) w); [|done|done|done| | |done].
    + intros a. rewrite !elem_of_trackedList, He, Hk, Hconts. setoid_rewrite Hch.
      split; (intros [?|(c' & Hc0 & Ha)]; [by left|right; exists c'; split; [done|]]).
      * destruct (decide (c' = c)) as [->|]; done.
      * destruct (decide (c' = c)) as [->|]; done.
    + split; rewrite ?He, ?Hk, ?Hconts; try done.
      * intros c' Hc0. rewrite Hch. destruct (decide (c' = c)) as [->|]; [done|by apply O3].
      * intros c' a Hc0. rewrite Hch.
        destruct (decide (c' = c)) as [->|]; [done|by apply O4].
      * intros c1 c2 a H1 H2. rewrite !Hch.
        destruct (decide (c1 = c)) as [->|N1], (decide (c2 = c)) as [->|N2];
          [done..|by apply O5].
    + apply (subscribed_children c f w); [done|done|done|]. by split.
Qed.

(** *** Call sequences *)

Lemma exec_Inv (op : Op) (w : World) :
  Inv w → guard op w = true → ∃ w', exec op w = Returned w' ∧ Inv w'.
Proof.
  intros HInv Hg. destruct op as [o s|o|c s|c| |R skip cb|o t|o b|c o|c o]; simpl in *.
  - apply add_Inv; [done|]. by apply bool_decide_eq_true in Hg.
  - apply remove_Inv; [done|]. by apply bool_decide_eq_true in Hg.
  - apply andb_true_iff in Hg as [[H1 H2]%andb_true_iff H3].
    apply bool_decide_eq_true in H1, H2, H3.
    apply addContainer_Inv; [done..|]. by apply Forall_forall.
  - apply removeContainer_Inv; [done|]. by apply bool_decide_eq_true in Hg.
  - destruct (updateObjects_Inv w HInv) as (w' & ? & ? & _). by exists w'.
  - destruct (cull_Inv R skip cb w HInv) as (r & -> & Hr). by exists r.2.
  - eexists. split; [reflexivity|]. apply (Inv_same w); [|done|done].
    by apply sameIndex_with_obj.
  - eexists. split; [reflexivity|]. apply (Inv_same w); [|done|done].
    by apply sameIndex_with_obj.
  - apply addChild_Inv; [done|]. by apply bool_decide_eq_true in Hg.
  - apply removeChild_Inv; [done|]. by apply bool_decide_eq_true in Hg.
Qed.

Lemma run_Inv (ops : list Op) (w : World) :
  Inv w → legal ops w = true → ∃ w', run ops w = Returned w' ∧ Inv w'.
Proof.
  revert w. induction ops as [|op ops IH]; intros w HInv Hl; simpl in *.
  - by exists w.
  - apply andb_true_iff in Hl as [Hg Hl].
    destruct (exec_Inv op w HInv Hg) as (w1 & H1 & HInv1).
    unfold run. cbn [forEach]. rewrite H1 in *. cbn [obind]. by apply IH.
Qed.

Lemma pristine_Inv (w : World) : pristine w → Inv w.
Proof.
  intros [Hx Hy Hh He Hk Ho Hl]. split; [done|done| | |].
  - split.
    + split.
      * intros k a. rewrite Ho, Hh. unfold inBucket. rewrite lookup_empty.
        split; [by intros (l & ? & _)|by inversion 1].
      * intros k l. by rewrite Hh, lookup_empty.
    + unfold trackedList, trackedChildren. rewrite He, Hk. by inversion 1.
    + intros o _. apply Ho.
  - split; rewrite ?He, ?Hk; try constructor; try (by inversion 1);
      intros c c' a Hc; by inversion Hc.
  - split; rewrite ?Hk; unfold addedEntries.
    + intros c p. rewrite Hl. by inversion 1.
    + intros c Hc. by inversion Hc.
    + intros c _. by rewrite Hl.
Qed.

(** ** Bidirectional consistency *)

Lemma occurrences_absent (o : nat) (l : list nat) : o ∉ l → occurrences o l = 0%nat.
Proof.
  intros Ho. unfold occurrences. rewrite filter_none; [done|].
  intros a Ha ->. done.
Qed.

Lemma occurrences_NoDup (o : nat) (l : list nat) :
  NoDup l → o ∈ l → occurrences o l = 1%nat.
Proof.
  induction 1 as [|a l Ha Hnd IH]; [by inversion 1|].
  unfold occurrences in *. intros [->|Ho]%elem_of_cons.
  - rewrite filter_cons_True by done. simpl. f_equal. by apply occurrences_absent.
  - rewrite filter_cons_False; [by apply IH|]. by intros ->.
Qed.

Lemma Inv_consistent (w : World) : Inv w → consistent w.
Proof.
  intros HInv. destruct (inv_indexed _ HInv) as [[Hm Hnd] _ _]. split.
  - intros o k _ Hk. apply Hm in Hk as (l & Hl & Ho). exists l. split; [done|].
    apply occurrences_NoDup; [by eapply Hnd|done].
  - intros k l o Hl Ho. apply Hm. by exists l.
Qed.

Lemma pristine_newWorld (ts : oid -> Transform) (cs : cid -> list oid) (xs ys : Z)
    (simple dirtyT : bool) :
  0 < xs → 0 < ys → pristine (newWorld ts cs (grid xs ys simple dirtyT)).
Proof. intros Hx Hy. by split. Qed.

(** C3, as stated, fails: registering the same object twice is a sequence of
    register operations, and after it the object is listed twice in the
    bucket of a key of its spatial state. *)
Lemma double_add_breaks_consistency :
  elements (this doubleAddExample) = [0%nat; 0%nat]
  ∧ hashesOf (objs doubleAddExample 0) = [(0, 0)]
  ∧ hash (this doubleAddExample) !! (0, 0) = Some [0%nat; 0%nat]
  ∧ ¬ consistent doubleAddExample.
Proof.
  split_and!; [by vm_compute..|].
  intros [H _]. destruct (H 0%nat (0, 0)) as (l & Hl & Hocc).
  - vm_compute. by left.
  - vm_compute. by left.
  - vm_compute in Hl. injection Hl as <-. vm_compute in Hocc. discriminate Hocc.
Qed.

(** C3, amended.  From a freshly constructed index with positive cell
    sizes, every call sequence that obeys the discipline of [guard] ([add]
    and [addContainer] take what is not tracked, [remove] and
    [removeContainer] what is registered, an object joins a registered
    container only if it is not tracked, and an object leaves a container
    only if the container is registered or the object is not tracked) runs
    to the end
    without an exception, and the world it reaches is consistent: a tracked
    object appears exactly once in the bucket of every key of its spatial
    state, and every entry of every bucket has that bucket's key in its
    spatial state.  The sequences range over [add], [remove],
    [addContainer], [removeContainer], [updateObjects], [cull], changes of
    transforms and [dirty] flags, and children joining and leaving
    containers. *)
Theorem legal_runs_are_consistent (w : World) (ops : list Op) :
  pristine w → legal ops w = true →
  ∃ w', run ops w = Returned w' ∧ consistent w'.
Proof.
  intros Hp Hl. destruct (run_Inv ops w (pristine_Inv w Hp) Hl) as (w' & Hr & HInv).
  exists w'. split; [done|]. by apply Inv_consistent.
Qed.

Lemma legal_runs_are_consistent_witness :
  (∃ w', run exampleCalls (exampleWorld true true) = Returned w' ∧ consistent w')
  ∧ (∃ w', run crowdedCalls (exampleWorld true true) = Returned w'
           ∧ trackedList w' = [0; 1; 5; 6; 7]%nat ∧ consistent w').
Proof.
  split.
  - apply (legal_runs_are_consistent (exampleWorld true true) exampleCalls).
    + apply pristine_newWorld; lia.
    + vm_compute. reflexivity.
  - destruct (legal_runs_are_consistent (exampleWorld true true) crowdedCalls)
      as (w' & Hr & Hcons).
    + apply pristine_newWorld; lia.
    + vm_compute. reflexivity.
    + exists w'. refine (conj Hr (conj _ Hcons)).
      replace w' with crowdedExample
        by (unfold crowdedExample; rewrite Hr; reflexivity).
      clear. vm_compute. reflexivity.
Defined.

(** ** Culling *)

Lemma intersects_true (box R : AABB) :
  intersects box R = true ↔
  aabb_x box + aabb_width box > aabb_x R ∧ aabb_x box < aabb_x R + aabb_width R
  ∧ aabb_y box + aabb_height box > aabb_y R ∧ aabb_y box < aabb_y R + aabb_height R.
Proof.
  unfold intersects. rewrite !andb_true_iff, !Z.gtb_ltb, !Z.ltb_lt. lia.
Qed.

(** Two boxes with non-negative extents that intersect share a cell. *)
Lemma ranges_meet (sh : SpatialHash) (box R : AABB) :
  0 < xSize sh → 0 < ySize sh →
  0 <= aabb_width box → 0 <= aabb_height box →
  0 <= aabb_width R → 0 <= aabb_height R →
  intersects box R = true →
  ∃ k, k ∈ rangeKeys (getBounds sh box) ∧ k ∈ rangeKeys (getBounds sh R).
Proof.
  intros Hx Hy Hbw Hbh HRw HRh (H1 & H2 & H3 & H4)%intersects_true.
  exists (Z.max (aabb_x box / xSize sh) (aabb_x R / xSize sh),
          Z.max (aabb_y box / ySize sh) (aabb_y R / ySize sh)).
  rewrite !elem_of_rangeKeys. unfold getBounds. simpl.
  pose proof (Z.div_le_mono (aabb_x box) (aabb_x box + aabb_width box) _ Hx).
  pose proof (Z.div_le_mono (aabb_x R) (aabb_x box + aabb_width box) _ Hx).
  pose proof (Z.div_le_mono (aabb_x box) (aabb_x R + aabb_width R) _ Hx).
  pose proof (Z.div_le_mono (aabb_x R) (aabb_x R + aabb_width R) _ Hx).
  pose proof (Z.div_le_mono (aabb_y box) (aabb_y box + aabb_height box) _ Hy).
  pose proof (Z.div_le_mono (aabb_y R) (aabb_y box + aabb_height box) _ Hy).
  pose proof (Z.div_le_mono (aabb_y box) (aabb_y R + aabb_height R) _ Hy).
  pose proof (Z.div_le_mono (aabb_y R) (aabb_y R + aabb_height R) _ Hy).
  lia.
Qed.

(** The visibility flags after a cull pass with the simple test, in a world
    that satisfies the invariant. *)
Lemma cull_visible (R : AABB) (skip : bool) (cb : option callback) (w : World) :
  Inv w → simpleTest (this w) = true →
  0 <= aabb_width R → 0 <= aabb_height R →
  ∃ n w', cull R skip cb w = Returned (n, w')
    ∧ ∀ a, a ∈ trackedList w' →
        ∃ box, cachedAABB (objs w' a) = Some box
          ∧ (visible (objs w' a) = true → intersects box R = true)
          ∧ (0 <= aabb_width box → 0 <= aabb_height box →
             intersects box R = true → visible (objs w' a) = true).
Proof.
  intros HInv Hsimple HRw HRh.
  destruct (cull_spec R skip cb w HInv)
    as (n & w1 & w' & _ & Hcull & HInv1 & Hc1 & Hi & Ht & Hvis).
  exists n, w'. split; [done|]. intros a Ha.
  rewrite (sameTracking_trackedList _ _ Ht) in Ha.
  destruct (inv_indexed _ HInv1) as [[Hm _] Hs _].
  destruct (Hs a Ha) as (box & sp & Hbox & Hsp & _ & Hkeys).
  destruct Hi as (_ & _ & _ & Hobj). exists box.
  split; [by rewrite (proj1 (Hobj a))|].
  assert (Ha0 : a ∈ trackedList w) by by rewrite <- (sameConfig_trackedList _ _ Hc1).
  rewrite (Hvis a Ha0), Hsimple. unfold collected.
  destruct (sameConfig_fields _ _ Hc1) as (_ & Hx & Hy & _).
  split.
  - intros (k & _ & _ & Hb). destruct (Hb eq_refl) as (box' & Hbox' & Hint).
    rewrite Hbox in Hbox'. by injection Hbox' as <-.
  - intros Hbw Hbh Hint.
    destruct (ranges_meet (this w1) box R) as (k & Hk1 & Hk2); try done.
    { apply HInv1. } { apply HInv1. }
    exists k. split; [|split].
    + replace (getBounds (this w) R) with (getBounds (this w1) R); [done|].
      unfold getBounds. by rewrite Hx, Hy.
    + apply Hm. unfold hashesOf. by rewrite (spatialOf_Some _ _ Hsp), Hkeys.
    + intros _. by exists box.
Qed.

(** C1, as stated, fails: a mirrored sprite (scale.x = -1) is tracked and
    its cached AABB, x = 110 with width -20, intersects the query rectangle
    (0, 0, 200, 200) under the half-open test, but its cell range runs from
    column 1 down to column 0, so it is in no bucket and stays invisible
    after the cull. *)
Lemma mirrored_sprite_is_culled :
  elements (this mirroredExample) = [2%nat]
  ∧ cachedAABB (objs mirroredExample 2) = Some (mkAABB 110 10 (-20) 20)
  ∧ intersects (mkAABB 110 10 (-20) 20) (mkAABB 0 0 200 200) = true
  ∧ hashesOf (objs mirroredExample 2) = []
  ∧ visible (objs mirroredExample 2) = false.
Proof. split_and!; by vm_compute. Qed.

(** C1, amended.  In every world that a call sequence reaches from a
    freshly constructed index with positive cell sizes, where the sequence
    obeys the discipline of [guard] ([add] and [addContainer] take what is
    not tracked, [remove] and [removeContainer] what is registered, an
    object joins a registered container only if it is not tracked, and an
    object leaves a container only if the container is registered or the
    object is not tracked), [cull] with the simple test enabled and a query rectangle of non-negative width and
    height returns, and afterwards: every tracked object that is visible has
    a cached AABB that intersects the rectangle under the half-open test;
    and every tracked object whose cached AABB has non-negative width and
    height and intersects the rectangle is visible.  So among the tracked
    objects with non-negative extents the visible ones are exactly those
    that intersect, and every other tracked object is invisible. *)
Theorem cull_visible_iff_intersects (w0 : World) (ops : list Op) :
  pristine w0 → legal ops w0 = true →
  ∃ w, run ops w0 = Returned w
    ∧ ∀ R skip cb,
        simpleTest (this w) = true → 0 <= aabb_width R → 0 <= aabb_height R →
        ∃ n w', cull R skip cb w = Returned (n, w')
          ∧ ∀ a, a ∈ trackedList w' →
              ∃ box, cachedAABB (objs w' a) = Some box
                ∧ (visible (objs w' a) = true → intersects box R = true)
                ∧ (0 <= aabb_width box → 0 <= aabb_height box →
                   intersects box R = true → visible (objs w' a) = true).
Proof.
  intros Hp Hl. destruct (run_Inv ops w0 (pristine_Inv w0 Hp) Hl) as (w & Hr & HInv).
  exists w. split; [done|]. intros R skip cb. by apply cull_visible.
Qed.

Lemma cull_visible_iff_intersects_witness :
  ∃ w n w', run crowdedCalls (exampleWorld true true) = Returned w
    ∧ cull (mkAABB 0 0 120 120) false None w = Returned (n, w')
    ∧ trackedList w' = [0; 1; 5; 6; 7]%nat
    ∧ (fun a => visible (objs w' a)) <$> trackedList w'
      = [true; false; true; false; true]
    ∧ ∀ a, a ∈ trackedList w' →
        ∃ box, cachedAABB (objs w' a) = Some box
          ∧ (visible (objs w' a) = true → intersects box (mkAABB 0 0 120 120) = true)
          ∧ (0 <= aabb_width box → 0 <= aabb_height box →
             intersects box (mkAABB 0 0 120 120) = true → visible (objs w' a) = true).
Proof.
  destruct (cull_visible_iff_intersects (exampleWorld true true) crowdedCalls)
    as (w & Hr & Hw).
  - apply pristine_newWorld; lia.
  - vm_compute. reflexivity.
  - assert (w = crowdedExample) as Hw0
      by (unfold crowdedExample; rewrite Hr; reflexivity).
    destruct (Hw (mkAABB 0 0 120 120) false None) as (n & w' & Hc & Hv).
    + rewrite Hw0. vm_compute. reflexivity.
    + clear. simpl. lia.
    + clear. simpl. lia.
    + clear Hw.
      assert (crowdedCulled = (n, w')) as Hq.
      { unfold crowdedCulled. rewrite <- Hw0, Hc. reflexivity. }
      clear Hw0. exists w, n, w'.
      refine (conj Hr (conj Hc (conj _ (conj _ Hv)))).
      * replace w' with (crowdedCulled.2) by (rewrite Hq; reflexivity).
        clear. vm_compute. reflexivity.
      * replace w' with (crowdedCulled.2) by (rewrite Hq; reflexivity).
        clear. vm_compute. reflexivity.
Defined.

(** ** Which objects a refresh pass re-indexes *)

Lemma forEach_passBody {A : Type} (w : World) (o : oid)
    (f : A -> World -> outcome World) (hits : A -> Prop) (l : list A) (t t' : World) :
  passBody w o f hits → forEach f l t = Returned t' → reachBase w o t →
  reachBase w o t'
  ∧ (reached w o t → reached w o t')
  ∧ (pending w o t → pending w o t')
  ∧ (pending w o t → (∃ a, a ∈ l ∧ hits a) → reached w o t').
Proof.
  intros (Hb & Hr & Hp & Hh). revert t. induction l as [|a l IH]; intros t H Hbase.
  - injection H as <-. split_and!; try done. intros _ (a & Ha & _). by inversion Ha.
  - cbn [forEach] in H. apply obind_Returned in H as (t1 & H1 & H).
    pose proof (Hb _ _ _ H1 Hbase) as Hbase1.
    destruct (IH _ H Hbase1) as (IHb & IHr & IHp & IHh).
    split_and!; [done| | |].
    + intros Hre. apply IHr. by eapply Hr.
    + intros Hpe. apply IHp. by eapply Hp.
    + intros Hpe (a' & [->|Ha']%elem_of_cons & Hhit).
      * apply IHr. by eapply Hh.
      * apply IHh; [by eapply Hp|]. by exists a'.
Qed.

Lemma updateObject_reach (w : World) (o a : oid) (t t' : World) :
  updateObject a t = Returned t' → reachBase w o t →
  reachBase w o t'
  ∧ (reached w o t → reached w o t')
  ∧ (pending w o t → pending w o t')
  ∧ (a = o → reached w o t').
Proof.
  intros (Hc & Ho & Hb & Hbox & _)%updateObject_frame (Hcw & Hcomp & Hst).
  destruct (decide (a = o)) as [->|Hne].
  - destruct (sameBody_fields _ _ Hb) as (Hcomp' & _ & Hst' & _).
    assert (Hre : reached w o t') by (unfold reached; by rewrite Hbox, Hcomp).
    split_and!; try done.
    + split_and!; [eapply sameConfig_trans; eassumption|congruence..].
    + intros _. by left.
  - split_and!; try done.
    + split_and!; [eapply sameConfig_trans; eassumption|by rewrite Ho..].
    + unfold reached. by rewrite Ho.
    + unfold pending, reached. by rewrite Ho.
Qed.

Lemma updateIf_passBody (w : World) (o : oid) (g : DisplayObject -> bool) :
  (∀ d d', computeAABB d' = computeAABB d → staticObject d' = staticObject d →
           g d' = g d) →
  passBody w o (updateIf g) (fun a => a = o ∧ g (objs w o) = true).
Proof.
  intros Hg. unfold passBody, updateIf. split_and!.
  - intros a t t'. destruct (g (objs t a)); [|by intros [= <-]].
    intros H Hb. by apply (updateObject_reach w o a t t').
  - intros a t t'. destruct (g (objs t a)); [|by intros [= <-]].
    intros H Hb. by apply (updateObject_reach w o a t t').
  - intros a t t'. destruct (g (objs t a)); [|by intros [= <-]].
    intros H Hb. by apply (updateObject_reach w o a t t').
  - intros a t t' [-> Hact]. destruct (g (objs t o)) eqn:Hgt.
    + intros H Hb _. by apply (updateObject_reach w o o t t').
    + intros [= <-] (_ & Hcomp & Hst) [Hre|Hsame]; [done|].
      rewrite Hsame in Hgt. congruence.
Qed.

Lemma refreshIfDirty_passBody (w : World) (o : oid) :
  passBody w o refreshIfDirty (fun a => a = o ∧ dirty (objs w o) = true).
Proof.
  assert (Hstep : ∀ a t t', refreshIfDirty a t = Returned t' → reachBase w o t →
            (dirty (objs t a) = true
             ∧ ∃ t1, updateObject a t = Returned t1
                     ∧ t' = with_obj a (set_dirty false) t1)
            ∨ (dirty (objs t a) = false ∧ t' = t)).
  { intros a t t'. unfold refreshIfDirty. destruct (dirty (objs t a)).
    - intros (t1 & H1 & [= <-])%obind_Returned _. left. split; [done|]. by exists t1.
    - intros [= <-] _. by right. }
  assert (Hflag : ∀ a t1, reachBase w o t1 →
            reachBase w o (with_obj a (set_dirty false) t1)
            ∧ (reached w o t1 → reached w o (with_obj a (set_dirty false) t1))).
  { intros a t1 (Hc & Hcomp & Hst). unfold reachBase, reached.
    rewrite objs_with_obj. destruct (decide (o = a)) as [->|]; done. }
  unfold passBody. split_and!.
  - intros a t t' H Hb. destruct (Hstep _ _ _ H Hb) as [[_ (t1 & H1 & ->)]|[_ ->]]; [|done].
    apply Hflag. by apply (updateObject_reach w o a t t1).
  - intros a t t' H Hb Hre.
    destruct (Hstep _ _ _ H Hb) as [[_ (t1 & H1 & ->)]|[_ ->]]; [|done].
    destruct (updateObject_reach w o a t t1 H1 Hb) as (Hb1 & Hr1 & _).
    apply Hflag; [done|]. by apply Hr1.
  - intros a t t' H Hb Hpe.
    destruct (Hstep _ _ _ H Hb) as [[_ (t1 & H1 & ->)]|[_ ->]]; [|done].
    destruct (updateObject_reach w o a t t1 H1 Hb) as (Hb1 & Hr1 & Hp1 & Hh1).
    destruct (decide (a = o)) as [->|Hne].
    + left. apply Hflag; [done|]. by apply Hh1.
    + destruct (Hp1 Hpe) as [Hre|Hsame].
      * left. by apply Hflag.
      * right. by rewrite objs_with_obj_ne.
  - intros a t t' [-> Hact] H Hb Hpe.
    destruct (Hstep _ _ _ H Hb) as [[_ (t1 & H1 & ->)]|[Hd ->]].
    + destruct (updateObject_reach w o o t t1 H1 Hb) as (Hb1 & _ & _ & Hh1).
      apply Hflag; [done|]. by apply Hh1.
    + destruct Hpe as [Hre|Hsame]; [done|]. rewrite Hsame in Hd. congruence.
Qed.

Lemma container_passBody (w : World) (o : oid) (f : oid -> World -> outcome World)
    (acts : Prop) :
  passBody w o f (fun a => a = o ∧ acts) →
  passBody w o
    (fun c t => if negb (isStatic (conts t c)) then forEach f (children (conts t c)) t
                else Returned t)
    (fun c => isStatic (conts w c) = false ∧ o ∈ children (conts w c) ∧ acts).
Proof.
  intros Hf. unfold passBody. split_and!.
  - intros c t t'. destruct (negb _); [|by intros [= <-]].
    intros H Hb. by destruct (forEach_passBody w o f _ _ t t' Hf H Hb) as (? & _).
  - intros c t t'. destruct (negb _); [|by intros [= <-]].
    intros H Hb. by destruct (forEach_passBody w o f _ _ t t' Hf H Hb) as (_ & ? & _).
  - intros c t t'. destruct (negb _); [|by intros [= <-]].
    intros H Hb. by destruct (forEach_passBody w o f _ _ t t' Hf H Hb) as (_ & _ & ? & _).
  - intros c t t' (Hst & Ho & Hact) H Hb Hpe.
    assert (Hconts : conts t = conts w) by apply Hb.
    rewrite Hconts, Hst in H. cbn [negb] in H.
    destruct (forEach_passBody w o f _ _ t t' Hf H Hb) as (_ & _ & _ & Hh).
    apply Hh; [done|]. by exists o.
Qed.

Lemma updateObject_as_updateIf (w : World) (o : oid) :
  passBody w o updateObject (fun a => a = o ∧ True).
Proof.
  destruct (updateIf_passBody w o (fun _ => true)) as (H1 & H2 & H3 & H4); [done|].
  unfold passBody. split_and!.
  - intros a t t' H. by apply (H1 a).
  - intros a t t' H. by apply (H2 a).
  - intros a t t' H. by apply (H3 a).
  - intros a t t' [-> _] H. by apply (H4 o).
Qed.

(** A refresh pass re-indexes every object it is meant to visit: afterwards
    the cached box of such an object is the box of its current transform. *)
Lemma updateObjects_reaches (w w' : World) (o : oid) :
  updateObjects w = Returned w' → refreshed w o → reached w o w'.
Proof.
  rewrite updateObjects_unfold. unfold refreshed, refreshedChild.
  assert (Hb0 : reachBase w o w) by done.
  assert (Hp0 : pending w o w) by by right.
  destruct (dirtyTest (this w)).
  - intros (t1 & H1 & H2)%obind_Returned [Hd Hwhere].
    destruct (forEach_passBody w o _ _ _ _ _ (refreshIfDirty_passBody w o) H1 Hb0)
      as (Hb1 & _ & Hp1 & Hh1).
    pose proof (container_passBody w o refreshIfDirty _ (refreshIfDirty_passBody w o))
      as Hcb.
    destruct (forEach_passBody w o _ _ _ _ _ Hcb H2 Hb1) as (_ & Hr2 & _ & Hh2).
    destruct Hwhere as [He|(c & Hc & Hst & Ho)].
    + apply Hr2, Hh1; [done|]. by exists o.
    + apply Hh2; [by apply Hp1|]. exists c. split; [|done].
      destruct (sameConfig_fields _ _ (proj1 Hb1)) as (_ & _ & _ & _ & _ & _ & Hk).
      by rewrite Hk.
  - intros (t1 & H1 & H2)%obind_Returned Hwhere.
    assert (Hg : passBody w o (updateIf (fun d => negb (staticObject d)))
                   (fun a => a = o ∧ negb (staticObject (objs w o)) = true)).
    { apply (updateIf_passBody w o (fun d => negb (staticObject d))).
      by intros d d' _ ->. }
    destruct (forEach_passBody w o _ _ _ _ _ Hg H1 Hb0) as (Hb1 & _ & Hp1 & Hh1).
    pose proof (container_passBody w o updateObject _ (updateObject_as_updateIf w o))
      as Hcb.
    destruct (forEach_passBody w o _ _ _ _ _ Hcb H2 Hb1) as (_ & Hr2 & _ & Hh2).
    destruct Hwhere as [[He Hst]|(c & Hc & Hst & Ho)].
    + apply Hr2, Hh1; [done|]. exists o. by rewrite Hst.
    + apply Hh2; [by apply Hp1|]. exists c. split; [|done].
      destruct (sameConfig_fields _ _ (proj1 Hb1)) as (_ & _ & _ & _ & _ & _ & Hk).
      by rewrite Hk.
Qed.

(** A refresh pass leaves alone an object whose [dirty] flag is clear, in
    dirty-test mode, and a static object that is no child of a refreshed
    container, in full-scan mode. *)
Lemma updateObjects_untouched (w w' : World) (o : oid) :
  updateObjects w = Returned w' →
  (if dirtyTest (this w) then dirty (objs w o) = false
   else staticObject (objs w o) = true
        ∧ ∀ c, c ∈ containers (this w) → isStatic (conts w c) = false →
               o ∉ children (conts w c)) →
  objs w' o = objs w o.
Proof.
  rewrite updateObjects_unfold.
  set (P := fun t : World => sameConfig w t ∧ objs t o = objs w o).
  assert (HP0 : P w) by done.
  assert (Hup : ∀ a t t', a ≠ o → updateObject a t = Returned t' → P t → P t').
  { intros a t t' Hne (Hc & Ho & _)%updateObject_frame [Hcw Hsame]. split.
    - eapply sameConfig_trans; eassumption.
    - by rewrite Ho. }
  destruct (dirtyTest (this w)).
  - intros (t1 & H1 & H2)%obind_Returned Hd.
    assert (Hbody : ∀ a t t', refreshIfDirty a t = Returned t' → P t → P t').
    { intros a t t'. unfold refreshIfDirty. destruct (decide (a = o)) as [->|Hne].
      - intros H [Hcw Hsame]. rewrite Hsame, Hd in H. by injection H as <-.
      - destruct (dirty (objs t a)); [|by intros [= <-]].
        intros (t2 & H & [= <-])%obind_Returned HPt.
        destruct (Hup a t t2 Hne H HPt) as [Hc2 Ho2]. split; [done|].
        by rewrite objs_with_obj_ne. }
    assert (HP1 : P t1).
    { apply (forEach_keeps P refreshIfDirty (elements (this w)) w t1); [|done..].
      intros a t t' _ HPt H. by apply (Hbody a t t'). }
    assert (HP' : P w').
    { apply (forEach_keeps P dirtyContainer (containers (this t1)) t1 w'); [|done..].
      intros c t t' _ HPt. unfold dirtyContainer. destruct (negb _); [|by intros [= <-]].
      apply (forEach_keeps P); [|done]. intros a u u' _ HPu H. by apply (Hbody a u u'). }
    apply HP'.
  - intros (t1 & H1 & H2)%obind_Returned [Hst Hch].
    assert (HP1 : P t1).
    { apply (forEach_keeps P (updateIf (fun d => negb (staticObject d)))
               (elements (this w)) w t1); [|done..].
      intros a t t' _ HPt. unfold updateIf. destruct (decide (a = o)) as [->|Hne].
      - pose proof HPt as [_ Hsame]. rewrite Hsame, Hst. cbn [negb]. by intros [= <-].
      - destruct (negb _); [|by intros [= <-]]. intros H. by apply (Hup a t t'). }
    assert (HP' : P w').
    { apply (forEach_keeps P scanContainer (containers (this t1)) t1 w'); [|done..].
      intros c t t' Hc HPt. unfold scanContainer.
      destruct (isStatic (conts t c)) eqn:Hsc; [by intros [= <-]|]. cbn [negb].
      assert (Hconts : conts t = conts w) by apply HPt.
      assert (Hk : containers (this t1) = containers (this w)).
      { by destruct (sameConfig_fields _ _ (proj1 HP1)) as (_ & _ & _ & _ & _ & _ & ?). }
      rewrite Hconts in Hsc |- *. rewrite Hk in Hc.
      pose proof (Hch c Hc Hsc) as Hno.
      apply (forEach_keeps P updateObject (children (conts w c)) t t'); [|done].
      intros a u u' Ha HPu H. apply (Hup a u u'); [|done..]. by intros ->. }
    apply HP'.
Qed.

(** ** What a refresh leaves alone *)

Lemma sameShape_refl (d : DisplayObject) : sameShape d d.
Proof. done. Qed.

Lemma sameShape_trans (d1 d2 d3 : DisplayObject) :
  sameShape d1 d2 → sameShape d2 d3 → sameShape d1 d3.
Proof. intros (? & ? & ?) (? & ? & ?). repeat split; congruence. Qed.

Lemma updateObject_touchesOnly : touchesOnly updateObject.
Proof.
  intros o u u' (Hc & Hoth & Hb & _)%updateObject_frame.
  split; [done|]. split; [done|].
  apply sameBody_fields in Hb as (? & _ & ? & ?). done.
Qed.

Lemma updateIf_touchesOnly (g : DisplayObject -> bool) : touchesOnly (updateIf g).
Proof.
  intros o u u' H. unfold updateIf in H. destruct (g (objs u o)).
  - by apply updateObject_touchesOnly.
  - revert H. intros [= <-]. split; [apply sameConfig_refl|done].
Qed.

Lemma refreshIfDirty_touchesOnly : touchesOnly refreshIfDirty.
Proof.
  intros o u u' H. unfold refreshIfDirty in H. destruct (dirty (objs u o)).
  - apply obind_Returned in H as (u1 & H1 & [= <-]).
    apply updateObject_touchesOnly in H1 as (Hc & Hoth & Hs).
    split; [eapply sameConfig_trans; [exact Hc|apply sameConfig_with_obj]|].
    split.
    + intros b Hb. by rewrite objs_with_obj_ne, Hoth.
    + rewrite objs_with_obj_eq. eapply sameShape_trans; [exact Hs|done].
  - revert H. intros [= <-]. split; [apply sameConfig_refl|done].
Qed.

Lemma loop_touchesOnly (f : oid -> World -> outcome World) (l : list oid)
    (t t' : World) :
  touchesOnly f → forEach f l t = Returned t' →
  sameConfig t t' ∧ (∀ a, sameShape (objs t a) (objs t' a))
  ∧ (∀ a, a ∉ l → objs t' a = objs t a).
Proof.
  intros Hf. revert t. induction l as [|o l IH]; intros t H; cbn [forEach] in H.
  - revert H. intros [= <-]. split; [apply sameConfig_refl|done].
  - apply obind_Returned in H as (t1 & H1 & H).
    apply Hf in H1 as (Hc1 & Hoth1 & Hs1). apply IH in H as (Hc & Hs & Hoth).
    split; [eapply sameConfig_trans; eassumption|]. split.
    + intros a. eapply sameShape_trans; [|apply Hs].
      destruct (decide (a = o)) as [->|Hne]; [done|]. rewrite Hoth1 by done.
      apply sameShape_refl.
    + intros a Ha. rewrite Hoth, Hoth1; [done| |].
      * intros ->. apply Ha. left.
      * intros Hin. apply Ha. by right.
Qed.

Lemma containers_touchesOnly (f : oid -> World -> outcome World) (cs : list cid)
    (t t' : World) :
  touchesOnly f →
  forEach (fun c w => if negb (isStatic (conts w c))
                      then forEach f (children (conts w c)) w else Returned w)
          cs t = Returned t' →
  sameConfig t t' ∧ (∀ a, sameShape (objs t a) (objs t' a))
  ∧ (∀ a, (∀ c, c ∈ cs → isStatic (conts t c) = false → a ∉ children (conts t c)) →
          objs t' a = objs t a).
Proof.
  intros Hf. revert t. induction cs as [|c cs IH]; intros t H; cbn [forEach] in H.
  - revert H. intros [= <-]. split; [apply sameConfig_refl|done].
  - apply obind_Returned in H as (t1 & H1 & H).
    assert (sameConfig t t1 ∧ (∀ a, sameShape (objs t a) (objs t1 a))
            ∧ (∀ a, (isStatic (conts t c) = false → a ∉ children (conts t c)) →
                    objs t1 a = objs t a))
      as (Hc1 & Hs1 & Hoth1).
    { destruct (isStatic (conts t c)); cbn [negb] in H1.
      - revert H1. intros [= <-]. split; [apply sameConfig_refl|done].
      - apply (loop_touchesOnly _ _ _ _ Hf) in H1 as (? & ? & Hoth).
        split; [done|]. split; [done|]. intros a Ha. by apply Hoth, Ha. }
    apply IH in H as (Hc & Hs & Hoth).
    split; [eapply sameConfig_trans; eassumption|]. split.
    + intros a. eapply sameShape_trans; [apply Hs1|apply Hs].
    + intros a Ha. rewrite Hoth.
      * apply Hoth1, Ha. left.
      * intros c' Hc'. destruct Hc1 as (-> & _). apply Ha. by right.
Qed.

(** A refresh changes no object that it does not visit: none but the
    elements and the children of the registered containers that are not
    static. *)
Lemma updateObjects_skips (w w' : World) :
  updateObjects w = Returned w' →
  sameConfig w w' ∧ (∀ a, sameShape (objs w a) (objs w' a))
  ∧ (∀ a, a ∉ elements (this w) →
          (∀ c, c ∈ containers (this w) → isStatic (conts w c) = false →
                a ∉ children (conts w c)) →
          objs w' a = objs w a).
Proof.
  intros H.
  assert (∃ f g w1, touchesOnly f ∧ touchesOnly g
            ∧ forEach f (elements (this w)) w = Returned w1
            ∧ forEach (fun c w => if negb (isStatic (conts w c))
                                  then forEach g (children (conts w c)) w
                                  else Returned w)
                      (containers (this w1)) w1 = Returned w')
    as (f & g & w1 & Hf & Hg & H1 & H2).
  { unfold updateObjects in H. destruct (dirtyTest (this w)).
    - apply obind_Returned in H as (w1 & H1 & H2).
      exists refreshIfDirty, refreshIfDirty, w1.
      split; [apply refreshIfDirty_touchesOnly|].
      split; [apply refreshIfDirty_touchesOnly|done].
    - apply obind_Returned in H as (w1 & H1 & H2).
      exists (updateIf (fun d => negb (staticObject d))), updateObject, w1.
      split; [apply updateIf_touchesOnly|].
      split; [apply updateObject_touchesOnly|done]. }
  apply (loop_touchesOnly _ _ _ _ Hf) in H1 as (Hc1 & Hs1 & Hoth1).
  apply (containers_touchesOnly _ _ _ _ Hg) in H2 as (Hc2 & Hs2 & Hoth2).
  split; [eapply sameConfig_trans; eassumption|]. split.
  - intros a. eapply sameShape_trans; [apply Hs1|apply Hs2].
  - intros a Hel Hch.
    destruct (sameConfig_fields _ _ Hc1) as (Hconts & _ & _ & _ & _ & _ & Hk).
    rewrite Hoth2, Hoth1; [done|done|].
    intros c Hc. rewrite Hconts. rewrite Hk in Hc. by apply Hch.
Qed.

Lemma updateObjects_frame (w w' : World) :
  updateObjects w = Returned w' →
  sameConfig w w' ∧ (∀ a, sameShape (objs w a) (objs w' a))
  ∧ (∀ a, a ∉ trackedList w → objs w' a = objs w a).
Proof.
  intros (Hc & Hs & Hoth)%updateObjects_skips.
  split; [done|]. split; [done|]. intros a Ha. rewrite elem_of_trackedList in Ha.
  apply Hoth.
  - intros Hin. apply Ha. by left.
  - intros c Hc' _ Hin. apply Ha. right. by exists c.
Qed.


(** ** Move invalidation and the static exemption *)

Lemma occurrences_le_one (o : nat) (l : list nat) : NoDup l → (occurrences o l <= 1)%nat.
Proof.
  intros Hnd. destruct (decide (o ∈ l)) as [Ho|Ho].
  - by rewrite occurrences_NoDup.
  - rewrite occurrences_absent by done. lia.
Qed.

Lemma Inv_membership (w : World) (o : oid) (k : key) :
  Inv w → inBucket (hash (this w)) k o ↔ k ∈ hashesOf (objs w o).
Proof. intros HInv. apply HInv. Qed.

(** Under the invariant the buckets that hold a tracked object are the
    cells of the range of its cached box. *)
Lemma Inv_cells (w : World) (o : oid) (box : AABB) (k : key) :
  Inv w → o ∈ trackedList w → cachedAABB (objs w o) = Some box →
  inBucket (hash (this w)) k o ↔ k ∈ rangeKeys (getBounds (this w) box).
Proof.
  intros HInv Ho Hbox. rewrite (Inv_membership w o k HInv).
  destruct (ix_settled _ _ (inv_indexed _ HInv) o Ho) as (box' & sp & Hbox' & Hsp & _ & Hk).
  rewrite Hbox in Hbox'. injection Hbox' as <-.
  unfold hashesOf. by rewrite (spatialOf_Some _ _ Hsp), Hk.
Qed.

Lemma refreshed_tracked (w : World) (o : oid) : refreshed w o → o ∈ trackedList w.
Proof.
  unfold refreshed, refreshedChild. rewrite elem_of_trackedList.
  destruct (dirtyTest (this w)).
  - intros [_ [?|(c & ? & _ & ?)]]; [by left|right; by exists c].
  - intros [[? _]|(c & ? & _ & ?)]; [by left|right; by exists c].
Qed.

Lemma moveAndMark_Inv (o : oid) (t : Transform) (w : World) :
  Inv w → Inv (moveAndMark o t w).
Proof.
  intros HInv. apply (Inv_same w); [|done|done]. unfold moveAndMark.
  eapply sameIndex_trans; by apply sameIndex_with_obj.
Qed.

Lemma moveAndMark_obj (o : oid) (t : Transform) (w : World) :
  objs (moveAndMark o t w) o = set_dirty true (set_transform t (objs w o)).
Proof. unfold moveAndMark. by rewrite !objs_with_obj_eq. Qed.

(** What a refresh does for an object it is meant to visit, in a world that
    satisfies the invariant. *)
Lemma refreshed_cells (w : World) (o : oid) :
  Inv w → refreshed w o →
  ∃ w', updateObjects w = Returned w' ∧ Inv w' ∧ sameConfig w w'
    ∧ cachedAABB (objs w' o) = Some (computeAABB (objs w o))
    ∧ ∀ k, inBucket (hash (this w')) k o
           ↔ k ∈ rangeKeys (getBounds (this w) (computeAABB (objs w o))).
Proof.
  intros HInv Href. destruct (updateObjects_Inv w HInv) as (w' & Hup & HInv' & Hc).
  exists w'. split; [done|]. split; [done|]. split; [done|].
  pose proof (updateObjects_reaches w w' o Hup Href) as Hre. split; [done|].
  intros k. rewrite (Inv_cells w' o (computeAABB (objs w o)) k HInv'); [| |exact Hre].
  - by rewrite (sameConfig_getBounds _ _ _ Hc).
  - rewrite (sameConfig_trackedList _ _ Hc). by apply refreshed_tracked.
Qed.

(** C7, as stated, fails: a child of a container registered as static is a
    tracked object; after it moved to the cell range (2, 2), was marked
    dirty and the index was refreshed, it is still in the bucket of its old
    cell (0, 1) and in no bucket of the new range. *)
Lemma static_child_is_not_relocated :
  containers (this staticChildExample) = [0%nat]
  ∧ children (conts staticChildExample 0) = [5%nat; 6%nat]
  ∧ dirty (objs staticChildExample 5) = true
  ∧ rangeKeys (getBounds (this staticChildExample)
                 (computeAABB (objs staticChildExample 5))) = [(2, 2)]
  ∧ hashesOf (objs staticChildExample 5) = [(0, 1)]
  ∧ hash (this staticChildExample) !! (0, 1) = Some [5%nat]
  ∧ hash (this staticChildExample) !! (2, 2) = None.
Proof. split_and!; by vm_compute. Qed.

(** C7, amended.  Take a world that a call sequence reaches from a freshly
    constructed index with positive cell sizes, where the sequence obeys the
    discipline of [guard]: [add] and [addContainer] take what is not tracked
    (a container with pairwise distinct, untracked children), [remove] and
    [removeContainer] take what is registered, an object joins a registered
    container only if it is not tracked, and an object leaves a container
    only if the container is registered or the object is not tracked.

    For an object that the refresh pass visits (an individually added object
    in dirty-test mode, an individually added non-static object in full-scan
    mode, or a child of a registered non-static container): change its
    transform and mark it dirty; then [updateObjects] returns and afterwards
    the object is in the buckets of exactly the cells of the range of its
    new box, at most once in each, so it is in no previously occupied cell
    outside that range.  When the recomputed range equals the cached range,
    re-indexing the object ([updateObject]) changes no bucket, and after
    the refresh the object is in the same buckets as before.

    For an object that the refresh pass leaves out (a child of a registered
    static container in either mode, a static element in full-scan mode):
    the object is tracked, and after the same change [updateObjects] returns
    and has changed neither the object nor the buckets it is in. *)
Theorem refresh_relocates (w0 : World) (ops : list Op) :
  pristine w0 → legal ops w0 = true →
  ∃ w, run ops w0 = Returned w
    ∧ (∀ o t, refreshed (moveAndMark o t w) o →
        ∃ w', updateObjects (moveAndMark o t w) = Returned w'
          ∧ (∀ k, inBucket (hash (this w')) k o
                  ↔ k ∈ rangeKeys (getBounds (this w)
                                     (computeAABB (set_transform t (objs w o)))))
          ∧ (∀ k l, hash (this w') !! k = Some l → (occurrences o l <= 1)%nat)
          ∧ (rangeChanged (spatialOf (objs w o))
               (getBounds (this w) (computeAABB (set_transform t (objs w o)))) = false →
             (∃ w'', updateObject o (moveAndMark o t w) = Returned w''
                     ∧ hash (this w'') = hash (this (moveAndMark o t w)))
             ∧ ∀ k, inBucket (hash (this w')) k o ↔ inBucket (hash (this w)) k o))
    ∧ (∀ o t, skipped w o →
        o ∈ trackedList w
        ∧ ∃ w', updateObjects (moveAndMark o t w) = Returned w'
          ∧ objs w' o = objs (moveAndMark o t w) o
          ∧ ∀ k, inBucket (hash (this w')) k o ↔ inBucket (hash (this w)) k o).
Proof.
  intros Hp Hl. destruct (run_Inv ops w0 (pristine_Inv w0 Hp) Hl) as (w & Hr & HInv).
  exists w. split; [done|]. split.
  - intros o t Href.
    pose proof (moveAndMark_Inv o t w HInv) as HInv1.
    destruct (refreshed_cells _ o HInv1 Href) as (w' & Hup & HInv' & Hc & Hbox & Hcells).
    rewrite moveAndMark_obj in Hcells.
    change (computeAABB (set_dirty true (set_transform t (objs w o))))
      with (computeAABB (set_transform t (objs w o))) in Hcells.
    change (this (moveAndMark o t w)) with (this w) in Hcells.
    exists w'. split; [done|]. split; [done|]. split.
    { intros k l Hkl. apply occurrences_le_one.
      by apply (proj2 (ix_linked _ _ (inv_indexed _ HInv')) k l). }
    intros Hsame. split.
    + apply updateObject_upToDate. unfold upToDate. by rewrite moveAndMark_obj.
    + intros k. rewrite Hcells.
      assert (Ho : o ∈ trackedList w) by by apply refreshed_tracked in Href.
      destruct (ix_settled _ _ (inv_indexed _ HInv) o Ho)
        as (box & sp & Hbox0 & Hsp & Hch & Hk).
      rewrite (Inv_cells w o box k HInv Ho Hbox0).
      rewrite (spatialOf_Some _ _ Hsp) in Hsame.
      by rewrite (bounds_eq_of_unchanged sp _ _ Hch Hsame).
  - intros o t Hskip.
    pose proof (moveAndMark_Inv o t w HInv) as HInv1.
    destruct (updateObjects_Inv _ HInv1) as (w' & Hup & HInv' & _).
    destruct (inv_owned w HInv) as [_ _ _ O4 O5].
    assert (o ∈ trackedList w ∧ objs w' o = objs (moveAndMark o t w) o) as [Ho Hsame].
    { destruct Hskip as [(c & Hc & Hst & Hch)|(Hd & He & Hst)].
      - split; [apply elem_of_trackedList; right; by exists c|].
        apply (updateObjects_skips _ _ Hup).
        + by apply (O4 c o).
        + intros c' Hc' Hst' Hch'.
          change (conts (moveAndMark o t w)) with (conts w) in Hst', Hch'.
          rewrite (O5 c' c o Hc' Hc Hch' Hch) in Hst'. congruence.
      - split; [apply elem_of_trackedList; by left|].
        apply (updateObjects_untouched _ _ o Hup).
        change (this (moveAndMark o t w)) with (this w). rewrite Hd.
        split; [by rewrite moveAndMark_obj|].
        intros c Hc _ Hch. by apply (O4 c o). }
    split; [done|]. exists w'. split; [done|]. split; [done|]. intros k.
    rewrite (Inv_membership w' o k HInv'), (Inv_membership w o k HInv), Hsame.
    by rewrite moveAndMark_obj.
Qed.

Lemma refresh_relocates_witness :
  (∃ w', updateObjects (moveAndMark 1 (boxAt 450 10 20 20)
                          (returned (exampleWorld true true)
                             (run exampleCalls (exampleWorld true true))))
         = Returned w'
         ∧ ∀ k, inBucket (hash (this w')) k 1%nat ↔ k ∈ [(4, 0)])
  ∧ (∃ w', updateObjects (moveAndMark 5 (boxAt 250 250 20 20)
                            (returned (exampleWorld true true)
                               (run [OpAddContainer 0 true] (exampleWorld true true))))
           = Returned w'
           ∧ ∀ k, inBucket (hash (this w')) k 5%nat
                  ↔ inBucket (hash (this (returned (exampleWorld true true)
                                            (run [OpAddContainer 0 true]
                                                 (exampleWorld true true))))) k 5%nat).
Proof.
  split.
  - destruct (refresh_relocates (exampleWorld true true) exampleCalls)
      as (w & Hr & Hw & _).
    + apply pristine_newWorld; lia.
    + vm_compute. reflexivity.
    + assert (w = returned (exampleWorld true true)
                    (run exampleCalls (exampleWorld true true))) as Hw0
        by (rewrite Hr; reflexivity).
      clear Hr. subst w.
      destruct (Hw 1%nat (boxAt 450 10 20 20)) as (w' & Hup & Hcells & _).
      * vm_compute. split; [reflexivity|]. left. constructor.
      * clear Hw. exists w'. split; [exact Hup|]. intros k.
        etransitivity; [apply Hcells|].
        match goal with
        | |- _ ∈ ?l ↔ _ => replace l with [(4, 0)] by (vm_compute; reflexivity)
        end.
        reflexivity.
  - destruct (refresh_relocates (exampleWorld true true) [OpAddContainer 0 true])
      as (w & Hr & _ & Hw).
    + apply pristine_newWorld; lia.
    + vm_compute. reflexivity.
    + assert (w = returned (exampleWorld true true)
                    (run [OpAddContainer 0 true] (exampleWorld true true))) as Hw0
        by (rewrite Hr; reflexivity).
      clear Hr. subst w.
      destruct (Hw 5%nat (boxAt 250 250 20 20)) as (_ & w' & Hup & _ & Hcells).
      * left. exists 0%nat. vm_compute.
        split; [left|]. split; [reflexivity|left].
      * clear Hw. exists w'. exact (conj Hup Hcells).
Defined.

(** *** Static elements *)

Lemma updateObjects_clears (w w' : World) (o : oid) :
  dirtyTest (this w) = true → updateObjects w = Returned w' →
  o ∈ elements (this w) → dirty (objs w' o) = false.
Proof.
  rewrite updateObjects_unfold. intros -> (t1 & H1 & H2)%obind_Returned Ho.
  apply dirtyPass_clears in H1 as [_ H1]. apply dirtyContainers_clear in H2 as [H2 _].
  by apply H2, H1.
Qed.

(** C2, as stated, fails in dirty-test mode: object 0 was added with
    [staticObject] true, then moved and marked dirty; the refresh takes it
    out of the bucket of cell (0, 0) and puts it into the bucket of cell
    (2, 2). *)
Lemma static_element_is_reindexed :
  dirtyTest (this staticMovedExample) = true
  ∧ elements (this staticMovedExample) = [0%nat]
  ∧ staticObject (objs staticMovedExample 0) = true
  ∧ dirty (objs staticMovedExample 0) = true
  ∧ hash (this staticMovedExample) = {[ (0, 0) := [0%nat] ]}
  ∧ updateObjects staticMovedExample = Returned staticRefreshedExample
  ∧ hash (this staticRefreshedExample) = {[ (0, 0) := []; (2, 2) := [0%nat] ]}
  ∧ hashesOf (objs staticRefreshedExample 0) = [(2, 2)].
Proof. split_and!; by vm_compute. Qed.

(** C2, amended.  In every world that a call sequence reaches from a
    freshly constructed index with positive cell sizes, where the sequence
    obeys the discipline of [guard] ([add] and [addContainer] take what is
    not tracked, [remove] and [removeContainer] what is registered, an
    object joins a registered container only if it is not tracked, and an
    object leaves a container only if the container is registered or the
    object is not tracked), [updateObjects] returns, and for an
    individually added object whose [staticObject] flag is set: in full-scan
    mode the refresh does not re-index it, whatever its transform and its
    [dirty] flag are (the object and its bucket memberships are unchanged);
    in dirty-test mode the [staticObject] flag is not consulted: with a
    clear [dirty] flag the object is left unchanged, and with the flag set
    it is re-indexed to the cells of its current box and the flag is
    cleared. *)
Theorem static_elements_and_refresh (w0 : World) (ops : list Op) :
  pristine w0 → legal ops w0 = true →
  ∃ w, run ops w0 = Returned w
    ∧ ∀ o, o ∈ elements (this w) → staticObject (objs w o) = true →
        ∃ w', updateObjects w = Returned w'
          ∧ (dirtyTest (this w) = false ∨ dirty (objs w o) = false →
             objs w' o = objs w o
             ∧ ∀ k, inBucket (hash (this w')) k o ↔ inBucket (hash (this w)) k o)
          ∧ (dirtyTest (this w) = true → dirty (objs w o) = true →
             cachedAABB (objs w' o) = Some (computeAABB (objs w o))
             ∧ dirty (objs w' o) = false
             ∧ ∀ k, inBucket (hash (this w')) k o
                    ↔ k ∈ rangeKeys (getBounds (this w) (computeAABB (objs w o)))).
Proof.
  intros Hp Hl. destruct (run_Inv ops w0 (pristine_Inv w0 Hp) Hl) as (w & Hr & HInv).
  exists w. split; [done|]. intros o Ho Hst.
  destruct (updateObjects_Inv w HInv) as (w' & Hup & HInv' & Hc).
  exists w'. split; [done|]. split.
  - intros Hmode.
    assert (Hsame : objs w' o = objs w o).
    { apply (updateObjects_untouched w w' o Hup).
      destruct (dirtyTest (this w)).
      - by destruct Hmode.
      - split; [done|]. intros c Hc' _ Hch.
        by apply (own_apart _ (inv_owned _ HInv) c o). }
    split; [done|]. intros k.
    by rewrite (Inv_membership w' o k HInv'), (Inv_membership w o k HInv), Hsame.
  - intros Hdt Hd.
    assert (Href : refreshed w o).
    { unfold refreshed. rewrite Hdt. split; [done|by left]. }
    destruct (refreshed_cells w o HInv Href) as (w'' & Hup' & _ & _ & Hbox & Hcells).
    rewrite Hup in Hup'. injection Hup' as <-.
    split; [done|]. split; [|done]. by apply (updateObjects_clears w).
Qed.

Lemma static_elements_and_refresh_witness :
  ∃ w', updateObjects staticScanExample = Returned w'
        ∧ objs w' 0%nat = objs staticScanExample 0%nat.
Proof.
  destruct (static_elements_and_refresh (exampleWorld true false)
              [OpAdd 0 true; OpSetTransform 0 (boxAt 250 250 20 20); OpSetDirty 0 true])
    as (w & Hr & Hw).
  - apply pristine_newWorld; lia.
  - vm_compute. reflexivity.
  - assert (w = staticScanExample) as Hw0 by (unfold staticScanExample; rewrite Hr; reflexivity).
    clear Hr. subst w.
    destruct (Hw 0%nat) as (w' & Hup & Hkeep & _).
    + vm_compute. constructor.
    + vm_compute. reflexivity.
    + clear Hw. exists w'. split; [exact Hup|]. apply Hkeep. left. vm_compute. reflexivity.
Defined.

(** ** The diagnostics *)

Lemma elem_of_buckets (h : gmap key (list oid)) (l : list oid) :
  l ∈ (map_to_list h).*2 ↔ ∃ k, h !! k = Some l.
Proof.
  rewrite list_elem_of_fmap. split.
  - intros ([k l'] & -> & Hin). exists k. by apply elem_of_map_to_list.
  - intros (k & Hk). exists (k, l). split; [done|]. by apply elem_of_map_to_list.
Qed.

Lemma elem_of_keys (h : gmap key (list oid)) (k : key) :
  k ∈ (map_to_list h).*1 ↔ is_Some (h !! k).
Proof.
  rewrite list_elem_of_fmap. split.
  - intros ([k' l] & -> & Hin). exists l. by apply elem_of_map_to_list.
  - intros (l & Hl). exists (k, l). split; [done|]. by apply elem_of_map_to_list.
Qed.

Lemma fold_largest (L : list (list oid)) (m : Z) :
  let r := fold_left (fun largest l =>
                        if Z.of_nat (length l) >? largest then Z.of_nat (length l)
                        else largest) L m in
  m <= r ∧ (∀ l, l ∈ L → Z.of_nat (length l) <= r)
  ∧ (r = m ∨ ∃ l, l ∈ L ∧ Z.of_nat (length l) = r).
Proof.
  revert m. induction L as [|a L IH]; intros m; cbn [fold_left].
  - split; [lia|]. split; [|by left]. intros l Hl. by apply elem_of_nil in Hl.
  - specialize (IH (if Z.of_nat (length a) >? m then Z.of_nat (length a) else m)).
    cbn zeta in IH. destruct IH as (Hle & Hall & Hatt).
    destruct (Z.gtb_spec (Z.of_nat (length a)) m) as [Hgt|Hgt].
    + split; [lia|]. split.
      * intros l [->|Hl]%elem_of_cons; [lia|by apply Hall].
      * right. destruct Hatt as [->|(l & Hl & Hr)].
        -- exists a. split; [left|done].
        -- exists l. split; [by right|done].
    + split; [lia|]. split.
      * intros l [->|Hl]%elem_of_cons; [lia|by apply Hall].
      * destruct Hatt as [->|(l & Hl & Hr)]; [by left|].
        right. exists l. split; [by right|done].
Qed.

Lemma fold_total (L : list (list oid)) (M t : Z) :
  (∀ l, l ∈ L → Z.of_nat (length l) <= M) →
  let T := fold_left (fun total l => total + Z.of_nat (length l)) L t in
  let n := Z.of_nat (length (filter (fun l => 1 <= Z.of_nat (length l)) L)) in
  t + n <= T ∧ T <= t + n * M.
Proof.
  revert t. induction L as [|a L IH]; intros t HM; cbn [fold_left].
  - cbn. lia.
  - specialize (IH (t + Z.of_nat (length a))
                   (fun l Hl => HM l (list_elem_of_further _ _ _ Hl))).
    cbn zeta in IH. pose proof (HM a (list_elem_of_here _ _)) as Ha.
    destruct (decide (1 <= Z.of_nat (length a))) as [H1|H1].
    + rewrite filter_cons_True by done. cbn [length]. nia.
    + rewrite filter_cons_False by done. nia.
Qed.

Lemma getLargest_upper (w : World) (k : key) (l : list oid) :
  hash (this w) !! k = Some l → Z.of_nat (length l) <= getLargest w.
Proof.
  intros Hk. unfold getLargest.
  destruct (fold_largest ((map_to_list (hash (this w))).*2) 0) as (_ & Hall & _).
  apply Hall, elem_of_buckets. by exists k.
Qed.

(** X1.  [getLargest] returns the length of the longest bucket: no bucket is
    longer than the result, and the result is the length of some bucket, or
    zero when there is no bucket or all are empty. *)
Theorem getLargest_is_longest_bucket (w : World) :
  (∀ k l, hash (this w) !! k = Some l → Z.of_nat (length l) <= getLargest w)
  ∧ (getLargest w = 0
     ∨ ∃ k l, hash (this w) !! k = Some l ∧ Z.of_nat (length l) = getLargest w).
Proof.
  unfold getLargest.
  destruct (fold_largest ((map_to_list (hash (this w))).*2) 0) as (_ & Hall & Hatt).
  split.
  - intros k l Hk. apply Hall, elem_of_buckets. by exists k.
  - destruct Hatt as [H0|(l & Hl & Hr)]; [by left|].
    right. apply elem_of_buckets in Hl as (k & Hk). by exists k, l.
Qed.

(** X2.  [getBuckets(minimum)] returns exactly the buckets with at least
    [minimum] members; with a minimum of zero or less these are all
    buckets, as many as [getNumberOfBuckets] counts, and never more. *)
Theorem getBuckets_threshold (w : World) (minimum : Z) :
  (∀ l, l ∈ getBuckets minimum w
        ↔ minimum <= Z.of_nat (length l) ∧ ∃ k, hash (this w) !! k = Some l)
  ∧ Z.of_nat (length (getBuckets minimum w)) <= getNumberOfBuckets w
  ∧ (minimum <= 0 → Z.of_nat (length (getBuckets minimum w)) = getNumberOfBuckets w).
Proof.
  unfold getBuckets, getNumberOfBuckets.
  assert (length ((map_to_list (hash (this w))).*2) = size (hash (this w))) as Hlen.
  { by rewrite length_fmap, length_map_to_list. }
  split; [|split].
  - intros l. by rewrite list_elem_of_filter, elem_of_buckets.
  - rewrite <- Hlen. apply inj_le, length_filter.
  - intros Hm. rewrite <- Hlen. clear Hlen. f_equal. f_equal.
    induction ((map_to_list (hash (this w))).*2) as [|a L IH]; [done|].
    rewrite filter_cons_True by (cbn; lia). by rewrite IH.
Qed.

(** X3.  The two operands of the quotient that [getAverageSize] returns:
    the denominator counts the non-empty buckets only, the numerator the
    members of all buckets, so the average lies between one and
    [getLargest]; and when no bucket has a member both operands are zero
    (the quotient is [NaN]). *)
Theorem getAverageSize_between_one_and_largest (w : World) :
  let q := getAverageSize w in
  0 <= denominator q
  ∧ denominator q <= numerator q
  ∧ numerator q <= denominator q * getLargest w
  ∧ (denominator q = 0 ↔ ∀ k l, hash (this w) !! k = Some l → l = []).
Proof.
  cbn zeta. unfold getAverageSize, getBuckets. cbn [numerator denominator].
  destruct (fold_total ((map_to_list (hash (this w))).*2) (getLargest w) 0) as (H1 & H2).
  { intros l (k & Hk)%elem_of_buckets. by apply (getLargest_upper w k). }
  split; [lia|]. split; [lia|]. split; [lia|]. split.
  - intros H0 k l Hk. destruct l as [|a l]; [done|]. exfalso.
    assert ((a :: l) ∈ filter (fun l => 1 <= Z.of_nat (length l))
              ((map_to_list (hash (this w))).*2)) as Hin.
    { apply list_elem_of_filter. split; [cbn; lia|]. apply elem_of_buckets. by exists k. }
    destruct (filter _ _); [by apply elem_of_nil in Hin|]. cbn in H0. lia.
  - intros Hempty.
    replace (filter (fun l => 1 <= Z.of_nat (length l)) ((map_to_list (hash (this w))).*2))
      with (@nil (list oid)); [done|].
    symmetry. apply filter_none. intros l (k & Hk)%elem_of_buckets.
    rewrite (Hempty k l Hk). cbn. lia.
Qed.

Lemma fold_jsMin (p : key -> Z) (K : list key) (m : JsNumber) :
  let r := fold_left (fun m k => jsMin (p k) m) K m in
  (∀ v, jsLe m v → jsLe r v) ∧ (∀ k, k ∈ K → jsLe r (p k))
  ∧ (r = m ∨ ∃ k, k ∈ K ∧ r = Num (p k)).
Proof.
  revert m. induction K as [|a K IH]; intros m; cbn [fold_left].
  - split; [done|]. split; [|by left]. intros k Hk. by apply elem_of_nil in Hk.
  - specialize (IH (jsMin (p a) m)). cbn zeta in IH. destruct IH as (Hle & Hall & Hatt).
    assert (jsLe (jsMin (p a) m) (p a) ∧ ∀ v, jsLe m v → jsLe (jsMin (p a) m) v)
      as [Ha Hm].
    { destruct m as [v0|]; cbn; [|by split; [lia|]].
      destruct (Z.ltb_spec (p a) v0); cbn; split; intros; lia. }
    split; [by intros v Hv; apply Hle, Hm|]. split.
    + intros k [->|Hk]%elem_of_cons; [by apply Hle|by apply Hall].
    + destruct Hatt as [Hr|(k & Hk & Hr)].
      * unfold jsMin in Hr |- *. destruct m as [v0|].
        -- destruct (Z.ltb_spec (p a) v0); [|by left].
           right. exists a. split; [left|done].
        -- right. exists a. split; [left|done].
      * right. exists k. split; [by right|done].
Qed.

Lemma fold_jsMax (p : key -> Z) (K : list key) (m : Z) :
  let r := fold_left (fun m k => jsMax (p k) m) K m in
  m <= r ∧ (∀ k, k ∈ K → p k <= r) ∧ (r = m ∨ ∃ k, k ∈ K ∧ r = p k).
Proof.
  revert m. induction K as [|a K IH]; intros m; cbn [fold_left].
  - split; [lia|]. split; [|by left]. intros k Hk. by apply elem_of_nil in Hk.
  - specialize (IH (jsMax (p a) m)). cbn zeta in IH. destruct IH as (Hle & Hall & Hatt).
    assert (p a <= jsMax (p a) m ∧ m <= jsMax (p a) m
            ∧ (jsMax (p a) m = m ∨ jsMax (p a) m = p a)) as (Ha & Hm & Hc).
    { unfold jsMax. destruct (Z.gtb_spec (p a) m); lia. }
    split; [lia|]. split.
    + intros k [->|Hk]%elem_of_cons; [lia|by apply Hall].
    + destruct Hatt as [Hr|(k & Hk & Hr)].
      * destruct Hc as [Hc|Hc]; [left; congruence|].
        right. exists a. split; [left|congruence].
      * right. exists k. split; [by right|done].
Qed.

Lemma worldBounds_fields (K : list key) (b : WorldBounds) :
  let step := fun b k =>
    mkWorldBounds (jsMin k.1 (wxStart b)) (jsMin k.2 (wyStart b))
                  (jsMax k.1 (wxEnd b)) (jsMax k.2 (wyEnd b)) in
  fold_left step K b
  = mkWorldBounds (fold_left (fun m k => jsMin k.1 m) K (wxStart b))
                  (fold_left (fun m k => jsMin k.2 m) K (wyStart b))
                  (fold_left (fun m k => jsMax k.1 m) K (wxEnd b))
                  (fold_left (fun m k => jsMax k.2 m) K (wyEnd b)).
Proof.
  cbn zeta. revert b. induction K as [|a K IH]; intros b; cbn [fold_left].
  - by destruct b.
  - by rewrite IH.
Qed.

(** X4.  [getWorldBounds] encloses every bucket: the key of each bucket lies
    between the starts and the ends.  The starts are the least coordinates
    of a key, and [Infinity] when there is no bucket; the ends start from
    zero, so they are never negative, and are otherwise the greatest
    coordinates of a key. *)
Theorem getWorldBounds_encloses_buckets (w : World) :
  let b := getWorldBounds w in
  (∀ x y, is_Some (hash (this w) !! mkKey x y) →
          jsLe (wxStart b) x ∧ x <= wxEnd b ∧ jsLe (wyStart b) y ∧ y <= wyEnd b)
  ∧ 0 <= wxEnd b ∧ 0 <= wyEnd b
  ∧ (hash (this w) = ∅ → b = mkWorldBounds Infinity Infinity 0 0)
  ∧ (∀ v, wxStart b = Num v → ∃ y, is_Some (hash (this w) !! mkKey v y))
  ∧ (∀ v, wyStart b = Num v → ∃ x, is_Some (hash (this w) !! mkKey x v))
  ∧ (wxEnd b = 0 ∨ ∃ y, is_Some (hash (this w) !! mkKey (wxEnd b) y))
  ∧ (wyEnd b = 0 ∨ ∃ x, is_Some (hash (this w) !! mkKey x (wyEnd b))).
Proof.
  cbn zeta. unfold getWorldBounds. rewrite worldBounds_fields.
  cbn [wxStart wyStart wxEnd wyEnd].
  set (K := (map_to_list (hash (this w))).*1).
  destruct (fold_jsMin fst K Infinity) as (_ & Hx1 & Hx2).
  destruct (fold_jsMin snd K Infinity) as (_ & Hy1 & Hy2).
  destruct (fold_jsMax fst K 0) as (Hx3 & Hx4 & Hx5).
  destruct (fold_jsMax snd K 0) as (Hy3 & Hy4 & Hy5).
  cbn zeta in *.
  refine (conj _ (conj Hx3 (conj Hy3 (conj _ (conj _ (conj _ (conj _ _))))))).
  - intros x y Hk. apply elem_of_keys in Hk. fold K in Hk.
    split; [apply (Hx1 _ Hk)|]. split; [apply (Hx4 _ Hk)|].
    split; [apply (Hy1 _ Hk)|apply (Hy4 _ Hk)].
  - intros He. subst K. rewrite He, map_to_list_empty. reflexivity.
  - intros v Hv. destruct Hx2 as [Hr|([x y] & Hk & Hr)]; [congruence|].
    exists y. apply elem_of_keys. rewrite Hv in Hr. cbn in Hr. by simplify_eq.
  - intros v Hv. destruct Hy2 as [Hr|([x y] & Hk & Hr)]; [congruence|].
    exists x. apply elem_of_keys. rewrite Hv in Hr. cbn in Hr. by simplify_eq.
  - destruct Hx5 as [Hr|([x y] & Hk & Hr)]; [by left|].
    right. exists y. apply elem_of_keys. rewrite Hr. done.
  - destruct Hy5 as [Hr|([x y] & Hk & Hr)]; [by left|].
    right. exists x. apply elem_of_keys. rewrite Hr. done.
Qed.

Lemma fold_sparseness (w : World) (ks : list key) (q : JsQuotient) :
  fold_left (fun q k =>
               mkQuotient (numerator q + (match hash (this w) !! k with
                                          | Some _ => 1 | None => 0 end))
                          (denominator q + 1)) ks q
  = mkQuotient (numerator q + Z.of_nat (length (existingCells w ks)))
               (denominator q + Z.of_nat (length ks)).
Proof.
  revert q. induction ks as [|k ks IH]; intros q; cbn [fold_left].
  - destruct q. cbn. f_equal; lia.
  - rewrite IH. cbn [numerator denominator]. unfold existingCells.
    destruct (hash (this w) !! k) as [l|] eqn:E.
    + rewrite filter_cons_True by (by rewrite E). cbn [length]. f_equal; lia.
    + rewrite filter_cons_False by (rewrite E; by intros [? ?]).
      cbn [length]. f_equal; lia.
Qed.

(** X5.  With non-zero cell sizes where a rectangle is given, the two
    operands of the quotient that [getSparseness] returns: the denominator
    counts the cells visited and the numerator those among them that have a
    bucket, emptied or not, so the quotient is at most one.  For a given
    rectangle the cells visited are those of its range without the last
    column and the last row, which [query] does visit; a rectangle whose
    range is one cell wide or high gives zero over zero. *)
Theorem getSparseness_counts_half_open_range (R : option AABB) (w : World) :
  (is_Some R → xSize (this w) ≠ 0 ∧ ySize (this w) ≠ 0) →
  let q := getSparseness R w in
  numerator q = Z.of_nat (length (existingCells w (sparsenessCells R w)))
  ∧ denominator q = Z.of_nat (length (sparsenessCells R w))
  ∧ 0 <= numerator q <= denominator q
  ∧ ∀ a, R = Some a →
      let b := getBounds (this w) a in
      (∀ x y, mkKey x y ∈ sparsenessCells R w
              ↔ bxStart b <= x < bxEnd b ∧ byStart b <= y < byEnd b)
      ∧ (bxStart b = bxEnd b ∨ byStart b = byEnd b → q = mkQuotient 0 0).
Proof.
  intros _.
  cbn zeta. unfold getSparseness. rewrite fold_sparseness. cbn [numerator denominator].
  split; [lia|]. split; [lia|]. split.
  - split; [lia|]. unfold existingCells.
    pose proof (length_filter (fun k => is_Some (hash (this w) !! k))
                  (sparsenessCells R w)). lia.
  - intros a ->.
    assert (∀ x y, mkKey x y ∈ sparsenessCells (Some a) w
              ↔ bxStart (getBounds (this w) a) <= x < bxEnd (getBounds (this w) a)
                ∧ byStart (getBounds (this w) a) <= y < byEnd (getBounds (this w) a))
      as Hcells.
    { intros x y. unfold sparsenessCells. cbn [wxStart wyStart wxEnd wyEnd fromUntil].
      rewrite list_elem_of_bind. split.
      - intros (y' & (x' & Hk & Hx)%list_elem_of_bind & Hy).
        apply list_elem_of_singleton in Hk. unfold mkKey in Hk. simplify_eq.
        apply elem_of_seqZ in Hx, Hy. lia.
      - intros [Hx Hy]. exists y. rewrite elem_of_seqZ. split; [|lia].
        apply list_elem_of_bind. exists x. rewrite elem_of_seqZ.
        split; [|lia]. by apply list_elem_of_singleton. }
    split; [exact Hcells|]. intros Hd.
    assert (sparsenessCells (Some a) w = []) as ->; [|reflexivity].
    destruct (sparsenessCells (Some a) w) as [|[x y] l] eqn:E; [done|]. exfalso.
    assert (mkKey x y ∈ (x, y) :: l) as Hin by left.
    apply Hcells in Hin. lia.
Qed.

Lemma getSparseness_counts_half_open_range_witness :
  numerator (getSparseness (Some (mkAABB 0 0 250 150)) sharedCellExample)
  = Z.of_nat (length (existingCells sharedCellExample
                        (sparsenessCells (Some (mkAABB 0 0 250 150))
                                         sharedCellExample)))
  ∧ denominator (getSparseness (Some (mkAABB 0 0 250 150)) sharedCellExample)
    = Z.of_nat (length (sparsenessCells (Some (mkAABB 0 0 250 150))
                                        sharedCellExample))
  ∧ 0 <= numerator (getSparseness (Some (mkAABB 0 0 250 150)) sharedCellExample)
      <= denominator (getSparseness (Some (mkAABB 0 0 250 150)) sharedCellExample)
  ∧ ∀ a, Some (mkAABB 0 0 250 150) = Some a →
      (∀ x y, mkKey x y ∈ sparsenessCells (Some (mkAABB 0 0 250 150))
                                          sharedCellExample
              ↔ bxStart (getBounds (this sharedCellExample) a) <= x
                  < bxEnd (getBounds (this sharedCellExample) a)
                ∧ byStart (getBounds (this sharedCellExample) a) <= y
                  < byEnd (getBounds (this sharedCellExample) a))
      ∧ (bxStart (getBounds (this sharedCellExample) a)
         = bxEnd (getBounds (this sharedCellExample) a)
         ∨ byStart (getBounds (this sharedCellExample) a)
           = byEnd (getBounds (this sharedCellExample) a) →
         getSparseness (Some (mkAABB 0 0 250 150)) sharedCellExample
         = mkQuotient 0 0).
Proof.
  apply (getSparseness_counts_half_open_range (Some (mkAABB 0 0 250 150))
           sharedCellExample).
  intros _. split.
  - vm_compute. discriminate.
  - vm_compute. discriminate.
Defined.

(** ** [stats], [invisible] and [neighbors] *)

Lemma fold_countObject (w : World) (l : list oid) (acc : Z * Z) :
  fold_left (countObject w) l acc
  = (acc.1 + Z.of_nat (length (filter (fun o => visible (objs w o) = true) l)),
     acc.2 + Z.of_nat (length l)).
Proof.
  revert acc. induction l as [|o l IH]; intros [v n]; cbn [fold_left].
  - cbn. f_equal; lia.
  - rewrite IH. unfold countObject. cbn [fst snd].
    destruct (visible (objs w o)) eqn:E.
    + rewrite filter_cons_True by done. cbn [length]. f_equal; lia.
    + rewrite filter_cons_False by (by rewrite E). cbn [length]. f_equal; lia.
Qed.

Lemma fold_countChildren (w : World) (cs : list cid) (acc : Z * Z) :
  fold_left (fun acc c => fold_left (countObject w) (children (conts w c)) acc) cs acc
  = (acc.1 + Z.of_nat (length (filter (fun o => visible (objs w o) = true)
                                      (c ← cs; children (conts w c)))),
     acc.2 + Z.of_nat (length (c ← cs; children (conts w c)))).
Proof.
  revert acc. induction cs as [|c cs IH]; intros [v n]; cbn [fold_left].
  - cbn. f_equal; lia.
  - rewrite IH, fold_countObject. cbn [fst snd mbind list_bind].
    rewrite filter_app, !length_app. f_equal; lia.
Qed.

Lemma length_filter_split (w : World) (l : list oid) :
  (length (filter (fun o => visible (objs w o) = true) l)
   + length (filter (fun o => visible (objs w o) = false) l) = length l)%nat.
Proof.
  induction l as [|o l IH]; [done|].
  destruct (visible (objs w o)) eqn:E.
  - rewrite filter_cons_True, filter_cons_False by (by rewrite ?E). cbn. lia.
  - rewrite filter_cons_False, filter_cons_True by (by rewrite ?E). cbn. lia.
Qed.

Lemma stats_alt (w : World) :
  stat_total (stats w) = Z.of_nat (length (trackedList w))
  ∧ stat_visible (stats w)
    = Z.of_nat (length (filter (fun o => visible (objs w o) = true) (trackedList w)))
  ∧ stat_culled (stats w)
    = Z.of_nat (length (filter (fun o => visible (objs w o) = false) (trackedList w))).
Proof.
  unfold stats. cbn zeta. rewrite fold_countChildren, fold_countObject.
  cbn [stat_total stat_visible stat_culled fst snd].
  unfold trackedList, trackedChildren. rewrite !filter_app, !length_app.
  pose proof (length_filter_split w (elements (this w))).
  pose proof (length_filter_split w (c ← containers (this w); children (conts w c))).
  split; [lia|]. split; lia.
Qed.

(** X6.  [stats] counts every listing of a tracked object, an element or a
    child of a registered container: the total is their number, [visible]
    the number of those whose flag is set, [culled] the number of those
    whose flag is clear, and the two add up to the total. *)
Theorem stats_counts_tracked_objects (w : World) :
  stat_total (stats w) = Z.of_nat (length (trackedList w))
  ∧ stat_visible (stats w)
    = Z.of_nat (length (filter (fun o => visible (objs w o) = true) (trackedList w)))
  ∧ stat_culled (stats w)
    = Z.of_nat (length (filter (fun o => visible (objs w o) = false) (trackedList w)))
  ∧ stat_visible (stats w) + stat_culled (stats w) = stat_total (stats w)
  ∧ 0 <= stat_visible (stats w) <= stat_total (stats w).
Proof.
  destruct (stats_alt w) as (Ht & Hv & Hc).
  pose proof (length_filter_split w (trackedList w)).
  split; [done|]. split; [done|]. split; [done|]. lia.
Qed.

Lemma fold_visible_objs (b : bool) (l : list oid) (w : World) (a : oid) :
  objs (fold_left (fun w o => with_obj o (set_visible b) w) l w) a
  = if decide (a ∈ l) then set_visible b (objs w a) else objs w a.
Proof.
  revert w. induction l as [|o l IH]; intros w; cbn [fold_left].
  - rewrite decide_False; [done|]. apply not_elem_of_nil.
  - rewrite IH, objs_with_obj.
    destruct (decide (a = o)) as [->|Hne].
    + rewrite (decide_True (P := o ∈ o :: l)) by left.
      by destruct (decide (o ∈ l)).
    + destruct (decide (a ∈ l)) as [Hin|Hin].
      * by rewrite decide_True by (by right).
      * rewrite decide_False; [done|]. by intros [?|?]%elem_of_cons.
Qed.

Lemma hideChildren_objs (cs : list cid) (w : World) (a : oid) :
  objs (fold_left (fun w c =>
          fold_left (fun w o => with_obj o (set_visible false) w)
                    (children (conts w c)) w) cs w) a
  = if decide (a ∈ (c ← cs; children (conts w c)))
    then set_visible false (objs w a) else objs w a.
Proof.
  revert w. induction cs as [|c cs IH]; intros w; cbn [fold_left].
  - rewrite decide_False; [done|]. apply not_elem_of_nil.
  - rewrite IH, fold_visible_objs.
    destruct (fold_with_obj_frame (set_visible false) (children (conts w c)) w)
      as (_ & Hc & _). cbn zeta in Hc. rewrite Hc.
    cbn [mbind list_bind].
    destruct (decide (a ∈ children (conts w c))) as [H1|H1];
      destruct (decide (a ∈ (c0 ← cs; children (conts w c0)))) as [H2|H2].
    + by rewrite decide_True by (apply elem_of_app; by left).
    + by rewrite decide_True by (apply elem_of_app; by left).
    + by rewrite decide_True by (apply elem_of_app; by right).
    + rewrite decide_False; [done|]. by intros [?|?]%elem_of_app.
Qed.

Lemma invisible_objs (w : World) (a : oid) :
  objs (invisible w) a
  = if decide (a ∈ trackedList w) then set_visible false (objs w a) else objs w a.
Proof.
  unfold invisible.
  destruct (fold_with_obj_frame (set_visible false) (elements (this w)) w)
    as (Ht & Hc & _). cbn zeta in Ht, Hc.
  rewrite Ht, hideChildren_objs, fold_visible_objs, Hc.
  unfold trackedList, trackedChildren.
  destruct (decide (a ∈ elements (this w))) as [H1|H1];
    destruct (decide (a ∈ (c ← containers (this w); children (conts w c)))) as [H2|H2].
  - by rewrite decide_True by (apply elem_of_app; by left).
  - by rewrite decide_True by (apply elem_of_app; by left).
  - by rewrite decide_True by (apply elem_of_app; by right).
  - rewrite decide_False; [done|]. by intros [?|?]%elem_of_app.
Qed.

(** X7.  [invisible] clears the visibility flag of every tracked object and
    changes nothing else: not another field of a tracked object, no
    untracked object, no container and nothing of the index.  Afterwards
    [stats] reports no visible object and every listing as culled. *)
Theorem invisible_hides_tracked_only (w : World) :
  this (invisible w) = this w
  ∧ conts (invisible w) = conts w
  ∧ (∀ a, objs (invisible w) a
          = if decide (a ∈ trackedList w) then set_visible false (objs w a)
            else objs w a)
  ∧ stat_visible (stats (invisible w)) = 0
  ∧ stat_culled (stats (invisible w)) = stat_total (stats w).
Proof.
  destruct (invisible_frame w) as (Ht & Hc & _).
  split; [done|]. split; [done|]. split; [apply invisible_objs|].
  destruct (stats_alt (invisible w)) as (Ht' & Hv' & Hc').
  destruct (stats_alt w) as (Ht0 & _ & _).
  assert (trackedList (invisible w) = trackedList w) as Htl.
  { unfold trackedList, trackedChildren. by rewrite Ht, Hc. }
  rewrite Htl in Ht', Hv', Hc'.
  pose proof (length_filter_split (invisible w) (trackedList w)) as Hs.
  assert (filter (fun o => visible (objs (invisible w) o) = true) (trackedList w) = [])
    as Hnone.
  { apply filter_none. intros a Ha. by rewrite invisible_tracked. }
  rewrite Hnone in Hv', Hs. cbn in Hv', Hs. split; [done|]. lia.
Qed.

(** ** Reachable worlds and [neighbors] *)

Lemma reachable_Inv (w : World) : reachable w → Inv w.
Proof.
  intros (w0 & ops & Hp & Hl & Hr).
  destruct (run_Inv ops w0 (pristine_Inv w0 Hp) Hl) as (w' & Hr' & HInv).
  rewrite Hr in Hr'. by simplify_eq.
Qed.

Lemma reachable_sharedCellExample : reachable sharedCellExample.
Proof.
  exists (exampleWorld true true),
    [OpAdd 0 false; OpAdd 1 false; OpSetTransform 1 (boxAt 20 20 20 20); OpUpdateObjects].
  split; [apply pristine_newWorld; lia|].
  split; vm_compute; reflexivity.
Qed.

Lemma fold_concat {A B : Type} (g : A -> list B) (ks : list A) (r0 : list B) :
  fold_left (fun r k => r ++ g k) ks r0 = r0 ++ (ks ≫= g).
Proof.
  revert r0. induction ks as [|k ks IH]; intros r0; cbn [fold_left mbind list_bind].
  - by rewrite app_nil_r.
  - fold (mbind (M := list) g ks). by rewrite IH, app_assoc.
Qed.

Lemma neighbors_alt (o : oid) (w : World) :
  neighbors o w
  = k ← hashesOf (objs w o);
    match hash (this w) !! k with
    | Some l => Some <$> l
    | None => [None]
    end.
Proof. unfold neighbors. by rewrite fold_concat. Qed.

Lemma elem_of_neighbors (o a : oid) (w : World) :
  Some a ∈ neighbors o w
  ↔ ∃ k, k ∈ hashesOf (objs w o) ∧ inBucket (hash (this w)) k a.
Proof.
  rewrite neighbors_alt, list_elem_of_bind. split.
  - intros (k & Hin & Hk). exists k. split; [done|].
    destruct (hash (this w) !! k) as [l|] eqn:E.
    + apply list_elem_of_fmap in Hin as (a' & [= <-] & Ha). by exists l.
    + apply list_elem_of_singleton in Hin. done.
  - intros (k & Hk & l & Hl & Ha). exists k. split; [|done].
    rewrite Hl. apply list_elem_of_fmap. by exists a.
Qed.

Lemma own_listings (o : oid) (h : gmap key (list oid)) (ks : list key) :
  bucketsNoDup h → (∀ k, k ∈ ks → inBucket h k o) →
  length (filter (fun x => x = Some o)
            (k ← ks; match h !! k with Some l => Some <$> l | None => [None] end))
  = length ks.
Proof.
  intros Hnd. induction ks as [|k ks IH]; intros Hin; [done|].
  cbn [mbind list_bind]. rewrite filter_app, length_app. cbn [length].
  fold (mbind (M := list)
          (fun k => match h !! k with Some l => Some <$> l | None => [None] end) ks).
  rewrite IH by (intros k' Hk'; apply Hin; by right).
  destruct (Hin k) as (l & Hl & Ho); [left|]. rewrite Hl.
  assert (length (filter (fun x => x = Some o) (Some <$> l)) = occurrences o l) as ->.
  { unfold occurrences. clear. induction l as [|b l IH]; [done|].
    rewrite fmap_cons. destruct (decide (b = o)) as [->|Hne].
    - rewrite !filter_cons_True by done. cbn. by rewrite IH.
    - rewrite !filter_cons_False by congruence. done. }
  by rewrite (occurrences_NoDup o l (Hnd k l Hl) Ho).
Qed.

(** X8.  In a world that a disciplined call sequence reaches, [neighbors]
    of an object returns exactly the members of the buckets the object is
    in, and no [undefined] entry.  Being a neighbour is therefore symmetric;
    and the object itself is among its neighbours, listed once for every
    cell it occupies. *)
Theorem neighbors_are_bucket_mates (w : World) (o : oid) :
  reachable w →
  (None ∉ neighbors o w)
  ∧ (∀ a, Some a ∈ neighbors o w
          ↔ ∃ k, inBucket (hash (this w)) k o ∧ inBucket (hash (this w)) k a)
  ∧ (∀ a, Some a ∈ neighbors o w ↔ Some o ∈ neighbors a w)
  ∧ length (filter (fun x => x = Some o) (neighbors o w))
    = length (hashesOf (objs w o)).
Proof.
  intros HInv%reachable_Inv. destruct (inv_indexed w HInv) as [[Hmem Hnd] _ _].
  assert (∀ a b, Some a ∈ neighbors b w
            ↔ ∃ k, inBucket (hash (this w)) k b ∧ inBucket (hash (this w)) k a) as Hn.
  { intros a b. rewrite elem_of_neighbors. split.
    - intros (k & Hk & Ha). exists k. by rewrite Hmem.
    - intros (k & Hk & Ha). exists k. by rewrite <- Hmem. }
  split; [|split; [intros a; apply Hn|split]].
  - rewrite neighbors_alt, list_elem_of_bind. intros (k & Hin & Hk).
    apply Hmem in Hk as (l & Hl & _). rewrite Hl in Hin.
    by apply list_elem_of_fmap in Hin as (? & ? & _).
  - intros a. rewrite !Hn. split; intros (k & ? & ?); by exists k.
  - rewrite neighbors_alt. apply own_listings; [done|].
    intros k Hk. by apply Hmem.
Qed.

Lemma neighbors_are_bucket_mates_witness :
  (None ∉ neighbors 0 sharedCellExample)
  ∧ (∀ a, Some a ∈ neighbors 0 sharedCellExample
          ↔ ∃ k, inBucket (hash (this sharedCellExample)) k 0%nat
                 ∧ inBucket (hash (this sharedCellExample)) k a)
  ∧ (∀ a, Some a ∈ neighbors 0 sharedCellExample
          ↔ Some 0%nat ∈ neighbors a sharedCellExample)
  ∧ length (filter (fun x => x = Some 0%nat) (neighbors 0 sharedCellExample))
    = length (hashesOf (objs sharedCellExample 0)).
Proof.
  apply (neighbors_are_bucket_mates sharedCellExample 0).
  exact reachable_sharedCellExample.
Defined.

(** ** Cell ranges and [updateObject] *)

(** X9.  With positive cell sizes, the cell of every point of a box with
    non-negative width and height is one of the cells of the range that
    [getBounds] gives for the box; in particular the range is not empty. *)
Theorem getBounds_covers_box (sh : SpatialHash) (box : AABB) (px py : Z) :
  0 < xSize sh → 0 < ySize sh →
  aabb_x box <= px <= aabb_x box + aabb_width box →
  aabb_y box <= py <= aabb_y box + aabb_height box →
  mkKey (px / xSize sh) (py / ySize sh) ∈ rangeKeys (getBounds sh box)
  ∧ bxStart (getBounds sh box) <= bxEnd (getBounds sh box)
  ∧ byStart (getBounds sh box) <= byEnd (getBounds sh box).
Proof.
  intros Hx Hy [Hx1 Hx2] [Hy1 Hy2]. unfold mkKey. rewrite elem_of_rangeKeys.
  cbn [getBounds bxStart bxEnd byStart byEnd].
  pose proof (Z.div_le_mono _ _ _ Hx Hx1). pose proof (Z.div_le_mono _ _ _ Hx Hx2).
  pose proof (Z.div_le_mono _ _ _ Hy Hy1). pose proof (Z.div_le_mono _ _ _ Hy Hy2).
  lia.
Qed.

Lemma getBounds_covers_box_witness :
  mkKey (25 / xSize (grid 10 10 true true)) (7 / ySize (grid 10 10 true true))
    ∈ rangeKeys (getBounds (grid 10 10 true true) (mkAABB 5 5 30 10))
  ∧ bxStart (getBounds (grid 10 10 true true) (mkAABB 5 5 30 10))
    <= bxEnd (getBounds (grid 10 10 true true) (mkAABB 5 5 30 10))
  ∧ byStart (getBounds (grid 10 10 true true) (mkAABB 5 5 30 10))
    <= byEnd (getBounds (grid 10 10 true true) (mkAABB 5 5 30 10)).
Proof.
  apply (getBounds_covers_box (grid 10 10 true true) (mkAABB 5 5 30 10) 25 7);
    cbn; lia.
Defined.

Lemma updateObject_cheap (o : oid) (w : World) :
  upToDate (this w) (objs w o) →
  updateObject o w
  = Returned (with_obj o (fun d => set_spatial (Some (spatialOf d)) d)
                (with_obj o (set_cachedAABB (Some (computeAABB (objs w o)))) w)).
Proof.
  intros Hup. unfold updateObject. cbn zeta.
  rewrite !objs_with_obj_eq.
  replace (spatialOf (set_spatial (Some (spatialOf (set_cachedAABB
             (Some (computeAABB (objs w o))) (objs w o))))
             (set_cachedAABB (Some (computeAABB (objs w o))) (objs w o))))
    with (spatialOf (objs w o)) by done.
  replace (this (with_obj o (fun d => set_spatial (Some (spatialOf d)) d)
                   (with_obj o (set_cachedAABB (Some (computeAABB (objs w o)))) w)))
    with (this w) by done.
  unfold upToDate in Hup. by rewrite Hup.
Qed.

Lemma updateObject_spatial (o : oid) (w w1 : World) :
  updateObject o w = Returned w1 → is_Some (spatial (objs w1 o)).
Proof.
  unfold updateObject. cbn zeta. destruct (rangeChanged _ _).
  - intros (w2 & _ & [= <-])%obind_Returned. rewrite objs_with_obj_eq. by eexists.
  - intros [= <-]. rewrite objs_with_obj_eq. by eexists.
Qed.

(** X10.  [updateObject] is idempotent: when a call returns, a second call
    on the same object returns too and changes nothing, no bucket and no
    field of any object. *)
Theorem updateObject_twice (o : oid) (w w1 : World) :
  updateObject o w = Returned w1 →
  ∃ w2, updateObject o w1 = Returned w2
    ∧ this w2 = this w1 ∧ conts w2 = conts w1
    ∧ ∀ a, objs w2 a = objs w1 a.
Proof.
  intros H1. destruct (updateObject_spatial o w w1 H1) as [sp Hsp].
  apply updateObject_frame in H1 as (_ & _ & Hb & Hc & _ & Hup & _).
  rewrite (updateObject_cheap o w1 Hup). eexists. split; [reflexivity|].
  split; [done|]. split; [done|]. intros a. rewrite !objs_with_obj.
  destruct (decide (a = o)) as [->|Hne]; [|done].
  rewrite !decide_True by done.
  apply sameBody_fields in Hb as (Hbox & _). rewrite Hbox. unfold spatialOf.
  destruct (objs w1 o). cbn in Hc, Hsp |- *. by rewrite Hc, Hsp.
Qed.

Lemma updateObject_twice_witness :
  ∃ w2, updateObject 0 (returned addedExample (updateObject 0 addedExample))
        = Returned w2
    ∧ this w2 = this (returned addedExample (updateObject 0 addedExample))
    ∧ conts w2 = conts (returned addedExample (updateObject 0 addedExample))
    ∧ ∀ a, objs w2 a
           = objs (returned addedExample (updateObject 0 addedExample)) a.
Proof.
  apply (updateObject_twice 0 addedExample
           (returned addedExample (updateObject 0 addedExample))).
  vm_compute. reflexivity.
Defined.

(** X11.  The index has no false negatives: in a world that a call
    sequence reaches under the discipline of [guard], the conditions on
    children that join or leave a container included, two tracked objects whose cached boxes have
    non-negative width and height and intersect occupy a common bucket, so
    each is among the [neighbors] of the other. *)
Theorem intersecting_objects_are_neighbors (w : World) (a b : oid) (boxa boxb : AABB) :
  reachable w → a ∈ trackedList w → b ∈ trackedList w →
  cachedAABB (objs w a) = Some boxa → cachedAABB (objs w b) = Some boxb →
  0 <= aabb_width boxa → 0 <= aabb_height boxa →
  0 <= aabb_width boxb → 0 <= aabb_height boxb →
  intersects boxa boxb = true →
  (∃ k, inBucket (hash (this w)) k a ∧ inBucket (hash (this w)) k b)
  ∧ Some b ∈ neighbors a w ∧ Some a ∈ neighbors b w.
Proof.
  intros HInv%reachable_Inv Ha Hb Hca Hcb Hwa Hha Hwb Hhb Hint.
  destruct (ranges_meet (this w) boxa boxb) as (k & Hka & Hkb);
    [apply HInv|apply HInv|done..|].
  apply (Inv_cells w a boxa k HInv Ha Hca) in Hka.
  apply (Inv_cells w b boxb k HInv Hb Hcb) in Hkb.
  split; [by exists k|].
  rewrite !elem_of_neighbors. split; exists k.
  - split; [by apply Inv_membership|done].
  - split; [by apply Inv_membership|done].
Qed.

Lemma intersecting_objects_are_neighbors_witness :
  (∃ k, inBucket (hash (this sharedCellExample)) k 0%nat
        ∧ inBucket (hash (this sharedCellExample)) k 1%nat)
  ∧ Some 1%nat ∈ neighbors 0 sharedCellExample
  ∧ Some 0%nat ∈ neighbors 1 sharedCellExample.
Proof.
  apply (intersecting_objects_are_neighbors sharedCellExample 0 1
           (mkAABB 10 10 20 20) (mkAABB 20 20 20 20)).
  - exact reachable_sharedCellExample.
  - vm_compute. left.
  - vm_compute. right. left.
  - vm_compute. reflexivity.
  - vm_compute. reflexivity.
  - cbn. lia.
  - cbn. lia.
  - cbn. lia.
  - cbn. lia.
  - vm_compute. reflexivity.
Defined.

(** ** [add] and [remove] *)

Lemma add_prepare (o : oid) (s : bool) (w : World) :
  add o s w
  = let! w1 := updateObject o (prepareAdd o s w) in
    Returned (with_this (fun sh => set_elements (elements sh ++ [o]) sh) w1).
Proof. reflexivity. Qed.

Lemma prepareAdd_fields (o : oid) (s : bool) (w : World) :
  this (prepareAdd o s w) = this w
  ∧ (∀ a, a ≠ o → objs (prepareAdd o s w) a = objs w a)
  ∧ computeAABB (objs (prepareAdd o s w) o) = computeAABB (objs w o)
  ∧ dirty (objs (prepareAdd o s w) o) = dirtyTest (this w) || dirty (objs w o)
  ∧ staticObject (objs (prepareAdd o s w) o) = s || staticObject (objs w o)
  ∧ visible (objs (prepareAdd o s w) o) = visible (objs w o).
Proof.
  unfold prepareAdd. cbn [this with_obj].
  destruct (dirtyTest (this w)), s; cbn [this with_obj objs];
    (split; [done|]); (split; [intros a Ha; by rewrite !upd_ne by done|]);
    rewrite !upd_eq; done.
Qed.

Lemma hashesOf_purged (sp : option Spatial) (d' : DisplayObject) :
  spatial d' = set_hashes [] <$> sp → hashesOf d' = [].
Proof.
  intros H. unfold hashesOf, spatialOf. rewrite H. by destruct sp.
Qed.

Lemma add_effect (o : oid) (s : bool) (w : World) :
  Inv w → o ∉ trackedList w →
  ∃ w', add o s w = Returned w' ∧ Inv w'
    ∧ elements (this w') = elements (this w) ++ [o]
    ∧ containers (this w') = containers (this w)
    ∧ conts w' = conts w
    ∧ cachedAABB (objs w' o) = Some (computeAABB (objs w o))
    ∧ sameBody (objs (prepareAdd o s w) o) (objs w' o)
    ∧ (∀ a, a ≠ o → objs w' a = objs w a)
    ∧ getBounds (this w') = getBounds (this w)
    ∧ keepsKeys (hash (this w)) (hash (this w')).
Proof.
  intros HInv Ho. destruct (add_Inv o s w HInv Ho) as (w' & Hadd & HInv').
  exists w'. split; [done|]. split; [done|].
  rewrite add_prepare in Hadd. apply obind_Returned in Hadd as (w1 & H1 & Hret).
  revert Hret. intros [= <-].
  apply updateObject_frame in H1 as (Hcfg & Hoth & Hb & Hc & Hkeys & _).
  destruct (prepareAdd_fields o s w) as (Ht & Hpo & Hbox & _).
  destruct (sameConfig_fields _ _ Hcfg) as (Hconts & Hx & Hy & _ & _ & He & Hk).
  rewrite Ht in Hx, Hy, He, Hk, Hkeys.
  cbn [this with_this objs conts elements set_elements containers].
  split; [by rewrite He|]. split; [done|]. split.
  { rewrite Hconts. unfold prepareAdd.
    destruct (dirtyTest _), s; reflexivity. }
  split; [by rewrite Hc, Hbox|]. split; [done|].
  split; [intros a Ha; by rewrite Hoth, Hpo|].
  split; [|done]. unfold getBounds. cbn [xSize ySize set_elements]. by rewrite Hx, Hy.
Qed.

Lemma remove_effect (o : oid) (w : World) :
  Inv w → o ∈ elements (this w) →
  ∃ w', remove o w = Returned w' ∧ Inv w'
    ∧ elements (this w') = splice1 (indexOf o (elements (this w))) (elements (this w))
    ∧ containers (this w') = containers (this w)
    ∧ conts w' = conts w
    ∧ hashesOf (objs w' o) = []
    ∧ cachedAABB (objs w' o) = cachedAABB (objs w o)
    ∧ sameBody (objs w o) (objs w' o)
    ∧ (∀ a, a ≠ o → objs w' a = objs w a)
    ∧ keepsKeys (hash (this w)) (hash (this w')).
Proof.
  intros HInv Ho. destruct (remove_Inv o w HInv Ho) as (w' & Hrem & HInv').
  exists w'. split; [done|]. split; [done|].
  unfold remove in Hrem.
  apply removeFromHash_frame in Hrem as (Hcfg & Hoth & Hb & Hc & Hkeys & Hsp).
  destruct (sameConfig_fields _ _ Hcfg) as (Hconts & _ & _ & _ & _ & He & Hk).
  split; [done|]. split; [done|]. split; [done|].
  split; [by eapply hashesOf_purged|]. split; [done|]. split; [done|].
  split; [done|]. intros k Hk'. by apply Hkeys.
Qed.

Lemma bucket_mates_kept (w w' : World) (a : oid) (k : key) :
  Inv w → Inv w' → objs w' a = objs w a →
  inBucket (hash (this w')) k a ↔ inBucket (hash (this w)) k a.
Proof. intros HInv HInv' Ha. by rewrite !Inv_membership, Ha. Qed.

(** X12.  Registration assigns the cells at once.  In a world that a
    disciplined call sequence reaches, [add] of an untracked object returns;
    afterwards the object is the last element, its cached box is the box of
    its transform, and it is a member of exactly the buckets of the cells of
    that box.  Its [staticObject] flag is set when asked for, its [dirty]
    flag is set in dirty-test mode and stays set after the call, and no
    other object, bucket membership or registration changes. *)
Theorem add_indexes_object (w : World) (o : oid) (s : bool) :
  reachable w → o ∉ trackedList w →
  ∃ w', add o s w = Returned w'
    ∧ elements (this w') = elements (this w) ++ [o]
    ∧ containers (this w') = containers (this w)
    ∧ cachedAABB (objs w' o) = Some (computeAABB (objs w o))
    ∧ (∀ k, inBucket (hash (this w')) k o
            ↔ k ∈ rangeKeys (getBounds (this w) (computeAABB (objs w o))))
    ∧ dirty (objs w' o) = dirtyTest (this w) || dirty (objs w o)
    ∧ staticObject (objs w' o) = s || staticObject (objs w o)
    ∧ (∀ a, a ≠ o → objs w' a = objs w a)
    ∧ (∀ k a, a ≠ o → inBucket (hash (this w')) k a ↔ inBucket (hash (this w)) k a).
Proof.
  intros HInv%reachable_Inv Ho.
  destruct (add_effect o s w HInv Ho)
    as (w' & Hadd & HInv' & He & Hk & _ & Hc & Hb & Hoth & Hgb & _).
  exists w'. split; [done|]. split; [done|]. split; [done|]. split; [done|].
  destruct (prepareAdd_fields o s w) as (_ & _ & _ & Hd & Hs & _).
  apply sameBody_fields in Hb as (_ & Hd' & Hs' & _).
  split.
  { assert (o ∈ trackedList w') as Hin.
    { apply elem_of_trackedList. left. rewrite He. apply elem_of_app. right. left. }
    intros k. by rewrite (Inv_cells w' o _ k HInv' Hin Hc), Hgb. }
  split; [by rewrite Hd'|]. split; [by rewrite Hs'|]. split; [done|].
  intros k a Ha. apply bucket_mates_kept; [done|done|by apply Hoth].
Qed.

Lemma add_indexes_object_witness :
  ∃ w', add 3 true sharedCellExample = Returned w'
    ∧ elements (this w') = elements (this sharedCellExample) ++ [3%nat]
    ∧ containers (this w') = containers (this sharedCellExample)
    ∧ cachedAABB (objs w' 3) = Some (computeAABB (objs sharedCellExample 3))
    ∧ (∀ k, inBucket (hash (this w')) k 3%nat
            ↔ k ∈ rangeKeys (getBounds (this sharedCellExample)
                               (computeAABB (objs sharedCellExample 3))))
    ∧ dirty (objs w' 3)
      = dirtyTest (this sharedCellExample) || dirty (objs sharedCellExample 3)
    ∧ staticObject (objs w' 3) = true || staticObject (objs sharedCellExample 3)
    ∧ (∀ a, a ≠ 3%nat → objs w' a = objs sharedCellExample a)
    ∧ (∀ k a, a ≠ 3%nat → inBucket (hash (this w')) k a
                          ↔ inBucket (hash (this sharedCellExample)) k a).
Proof.
  apply (add_indexes_object sharedCellExample 3 true).
  - exact reachable_sharedCellExample.
  - refine (bool_decide_unpack _ _). vm_compute. exact I.
Defined.

(** X13.  In a world that a disciplined call sequence reaches, [remove] of
    an element returns; afterwards the object is no element, no bucket has
    it as a member and it is among the [neighbors] of no object, while its
    cached box stays as it was.  No bucket disappears, and no other
    element, object or bucket membership changes. *)
Theorem remove_unindexes_object (w : World) (o : oid) :
  reachable w → o ∈ elements (this w) →
  ∃ w', remove o w = Returned w'
    ∧ (∀ a, a ∈ elements (this w') ↔ a ∈ elements (this w) ∧ a ≠ o)
    ∧ containers (this w') = containers (this w)
    ∧ (∀ k, ¬ inBucket (hash (this w')) k o)
    ∧ (∀ b, Some o ∉ neighbors b w')
    ∧ cachedAABB (objs w' o) = cachedAABB (objs w o)
    ∧ keepsKeys (hash (this w)) (hash (this w'))
    ∧ (∀ a, a ≠ o → objs w' a = objs w a)
    ∧ (∀ k a, a ≠ o → inBucket (hash (this w')) k a ↔ inBucket (hash (this w)) k a).
Proof.
  intros HInv%reachable_Inv Ho.
  destruct (remove_effect o w HInv Ho)
    as (w' & Hrem & HInv' & He & Hk & _ & Hh & Hc & _ & Hoth & Hkeys).
  exists w'. split; [done|].
  assert (∀ k, ¬ inBucket (hash (this w')) k o) as Hout.
  { intros k. rewrite Inv_membership, Hh by done. apply not_elem_of_nil. }
  split.
  { intros a. rewrite He. apply splice_indexOf_elem; [done|]. apply HInv. }
  split; [done|]. split; [done|]. split.
  { intros b (k & _ & Hin)%elem_of_neighbors. by apply (Hout k). }
  split; [done|]. split; [done|]. split; [done|].
  intros k a Ha. apply bucket_mates_kept; [done|done|by apply Hoth].
Qed.

Lemma remove_unindexes_object_witness :
  ∃ w', remove 0 sharedCellExample = Returned w'
    ∧ (∀ a, a ∈ elements (this w') ↔ a ∈ elements (this sharedCellExample) ∧ a ≠ 0%nat)
    ∧ containers (this w') = containers (this sharedCellExample)
    ∧ (∀ k, ¬ inBucket (hash (this w')) k 0%nat)
    ∧ (∀ b, Some 0%nat ∉ neighbors b w')
    ∧ cachedAABB (objs w' 0) = cachedAABB (objs sharedCellExample 0)
    ∧ keepsKeys (hash (this sharedCellExample)) (hash (this w'))
    ∧ (∀ a, a ≠ 0%nat → objs w' a = objs sharedCellExample a)
    ∧ (∀ k a, a ≠ 0%nat → inBucket (hash (this w')) k a
                          ↔ inBucket (hash (this sharedCellExample)) k a).
Proof.
  apply (remove_unindexes_object sharedCellExample 0).
  - exact reachable_sharedCellExample.
  - vm_compute. left.
Defined.

(** X14.  [add] followed by [remove] of the same object is a round trip for
    the bookkeeping: in a world that a disciplined call sequence reaches,
    both calls return for an untracked object, and afterwards the elements,
    the registered containers, every other object and the members of every
    bucket are as before.  What remains are the buckets the object created,
    now empty, and its cached box. *)
Theorem add_then_remove_restores (w : World) (o : oid) (s : bool) :
  reachable w → o ∉ trackedList w →
  ∃ w1 w2, add o s w = Returned w1 ∧ remove o w1 = Returned w2
    ∧ elements (this w2) = elements (this w)
    ∧ containers (this w2) = containers (this w)
    ∧ (∀ k a, inBucket (hash (this w2)) k a ↔ inBucket (hash (this w)) k a)
    ∧ keepsKeys (hash (this w)) (hash (this w2))
    ∧ (∀ a, a ≠ o → objs w2 a = objs w a)
    ∧ cachedAABB (objs w2 o) = Some (computeAABB (objs w o)).
Proof.
  intros HInv%reachable_Inv Ho.
  destruct (add_effect o s w HInv Ho)
    as (w1 & Hadd & HInv1 & He1 & Hk1 & _ & Hc1 & _ & Hoth1 & _ & Hkeys1).
  assert (o ∈ elements (this w1)) as Ho1.
  { rewrite He1. apply elem_of_app. right. left. }
  destruct (remove_effect o w1 HInv1 Ho1)
    as (w2 & Hrem & HInv2 & He2 & Hk2 & _ & Hh2 & Hc2 & _ & Hoth2 & Hkeys2).
  exists w1, w2. split; [done|]. split; [done|].
  assert (o ∉ elements (this w)) as Hoe.
  { intros Hin. apply Ho, elem_of_trackedList. by left. }
  split.
  { rewrite He2, He1, (indexOf_first o (elements (this w)) [] Hoe), splice1_at.
    apply app_nil_r. }
  split; [by rewrite Hk2|]. split.
  { intros k a. rewrite !Inv_membership by done.
    destruct (decide (a = o)) as [->|Hne].
    - by rewrite Hh2, (ix_untracked _ _ (inv_indexed w HInv) o Ho).
    - by rewrite Hoth2, Hoth1. }
  split; [by eapply keepsKeys_trans|].
  split; [intros a Ha; by rewrite Hoth2, Hoth1|]. by rewrite Hc2.
Qed.

Lemma add_then_remove_restores_witness :
  ∃ w1 w2, add 3 false sharedCellExample = Returned w1 ∧ remove 3 w1 = Returned w2
    ∧ elements (this w2) = elements (this sharedCellExample)
    ∧ containers (this w2) = containers (this sharedCellExample)
    ∧ (∀ k a, inBucket (hash (this w2)) k a
              ↔ inBucket (hash (this sharedCellExample)) k a)
    ∧ keepsKeys (hash (this sharedCellExample)) (hash (this w2))
    ∧ (∀ a, a ≠ 3%nat → objs w2 a = objs sharedCellExample a)
    ∧ cachedAABB (objs w2 3) = Some (computeAABB (objs sharedCellExample 3)).
Proof.
  apply (add_then_remove_restores sharedCellExample 3 false).
  - exact reachable_sharedCellExample.
  - refine (bool_decide_unpack _ _). vm_compute. exact I.
Defined.

(** ** The queries *)

Lemma testEntry_filter (w : World) (R : AABB) (entry results : list oid) :
  (∀ a, a ∈ entry → is_Some (cachedAABB (objs w a))) →
  testEntry w R entry results
  = Returned (results ++ filter (fun a => hitsBox w R a = true) entry).
Proof.
  revert results. induction entry as [|o entry IH]; intros results Hbox; cbn [testEntry].
  - by rewrite app_nil_r.
  - destruct (Hbox o) as [box Hb]; [left|]. rewrite Hb.
    rewrite IH by (intros a Ha; apply Hbox; by right).
    destruct (intersects box R) eqn:E.
    + rewrite filter_cons_True by (unfold hitsBox; by rewrite Hb).
      by rewrite <- app_assoc.
    + rewrite filter_cons_False; [done|]. unfold hitsBox. rewrite Hb, E. done.
Qed.

Lemma filter_all {A : Type} (P : A -> Prop) `{∀ x, Decision (P x)} (l : list A) :
  (∀ x, x ∈ l → P x) → filter P l = l.
Proof.
  induction l as [|x l IH]; intros Hl; [done|].
  rewrite filter_cons_True by (apply Hl; left). f_equal.
  apply IH. intros y Hy. apply Hl. by right.
Qed.

Lemma queryCells_exact (w : World) (R : AABB) (simple : bool) (ks : list key)
    (acc : list oid * Z) :
  (simple = true →
   ∀ k a, k ∈ ks → inBucket (hash (this w)) k a → is_Some (cachedAABB (objs w a))) →
  forEach (queryCell w R simple) ks acc
  = Returned (acc.1 ++ filter (fun a => simple = false ∨ hitsBox w R a = true)
                         (bucketMembers w ks),
              acc.2 + Z.of_nat (length (existingCells w ks))).
Proof.
  revert acc. induction ks as [|k ks IH]; intros [r0 n0] Hbox; cbn [forEach].
  - cbn. by rewrite app_nil_r, Z.add_0_r.
  - unfold bucketMembers, existingCells in *. cbn [mbind list_bind].
    fold (mbind (M := list) (fun k => default [] (hash (this w) !! k)) ks).
    unfold queryCell at 1. destruct (hash (this w) !! k) as [entry|] eqn:Hk.
    + rewrite filter_cons_True by (by rewrite Hk). cbn [default length fst snd].
      assert ((if simple then testEntry w R entry r0 else Returned (r0 ++ entry))
              = Returned (r0 ++ filter (fun a => simple = false ∨ hitsBox w R a = true)
                                       entry)) as ->.
      { destruct simple.
        - rewrite testEntry_filter.
          + f_equal. f_equal. apply list_filter_iff. intros a. split; [by right|].
            by intros [?|?].
          + intros a Ha. apply (Hbox eq_refl k); [left|by exists entry].
        - f_equal. f_equal. symmetry. apply filter_all. intros a _. by left. }
      cbn [obind]. rewrite IH.
      * cbn [fst snd]. rewrite filter_app, app_assoc. f_equal. f_equal. lia.
      * intros Hs k' a Hk'. apply (Hbox Hs). by right.
    + rewrite filter_cons_False by (rewrite Hk; by intros [? ?]).
      cbn [obind default app]. rewrite IH; [done|].
      intros Hs k' a Hk'. apply (Hbox Hs). by right.
Qed.

Lemma query_exact (R : AABB) (simple : bool) (w : World) :
  (simple = true →
   ∀ k a, k ∈ rangeKeys (getBounds (this w) R) → inBucket (hash (this w)) k a →
          is_Some (cachedAABB (objs w a))) →
  query R simple w
  = Returned (filter (fun a => simple = false ∨ hitsBox w R a = true)
                     (bucketMembers w (rangeKeys (getBounds (this w) R))),
              with_this (set_lastBuckets
                (Z.of_nat (length (existingCells w (rangeKeys (getBounds (this w) R))))))
                w).
Proof.
  intros Hbox. unfold query. by rewrite queryCells_exact.
Qed.

Lemma query_plain (R : AABB) (w : World) :
  query R false w
  = Returned (bucketMembers w (rangeKeys (getBounds (this w) R)),
              with_this (set_lastBuckets
                (Z.of_nat (length (existingCells w (rangeKeys (getBounds (this w) R))))))
                w).
Proof.
  rewrite query_exact by done. f_equal. f_equal.
  apply filter_all. intros a _. by left.
Qed.

(** X15.  With non-zero cell sizes and without the simple test, [query]
    never throws: it returns the members of the buckets of the cells of the
    rectangle's range, bucket after bucket in the order of the traversal, so
    an object is listed once for every such cell it occupies; and it records
    the number of those cells that have a bucket. *)
Theorem query_without_simple_test (R : AABB) (w : World) :
  xSize (this w) ≠ 0 → ySize (this w) ≠ 0 →
  query R false w
  = Returned (bucketMembers w (rangeKeys (getBounds (this w) R)),
              with_this (set_lastBuckets
                (Z.of_nat (length (existingCells w (rangeKeys (getBounds (this w) R))))))
                w).
Proof.
  intros _ _.
  unfold query. rewrite queryCells_exact by done. cbn [obind fst snd app].
  f_equal. f_equal. apply filter_all. intros a _. by left.
Qed.

Lemma query_without_simple_test_witness :
  query (mkAABB 0 0 150 50) false sharedCellExample
  = Returned (bucketMembers sharedCellExample
                (rangeKeys (getBounds (this sharedCellExample) (mkAABB 0 0 150 50))),
              with_this (set_lastBuckets
                (Z.of_nat (length (existingCells sharedCellExample
                   (rangeKeys (getBounds (this sharedCellExample)
                                 (mkAABB 0 0 150 50)))))))
                sharedCellExample).
Proof.
  apply (query_without_simple_test (mkAABB 0 0 150 50) sharedCellExample).
  - vm_compute. discriminate.
  - vm_compute. discriminate.
Defined.

(** X16.  With non-zero cell sizes and the simple test, when every member
    of a bucket in range has a cached box, [query] returns those results of
    the query without the simple test whose cached box intersects the
    rectangle, in the same order, and records the same number of buckets. *)
Theorem query_with_simple_test (R : AABB) (w : World) :
  xSize (this w) ≠ 0 → ySize (this w) ≠ 0 →
  (∀ k a, k ∈ rangeKeys (getBounds (this w) R) → inBucket (hash (this w)) k a →
          is_Some (cachedAABB (objs w a))) →
  ∃ r n, query R false w = Returned (r, with_this (set_lastBuckets n) w)
    ∧ query R true w
      = Returned (filter (fun a => hitsBox w R a = true) r,
                  with_this (set_lastBuckets n) w).
Proof.
  intros _ _ Hbox. eexists _, _. split; [apply query_plain|].
  rewrite query_exact by (intros _; exact Hbox). f_equal. f_equal.
  apply list_filter_iff. intros a. split; [by intros [?|?]|by right].
Qed.

Lemma query_with_simple_test_witness :
  ∃ r n, query (mkAABB 0 0 15 15) false sharedCellExample
         = Returned (r, with_this (set_lastBuckets n) sharedCellExample)
    ∧ query (mkAABB 0 0 15 15) true sharedCellExample
      = Returned (filter (fun a => hitsBox sharedCellExample (mkAABB 0 0 15 15) a = true) r,
                  with_this (set_lastBuckets n) sharedCellExample).
Proof.
  apply (query_with_simple_test (mkAABB 0 0 15 15) sharedCellExample).
  - vm_compute. discriminate.
  - vm_compute. discriminate.
  - intros k a _ Hin. eapply indexedT_boxes; [|exact Hin].
    apply inv_indexed, reachable_Inv, reachable_sharedCellExample.
Defined.

(** ** The callback queries *)

(** X17.  [queryCallbackAll] is [query] with a callback: it throws when
    [query] throws, and otherwise returns the same results and leaves the
    same world, and it has called the callback on exactly the results, in
    their order; the value the callback returns has no effect. *)
Theorem queryCallbackAll_calls_on_results (R : AABB) (simple : bool) (cb : callback)
    (w : World) :
  queryCallbackAll R simple cb w
  = match query R simple w with
    | Returned (r, w') => Returned (r, r, w')
    | Thrown e => Thrown e
    end.
Proof.
  rewrite queryCallbackAll_query. by destruct (query R simple w) as [[r w']|e].
Qed.

Lemma untilHit_none (cb : callback) (l : list oid) :
  existsb cb l = false → untilHit cb l = l.
Proof.
  induction l as [|a l IH]; [done|]. cbn [existsb untilHit].
  destruct (cb a); [done|]. intros H. by rewrite IH.
Qed.

Lemma untilHit_app (cb : callback) (l1 l2 : list oid) :
  untilHit cb (l1 ++ l2)
  = if existsb cb l1 then untilHit cb l1 else l1 ++ untilHit cb l2.
Proof.
  induction l1 as [|a l1 IH]; [done|]. cbn [app existsb untilHit].
  destruct (cb a); [done|]. cbn [orb]. rewrite IH. by destruct (existsb cb l1).
Qed.

Lemma callbackEntry_spec (w : World) (R : AABB) (simple : bool) (cb : callback)
    (entry calls : list oid) :
  (simple = true → ∀ a, a ∈ entry → is_Some (cachedAABB (objs w a))) →
  callbackEntry w R simple cb entry calls
  = Returned
      (existsb cb (filter (fun a => passesCallbackTest w simple a = true) entry),
       calls ++ untilHit cb (filter (fun a => passesCallbackTest w simple a = true) entry)).
Proof.
  revert calls. induction entry as [|o entry IH]; intros calls Hbox;
    cbn [callbackEntry].
  - cbn. by rewrite app_nil_r.
  - assert (simple = true → ∀ a, a ∈ entry → is_Some (cachedAABB (objs w a))) as Hbox'.
    { intros Hs a Ha. apply (Hbox Hs). by right. }
    destruct simple.
    + destruct (Hbox eq_refl o) as [box Hb]; [left|]. rewrite Hb.
      destruct (intersects box box) eqn:E.
      * rewrite filter_cons_True by (unfold passesCallbackTest; by rewrite Hb).
        cbn [existsb untilHit]. destruct (cb o); [done|].
        rewrite IH by done. cbn [orb]. by rewrite <- app_assoc.
      * rewrite filter_cons_False
          by (unfold passesCallbackTest; rewrite Hb, E; done).
        by apply IH.
    + rewrite filter_cons_True by done.
      cbn [existsb untilHit]. destruct (cb o); [done|].
      rewrite IH by done. cbn [orb]. by rewrite <- app_assoc.
Qed.

Lemma callbackCells_spec (w : World) (R : AABB) (simple : bool) (cb : callback)
    (ks : list key) (calls : list oid) :
  (simple = true →
   ∀ k a, k ∈ ks → inBucket (hash (this w)) k a → is_Some (cachedAABB (objs w a))) →
  callbackCells w R simple cb ks calls
  = Returned (existsb cb (callbackCandidates w simple ks),
              calls ++ untilHit cb (callbackCandidates w simple ks)).
Proof.
  revert calls. induction ks as [|k ks IH]; intros calls Hbox; cbn [callbackCells].
  - cbn. by rewrite app_nil_r.
  - assert (simple = true → ∀ k' a, k' ∈ ks → inBucket (hash (this w)) k' a →
                            is_Some (cachedAABB (objs w a))) as Hbox'.
    { intros Hs k' a Hk'. apply (Hbox Hs). by right. }
    unfold callbackCandidates. cbn [mbind list_bind].
    fold (mbind (M := list)
            (fun k => filter (fun a => passesCallbackTest w simple a = true)
                             (default [] (hash (this w) !! k))) ks).
    fold (callbackCandidates w simple ks).
    destruct (hash (this w) !! k) as [entry|] eqn:Hk; cbn [default from_option id].
    + rewrite callbackEntry_spec
        by (intros Hs a Ha; apply (Hbox Hs k); [left|by exists entry]).
      cbn [obind fst snd]. rewrite existsb_app, untilHit_app.
      destruct (existsb cb (filter _ entry)) eqn:E; [done|].
      rewrite IH by done. cbn [orb].
      by rewrite (untilHit_none cb _ E), <- app_assoc.
    + rewrite filter_nil. cbn [app]. by apply IH.
Qed.

Lemma elem_of_callbackCandidates (w : World) (simple : bool) (ks : list key) (a : oid) :
  a ∈ callbackCandidates w simple ks
  ↔ (∃ k, k ∈ ks ∧ inBucket (hash (this w)) k a)
    ∧ passesCallbackTest w simple a = true.
Proof.
  unfold callbackCandidates. rewrite list_elem_of_bind. split.
  - intros (k & [Hp Hin]%list_elem_of_filter & Hk). split; [|done].
    exists k. split; [done|]. destruct (hash (this w) !! k) as [l|] eqn:E.
    + by exists l.
    + by apply elem_of_nil in Hin.
  - intros [(k & Hk & l & Hl & Ha) Hp]. exists k. split; [|done].
    apply list_elem_of_filter. split; [done|]. by rewrite Hl.
Qed.

(** X18.  With non-zero cell sizes, [queryCallback] stops at the first
    hit.  Its candidates are the members of the buckets of the cells of the
    rectangle's range, in traversal order; with the simple test only those
    whose cached box has positive width and height, whatever the rectangle.
    The call returns whether the callback accepts a candidate, and the
    callback has been called on the candidates up to and including the
    first it accepts. *)
Theorem queryCallback_stops_at_first_hit (R : AABB) (cb : callback) (simple : bool)
    (w : World) :
  xSize (this w) ≠ 0 → ySize (this w) ≠ 0 →
  (simple = true →
   ∀ k a, k ∈ rangeKeys (getBounds (this w) R) → inBucket (hash (this w)) k a →
          is_Some (cachedAABB (objs w a))) →
  let cands := callbackCandidates w simple (rangeKeys (getBounds (this w) R)) in
  queryCallback R cb simple w = Returned (existsb cb cands, untilHit cb cands)
  ∧ (∀ a, a ∈ cands
          ↔ (∃ k, k ∈ rangeKeys (getBounds (this w) R) ∧ inBucket (hash (this w)) k a)
            ∧ passesCallbackTest w simple a = true)
  ∧ (∀ a box, cachedAABB (objs w a) = Some box →
              passesCallbackTest w true a = true
              ↔ 0 < aabb_width box ∧ 0 < aabb_height box)
  ∧ (∀ a, passesCallbackTest w false a = true).
Proof.
  intros _ _ Hbox. cbn zeta. split.
  { unfold queryCallback. by rewrite callbackCells_spec. }
  split; [intros a; apply elem_of_callbackCandidates|]. split; [|done].
  intros a box Hb. unfold passesCallbackTest, intersects. rewrite Hb.
  rewrite !andb_true_iff, !Z.gtb_ltb, !Z.ltb_lt. lia.
Qed.

Lemma queryCallback_stops_at_first_hit_witness :
  queryCallback (mkAABB 0 0 15 15) (fun a => bool_decide (a = 1%nat)) true
                sharedCellExample
  = Returned
      (existsb (fun a => bool_decide (a = 1%nat))
         (callbackCandidates sharedCellExample true
            (rangeKeys (getBounds (this sharedCellExample) (mkAABB 0 0 15 15)))),
       untilHit (fun a => bool_decide (a = 1%nat))
         (callbackCandidates sharedCellExample true
            (rangeKeys (getBounds (this sharedCellExample) (mkAABB 0 0 15 15)))))
  ∧ (∀ a, a ∈ callbackCandidates sharedCellExample true
                (rangeKeys (getBounds (this sharedCellExample) (mkAABB 0 0 15 15)))
          ↔ (∃ k, k ∈ rangeKeys (getBounds (this sharedCellExample) (mkAABB 0 0 15 15))
                  ∧ inBucket (hash (this sharedCellExample)) k a)
            ∧ passesCallbackTest sharedCellExample true a = true)
  ∧ (∀ a box, cachedAABB (objs sharedCellExample a) = Some box →
              passesCallbackTest sharedCellExample true a = true
              ↔ 0 < aabb_width box ∧ 0 < aabb_height box)
  ∧ (∀ a, passesCallbackTest sharedCellExample false a = true).
Proof.
  apply (queryCallback_stops_at_first_hit (mkAABB 0 0 15 15)
           (fun a => bool_decide (a = 1%nat)) true sharedCellExample).
  - vm_compute. discriminate.
  - vm_compute. discriminate.
  - intros _ k a _ Hin. eapply indexedT_boxes; [|exact Hin].
    apply inv_indexed, reachable_Inv, reachable_sharedCellExample.
Defined.

(** ** [cull] *)

Lemma reachable_plainExample : reachable plainExample.
Proof.
  exists (exampleWorld false true), [OpAdd 0 false; OpAdd 1 false].
  split; [apply pristine_newWorld; lia|].
  split; vm_compute; reflexivity.
Qed.

Lemma cull_count (R : AABB) (skip : bool) (cb : option callback) (w w' : World) (n : Z) :
  cull R skip cb w = Returned (n, w') → n = lastBuckets (this w').
Proof.
  unfold cull. intros H. apply obind_Returned in H as (w1 & _ & H).
  apply obind_Returned in H as (q & _ & H). by revert H; intros [= <- <-].
Qed.

Lemma queryCells_count (w : World) (R : AABB) (simple : bool) (ks : list key)
    (acc res : list oid * Z) :
  forEach (queryCell w R simple) ks acc = Returned res →
  res.2 = acc.2 + Z.of_nat (length (existingCells w ks)).
Proof.
  revert acc. induction ks as [|k ks IH]; intros acc H; cbn [forEach] in H.
  - revert H. intros [= <-]. cbn. lia.
  - apply obind_Returned in H as (acc1 & H1 & H). apply IH in H. rewrite H.
    unfold existingCells. unfold queryCell in H1.
    destruct (hash (this w) !! k) as [entry|] eqn:Hk.
    + rewrite filter_cons_True by (by rewrite Hk).
      apply obind_Returned in H1 as (results & _ & [= <-]). cbn [snd length]. lia.
    + rewrite filter_cons_False by (rewrite Hk; by intros [? ?]).
      revert H1. by intros [= <-].
Qed.

Lemma query_count (R : AABB) (simple : bool) (w w2 : World) (r : list oid) :
  query R simple w = Returned (r, w2) →
  lastBuckets (this w2)
  = Z.of_nat (length (existingCells w (rangeKeys (getBounds (this w) R)))).
Proof.
  unfold query. intros H. apply obind_Returned in H as (res & H1 & [= <- <-]).
  apply queryCells_count in H1. by rewrite H1.
Qed.

(** X19.  The number that [cull] returns, and that [stats] reports as
    [buckets] afterwards, is the number of cells of the rectangle's range
    that have a bucket; a bucket counts whether or not it has a member, and
    the number is at most the number of cells of the range. *)
Theorem cull_returns_bucket_count (R : AABB) (skip : bool) (cb : option callback)
    (w w' : World) (n : Z) :
  cull R skip cb w = Returned (n, w') →
  n = Z.of_nat (length (existingCells w' (rangeKeys (getBounds (this w') R))))
  ∧ stat_buckets (stats w') = n
  ∧ 0 <= n <= Z.of_nat (length (rangeKeys (getBounds (this w') R))).
Proof.
  intros Hcull. pose proof (cull_count _ _ _ _ _ _ Hcull) as Hn.
  apply cull_unfold in Hcull as (w1 & r & m & _ & Hq & ->).
  set (W := invisible w1) in *.
  destruct (fold_with_obj_frame (set_visible true) r (with_this (set_lastBuckets m) W))
    as (Ht & _). cbn zeta in Ht.
  assert (m = Z.of_nat (length (existingCells W (rangeKeys (getBounds (this W) R)))))
    as Hm.
  { destruct cb as [f|].
    - rewrite queryCallbackAll_query in Hq.
      apply obind_Returned in Hq as (q & Hq & [= <- Hw]).
      apply obind_Returned in Hq as ([r' w2] & Hq & [= <-]). cbn [fst snd] in Hw.
      subst w2. by apply query_count in Hq.
    - by apply query_count in Hq. }
  rewrite Ht in Hn |- *.
  change (lastBuckets (this (with_this (set_lastBuckets m) W))) with m in Hn.
  assert (existingCells (fold_left (fun w o => with_obj o (set_visible true) w) r
                           (with_this (set_lastBuckets m) W))
            (rangeKeys (getBounds (this (with_this (set_lastBuckets m) W)) R))
          = existingCells W (rangeKeys (getBounds (this W) R))) as He.
  { unfold existingCells. by rewrite Ht. }
  rewrite He. split; [congruence|]. split; [unfold stats; cbn; by rewrite Ht|].
  change (getBounds (this (with_this (set_lastBuckets m) W)) R)
    with (getBounds (this W) R).
  pose proof (length_filter (fun k => is_Some (hash (this W) !! k))
                (rangeKeys (getBounds (this W) R))) as Hle.
  unfold existingCells in Hm. lia.
Qed.

Lemma cull_returns_bucket_count_witness :
  culledExample.1
  = Z.of_nat (length (existingCells culledExample.2
                        (rangeKeys (getBounds (this culledExample.2)
                                      (mkAABB 0 0 50 50)))))
  ∧ stat_buckets (stats culledExample.2) = culledExample.1
  ∧ 0 <= culledExample.1
    <= Z.of_nat (length (rangeKeys (getBounds (this culledExample.2)
                                      (mkAABB 0 0 50 50)))).
Proof.
  apply (cull_returns_bucket_count (mkAABB 0 0 50 50) false None sharedCellExample).
  vm_compute. reflexivity.
Defined.

(** X20.  Without the simple test, in a world that a call sequence
    reaches under the discipline of [guard], the conditions on children
    that join or leave a container included, [cull] returns and makes visible exactly the tracked
    objects that are members of a bucket of a cell of the rectangle's range.
    These include every tracked object that the simple test would show:
    every one whose cached box intersects the rectangle, both with
    non-negative width and height. *)
Theorem cull_without_simple_test (w : World) (R : AABB) (skip : bool)
    (cb : option callback) :
  reachable w → simpleTest (this w) = false →
  ∃ n w', cull R skip cb w = Returned (n, w')
    ∧ (∀ a, a ∈ trackedList w' →
            (visible (objs w' a) = true
             ↔ ∃ k, k ∈ rangeKeys (getBounds (this w') R)
                    ∧ inBucket (hash (this w')) k a))
    ∧ (∀ a box, a ∈ trackedList w' → cachedAABB (objs w' a) = Some box →
                0 <= aabb_width box → 0 <= aabb_height box →
                0 <= aabb_width R → 0 <= aabb_height R →
                intersects box R = true → visible (objs w' a) = true).
Proof.
  intros HInv%reachable_Inv Hs.
  destruct (cull_spec R skip cb w HInv)
    as (n & w1 & w' & _ & Hcull & HInv1 & Hcfg & Hsi & Hst & Hvis).
  exists n, w'. split; [done|].
  pose proof (Inv_same _ _ Hsi Hst HInv1) as HInv'.
  assert (trackedList w' = trackedList w) as Htl.
  { by rewrite (sameTracking_trackedList _ _ Hst), (sameConfig_trackedList _ _ Hcfg). }
  assert (getBounds (this w') R = getBounds (this w) R) as Hgb.
  { rewrite <- (sameConfig_getBounds _ _ R Hcfg). unfold getBounds.
    destruct Hsi as (_ & -> & -> & _). done. }
  assert (∀ a, a ∈ trackedList w' →
            (visible (objs w' a) = true
             ↔ ∃ k, k ∈ rangeKeys (getBounds (this w') R)
                    ∧ inBucket (hash (this w')) k a)) as Hv.
  { intros a Ha. rewrite Htl in Ha. rewrite (Hvis a Ha), Hs, Hgb.
    destruct Hsi as (-> & _). unfold collected. split.
    - intros (k & Hk & Hin & _). by exists k.
    - intros (k & Hk & Hin). exists k. by split; [|split]. }
  split; [done|].
  intros a box Ha Hbox Hw Hh HwR HhR Hint. apply (Hv a Ha).
  destruct (ranges_meet (this w') box R) as (k & Hka & HkR);
    [apply HInv'|apply HInv'|done..|].
  exists k. split; [done|]. by apply (Inv_cells w' a box k HInv' Ha Hbox).
Qed.

Lemma cull_without_simple_test_witness :
  ∃ n w', cull (mkAABB 0 0 50 50) false None plainExample = Returned (n, w')
    ∧ (∀ a, a ∈ trackedList w' →
            (visible (objs w' a) = true
             ↔ ∃ k, k ∈ rangeKeys (getBounds (this w') (mkAABB 0 0 50 50))
                    ∧ inBucket (hash (this w')) k a))
    ∧ (∀ a box, a ∈ trackedList w' → cachedAABB (objs w' a) = Some box →
                0 <= aabb_width box → 0 <= aabb_height box →
                0 <= aabb_width (mkAABB 0 0 50 50) →
                0 <= aabb_height (mkAABB 0 0 50 50) →
                intersects box (mkAABB 0 0 50 50) = true →
                visible (objs w' a) = true).
Proof.
  apply (cull_without_simple_test plainExample (mkAABB 0 0 50 50) false None).
  - exact reachable_plainExample.
  - vm_compute. reflexivity.
Defined.

(** ** What a refresh and a cull leave alone *)



(** ** What [cull] leaves alone *)

Lemma testEntry_members (w : World) (R : AABB) (entry results r : list oid) (a : oid) :
  testEntry w R entry results = Returned r → a ∈ r → a ∈ results ∨ a ∈ entry.
Proof.
  revert results. induction entry as [|o entry IH]; intros results H Ha;
    cbn [testEntry] in H.
  - revert H. intros [= <-]. by left.
  - destruct (cachedAABB (objs w o)) as [box|]; [|done].
    destruct (IH _ H Ha) as [Hin|Hin]; [|right; by right].
    destruct (intersects box R); [|by left].
    apply elem_of_app in Hin as [?|Hs]; [by left|].
    apply list_elem_of_singleton in Hs as ->. right. left.
Qed.

Lemma queryCells_members (w : World) (R : AABB) (simple : bool) (ks : list key)
    (acc res : list oid * Z) (a : oid) :
  forEach (queryCell w R simple) ks acc = Returned res → a ∈ res.1 →
  a ∈ acc.1 ∨ ∃ k, k ∈ ks ∧ inBucket (hash (this w)) k a.
Proof.
  revert acc. induction ks as [|k ks IH]; intros acc H Ha; cbn [forEach] in H.
  - revert H. intros [= <-]. by left.
  - apply obind_Returned in H as (acc1 & H1 & H).
    destruct (IH _ H Ha) as [Hin|(k' & Hk' & Hin)]; [|right; exists k'; split; [by right|done]].
    unfold queryCell in H1. destruct (hash (this w) !! k) as [entry|] eqn:Hk.
    + apply obind_Returned in H1 as (results & H1 & [= <-]). cbn [fst] in Hin.
      assert (a ∈ acc.1 ∨ a ∈ entry) as [?|?]; [|by left|].
      { destruct simple.
        - by eapply testEntry_members.
        - revert H1. intros [= <-]. by apply elem_of_app in Hin. }
      right. exists k. split; [left|by exists entry].
    + revert H1. intros [= <-]. by left.
Qed.

Lemma query_members (R : AABB) (simple : bool) (w w2 : World) (r : list oid) (a : oid) :
  query R simple w = Returned (r, w2) → a ∈ r →
  ∃ k, k ∈ rangeKeys (getBounds (this w) R) ∧ inBucket (hash (this w)) k a.
Proof.
  unfold query. intros H Ha. apply obind_Returned in H as (res & H1 & [= <- <-]).
  destruct (queryCells_members _ _ _ _ _ _ a H1 Ha) as [Hin|?]; [|done].
  by apply elem_of_nil in Hin.
Qed.

Lemma Inv_member_tracked (w : World) (k : key) (a : oid) :
  Inv w → inBucket (hash (this w)) k a → a ∈ trackedList w.
Proof.
  intros HInv Hin. apply Inv_membership in Hin; [|done].
  destruct (decide (a ∈ trackedList w)) as [?|Hn]; [done|].
  rewrite (ix_untracked _ _ (inv_indexed w HInv) a Hn) in Hin.
  by apply elem_of_nil in Hin.
Qed.

(** X22.  [cull] touches tracked objects only.  In a world that a
    disciplined call sequence reaches it returns; the registrations are as
    before, no bucket has disappeared and an untracked object has not
    changed at all.  With [skipUpdate] nothing changes but visibility flags
    and the recorded bucket count: the buckets are the same, and so is every
    object up to its visibility. *)
Theorem cull_touches_tracked_only (w : World) (R : AABB) (skip : bool)
    (cb : option callback) :
  reachable w →
  ∃ n w', cull R skip cb w = Returned (n, w')
    ∧ sameTracking w w'
    ∧ keepsKeys (hash (this w)) (hash (this w'))
    ∧ (∀ a, a ∉ trackedList w → objs w' a = objs w a)
    ∧ (skip = true →
       hash (this w') = hash (this w)
       ∧ ∀ a, set_visible false (objs w' a) = set_visible false (objs w a)).
Proof.
  intros HInv%reachable_Inv.
  destruct (cull_spec R skip cb w HInv)
    as (n & w1 & w' & Hup & Hcull & HInv1 & Hcfg & Hsi & Hst & _).
  exists n, w'. split; [done|].
  destruct (cull_unfold _ _ _ _ _ _ Hcull) as (w1' & r & m & Hup' & Hq & Hw').
  rewrite Hup in Hup'. revert Hup'. intros [= <-].
  set (W := invisible w1) in *.
  assert (∀ a, a ∈ r → a ∈ trackedList w1) as Hr.
  { intros a Ha.
    assert (∃ k, k ∈ rangeKeys (getBounds (this W) R) ∧ inBucket (hash (this W)) k a)
      as (k & _ & Hin).
    { destruct cb as [f|].
      - rewrite queryCallbackAll_query in Hq.
        apply obind_Returned in Hq as (q & Hq & [= <- Hw]).
        apply obind_Returned in Hq as ([r' w2] & Hq & [= <-]).
        by eapply query_members.
      - by eapply query_members. }
    destruct (invisible_frame w1) as (Ht & _). fold W in Ht. rewrite Ht in Hin.
    by eapply Inv_member_tracked. }
  assert (∀ a, objs w' a
               = if decide (a ∈ r) then set_visible true (objs W a) else objs W a)
    as Hobjs.
  { intros a. rewrite Hw', fold_visible_objs. reflexivity. }
  assert (trackedList w1 = trackedList w) as Htl by by apply sameConfig_trackedList.
  split.
  { destruct (sameConfig_sameTracking _ _ Hcfg) as (H1 & H2 & H3).
    destruct Hst as (H4 & H5 & H6). repeat split; congruence. }
  split.
  { destruct Hsi as (-> & _). destruct skip.
    - revert Hup. intros [= <-]. apply keepsKeys_refl.
    - by apply updateObjects_keys. }
  split.
  { intros a Ha. rewrite Hobjs, decide_False by (rewrite <- Htl in Ha; auto).
    unfold W. rewrite invisible_objs, decide_False by by rewrite Htl.
    destruct skip.
    - revert Hup. by intros [= <-].
    - by apply updateObjects_frame. }
  intros ->. revert Hup. intros [= <-]. split; [apply Hsi|].
  intros a. rewrite Hobjs. unfold W. rewrite invisible_objs.
  destruct (decide (a ∈ r)), (decide (a ∈ trackedList w)); reflexivity.
Qed.

Lemma cull_touches_tracked_only_witness :
  ∃ n w', cull (mkAABB 0 0 50 50) true None sharedCellExample = Returned (n, w')
    ∧ sameTracking sharedCellExample w'
    ∧ keepsKeys (hash (this sharedCellExample)) (hash (this w'))
    ∧ (∀ a, a ∉ trackedList sharedCellExample → objs w' a = objs sharedCellExample a)
    ∧ (true = true →
       hash (this w') = hash (this sharedCellExample)
       ∧ ∀ a, set_visible false (objs w' a)
              = set_visible false (objs sharedCellExample a)).
Proof.
  apply (cull_touches_tracked_only sharedCellExample (mkAABB 0 0 50 50) true None).
  exact reachable_sharedCellExample.
Defined.

(** ** Containers *)

Lemma resetAndUpdate_touchesOnly : touchesOnly resetAndUpdate.
Proof.
  intros o u u' H. unfold resetAndUpdate in H.
  apply updateObject_touchesOnly in H as (Hc & Hoth & Hs).
  split; [eapply sameConfig_trans; [apply sameConfig_with_obj|exact Hc]|].
  split.
  - intros b Hb. by rewrite Hoth, objs_with_obj_ne.
  - rewrite objs_with_obj_eq in Hs. eapply sameShape_trans; [|exact Hs]. done.
Qed.

Lemma removeFromHash_touchesOnly : touchesOnly removeFromHash.
Proof.
  intros o u u' (Hc & Hoth & Hb & _)%removeFromHash_frame.
  split; [done|]. split; [done|].
  apply sameBody_fields in Hb as (? & _ & ? & ?). done.
Qed.

Lemma resetAndUpdate_caches (o : oid) (u u' : World) :
  resetAndUpdate o u = Returned u' →
  cachedAABB (objs u' o) = Some (computeAABB (objs u o)).
Proof.
  unfold resetAndUpdate. intros (_ & _ & _ & Hc & _)%updateObject_frame.
  by rewrite Hc, objs_with_obj_eq.
Qed.

Lemma loop_caches (f : oid -> World -> outcome World) (l : list oid) (t t' : World) :
  touchesOnly f →
  (∀ o u u', f o u = Returned u' →
             cachedAABB (objs u' o) = Some (computeAABB (objs u o))) →
  forEach f l t = Returned t' →
  ∀ a, a ∈ l → cachedAABB (objs t' a) = Some (computeAABB (objs t a)).
Proof.
  intros Hf Hcache. revert t. induction l as [|o l IH]; intros t H a Ha;
    cbn [forEach] in H; [by apply elem_of_nil in Ha|].
  apply obind_Returned in H as (t1 & H1 & H).
  pose proof (Hcache _ _ _ H1) as Hc1. apply Hf in H1 as (_ & Hoth1 & Hs1).
  destruct (decide (a ∈ l)) as [Hin|Hin].
  - rewrite (IH _ H a Hin). f_equal.
    destruct (decide (a = o)) as [->|Hne]; [apply Hs1|by rewrite Hoth1].
  - apply elem_of_cons in Ha as [->|?]; [|done].
    destruct (loop_touchesOnly _ _ _ _ Hf H) as (_ & _ & Hoth). by rewrite Hoth.
Qed.

Lemma addContainer_effect (c : cid) (s : bool) (w : World) :
  Inv w → c ∉ containers (this w) → NoDup (children (conts w c)) →
  (∀ a, a ∈ children (conts w c) → a ∉ trackedList w) →
  ∃ w', addContainer c s w = Returned w' ∧ Inv w'
    ∧ containers (this w') = containers (this w) ++ [c]
    ∧ elements (this w') = elements (this w)
    ∧ (∀ c', children (conts w' c') = children (conts w c'))
    ∧ isStatic (conts w' c) = s
    ∧ listeners (conts w' c)
      = listeners (conts w c) ++ [("childAdded", AddedFn (closures w));
                                  ("childRemoved", RemovedFn (closures w))]
    ∧ (∀ c', c' ≠ c → conts w' c' = conts w c')
    ∧ (∀ a, a ∈ children (conts w c) →
            cachedAABB (objs w' a) = Some (computeAABB (objs w a)))
    ∧ (∀ a, a ∉ children (conts w c) → objs w' a = objs w a)
    ∧ getBounds (this w') = getBounds (this w).
Proof.
  intros HInv Hc Hnd Hdis.
  destruct (addContainer_Inv c s w HInv Hc Hnd Hdis) as (w' & Hadd & HInv').
  exists w'. split; [done|]. split; [done|].
  unfold addContainer in Hadd. cbv zeta in Hadd.
  apply obind_Returned in Hadd as (wl & Hl & Hret).
  change (forEach _ ?l ?t = Returned wl)
    with (forEach resetAndUpdate l t = Returned wl) in Hl.
  cbn [conts] in Hl.
  destruct (loop_touchesOnly _ _ _ _ resetAndUpdate_touchesOnly Hl) as (Hcfg & _ & Hoth).
  pose proof (loop_caches _ _ _ _ resetAndUpdate_touchesOnly resetAndUpdate_caches Hl)
    as Hcache.
  cbn [objs] in Hoth, Hcache.
  destruct (sameConfig_fields _ _ Hcfg) as (Hconts & Hx & Hy & _ & _ & He & Hk).
  cbn [conts this] in Hconts, Hx, Hy, He, Hk.
  assert (conts w' c
          = mkContainer (children (conts w c))
              (Some (mkCull s (Some (AddedFn (closures w)))
                            (Some (RemovedFn (closures w)))))
              ((listeners (conts w c) ++ [("childAdded", AddedFn (closures w))])
               ++ [("childRemoved", RemovedFn (closures w))])) as HK.
  { revert Hret. intros [= <-]. destruct s;
      repeat (rewrite conts_with_cont_eq || rewrite conts_with_this);
      rewrite Hconts; done. }
  assert (∀ c', c' ≠ c → conts w' c' = conts w c') as HK'.
  { intros c' Hne. revert Hret. intros [= <-]. destruct s;
      repeat ((rewrite conts_with_cont_ne by done) || rewrite conts_with_this);
      by rewrite Hconts. }
  assert (this w' = set_containers (containers (this wl) ++ [c]) (this wl)
          ∧ objs w' = objs wl) as [Ht Ho].
  { revert Hret. intros [= <-]. by destruct s. }
  rewrite Ht, Ho. cbn [containers elements set_containers].
  split; [by rewrite Hk|]. split; [done|]. split.
  { intros c'. destruct (decide (c' = c)) as [->|Hne]; [by rewrite HK|by rewrite HK']. }
  split; [by rewrite HK|]. split; [by rewrite HK, <- app_assoc|].
  split; [done|]. split; [done|]. split; [done|].
  unfold getBounds. cbn [xSize ySize set_containers]. by rewrite Hx, Hy.
Qed.

(** X23.  In a world that a disciplined call sequence reaches,
    [addContainer] of an unregistered container whose children are untracked
    returns.  Afterwards the container is the last registered one and is
    static exactly when asked for; it carries a new child-added and a new
    child-removed listener; every child has the box of its transform as
    cached box and is a member of exactly the buckets of the cells of that
    box; and no other object or bucket membership has changed. *)
Theorem addContainer_indexes_children (w : World) (c : cid) (s : bool) :
  reachable w → c ∉ containers (this w) → NoDup (children (conts w c)) →
  (∀ a, a ∈ children (conts w c) → a ∉ trackedList w) →
  ∃ w', addContainer c s w = Returned w'
    ∧ containers (this w') = containers (this w) ++ [c]
    ∧ elements (this w') = elements (this w)
    ∧ (∀ c', children (conts w' c') = children (conts w c'))
    ∧ isStatic (conts w' c) = s
    ∧ listeners (conts w' c)
      = listeners (conts w c) ++ [("childAdded", AddedFn (closures w));
                                  ("childRemoved", RemovedFn (closures w))]
    ∧ (∀ a, a ∈ children (conts w c) →
            cachedAABB (objs w' a) = Some (computeAABB (objs w a))
            ∧ ∀ k, inBucket (hash (this w')) k a
                   ↔ k ∈ rangeKeys (getBounds (this w) (computeAABB (objs w a))))
    ∧ (∀ a, a ∉ children (conts w c) →
            objs w' a = objs w a
            ∧ ∀ k, inBucket (hash (this w')) k a ↔ inBucket (hash (this w)) k a).
Proof.
  intros HInv%reachable_Inv Hc Hnd Hdis.
  destruct (addContainer_effect c s w HInv Hc Hnd Hdis)
    as (w' & Hadd & HInv' & Hk & He & Hch & Hs & Hl & _ & Hcache & Hoth & Hgb).
  exists w'. do 6 (split; [done|]). split.
  - intros a Ha. split; [by apply Hcache|]. intros k.
    assert (a ∈ trackedList w') as Hin.
    { apply elem_of_trackedList. right. exists c. rewrite Hk, Hch.
      split; [|done]. apply elem_of_app. right. left. }
    by rewrite (Inv_cells w' a _ k HInv' Hin (Hcache a Ha)), Hgb.
  - intros a Ha. split; [by apply Hoth|]. intros k.
    apply bucket_mates_kept; [done|done|by apply Hoth].
Qed.

Lemma addContainer_indexes_children_witness :
  ∃ w', addContainer 0 true sharedCellExample = Returned w'
    ∧ containers (this w') = containers (this sharedCellExample) ++ [0%nat]
    ∧ elements (this w') = elements (this sharedCellExample)
    ∧ (∀ c', children (conts w' c') = children (conts sharedCellExample c'))
    ∧ isStatic (conts w' 0) = true
    ∧ listeners (conts w' 0)
      = listeners (conts sharedCellExample 0)
        ++ [("childAdded", AddedFn (closures sharedCellExample));
            ("childRemoved", RemovedFn (closures sharedCellExample))]
    ∧ (∀ a, a ∈ children (conts sharedCellExample 0) →
            cachedAABB (objs w' a) = Some (computeAABB (objs sharedCellExample a))
            ∧ ∀ k, inBucket (hash (this w')) k a
                   ↔ k ∈ rangeKeys (getBounds (this sharedCellExample)
                                      (computeAABB (objs sharedCellExample a))))
    ∧ (∀ a, a ∉ children (conts sharedCellExample 0) →
            objs w' a = objs sharedCellExample a
            ∧ ∀ k, inBucket (hash (this w')) k a
                   ↔ inBucket (hash (this sharedCellExample)) k a).
Proof.
  apply (addContainer_indexes_children sharedCellExample 0 true).
  - exact reachable_sharedCellExample.
  - refine (bool_decide_unpack _ _). vm_compute. exact I.
  - refine (bool_decide_unpack _ _). vm_compute. exact I.
  - refine (proj1 (Forall_forall _ _) _).
    refine (bool_decide_unpack _ _). vm_compute. exact I.
Defined.

Lemma removeContainer_effect (c : cid) (w : World) :
  Inv w → c ∈ containers (this w) →
  ∃ w', removeContainer c w = Returned w' ∧ Inv w'
    ∧ containers (this w')
      = splice1 (indexOf c (containers (this w))) (containers (this w))
    ∧ elements (this w') = elements (this w)
    ∧ (∀ c', children (conts w' c') = children (conts w c'))
    ∧ cull_ (conts w' c) = None
    ∧ (∀ c', c' ≠ c → conts w' c' = conts w c')
    ∧ (∀ a, a ∉ children (conts w c) → objs w' a = objs w a)
    ∧ (∀ a, a ∈ children (conts w c) → hashesOf (objs w' a) = [])
    ∧ (∀ a, cachedAABB (objs w' a) = cachedAABB (objs w a)).
Proof.
  intros HInv Hc.
  destruct (removeContainer_Inv c w HInv Hc) as (w' & Hrem & HInv').
  exists w'. split; [done|]. split; [done|].
  unfold removeContainer in Hrem. cbv zeta in Hrem.
  apply obind_Returned in Hrem as (wl & Hl & Hret).
  cbn [conts with_this] in Hl.
  destruct (loop_touchesOnly _ _ _ _ removeFromHash_touchesOnly Hl) as (Hcfg & _ & Hoth).
  assert (∀ a, cachedAABB (objs wl a) = cachedAABB (objs w a)) as Hbox.
  { revert Hl. apply (forEach_keeps (fun u => ∀ a, cachedAABB (objs u a)
                                                   = cachedAABB (objs w a))); [|done].
    intros o t t' _ Ht (_ & Hoth' & _ & Hc' & _)%removeFromHash_frame a.
    destruct (decide (a = o)) as [->|Hne]; [by rewrite Hc'|by rewrite Hoth']. }
  cbn [objs] in Hoth.
  destruct (sameConfig_fields _ _ Hcfg) as (Hconts & _ & _ & _ & _ & He & Hk).
  cbn [conts this with_this elements containers set_containers] in Hconts, He, Hk.
  assert (this w' = this wl ∧ objs w' = objs wl) as [Ht Ho].
  { revert Hret. by intros [= <-]. }
  assert (∀ c', c' ≠ c → conts w' c' = conts w c') as HK'.
  { intros c' Hne. revert Hret. intros [= <-].
    repeat ((rewrite conts_with_cont_ne by done) || rewrite conts_with_this).
    by rewrite Hconts. }
  assert (children (conts w' c) = children (conts w c) ∧ cull_ (conts w' c) = None)
    as [HK1 HK2].
  { revert Hret. intros [= <-].
    repeat (rewrite conts_with_cont_eq || rewrite conts_with_this).
    by rewrite Hconts. }
  assert (∀ c', children (conts w' c') = children (conts w c')) as Hch.
  { intros c'. destruct (decide (c' = c)) as [->|Hne]; [done|by rewrite HK']. }
  rewrite Ht, Ho. split; [done|]. split; [done|]. split; [done|].
  split; [done|]. split; [done|]. split; [done|]. split; [|done].
  intros a Ha. rewrite <- Ho.
  apply (ix_untracked _ _ (inv_indexed w' HInv')).
  destruct (inv_owned w HInv) as [_ O2 _ O4 O5].
  rewrite elem_of_trackedList, Ht, He, Hk. intros [Hin|(c' & Hc' & Hin)].
  - by apply (O4 c a).
  - apply splice_indexOf_elem in Hc' as [Hc' Hne]; [|done..].
    rewrite Hch in Hin. apply Hne. by apply (O5 c' c a).
Qed.

(** X24.  In a world that a disciplined call sequence reaches,
    [removeContainer] of a registered container returns.  Afterwards the
    container is not registered and has no [cull] record; none of its
    children is a member of a bucket, while their cached boxes stay; and no
    other registration, object or bucket membership has changed. *)
Theorem removeContainer_unindexes_children (w : World) (c : cid) :
  reachable w → c ∈ containers (this w) →
  ∃ w', removeContainer c w = Returned w'
    ∧ (∀ c', c' ∈ containers (this w') ↔ c' ∈ containers (this w) ∧ c' ≠ c)
    ∧ elements (this w') = elements (this w)
    ∧ (∀ c', children (conts w' c') = children (conts w c'))
    ∧ cull_ (conts w' c) = None
    ∧ (∀ a, cachedAABB (objs w' a) = cachedAABB (objs w a))
    ∧ (∀ a k, a ∈ children (conts w c) → ¬ inBucket (hash (this w')) k a)
    ∧ (∀ a, a ∉ children (conts w c) →
            objs w' a = objs w a
            ∧ ∀ k, inBucket (hash (this w')) k a ↔ inBucket (hash (this w)) k a).
Proof.
  intros HInv%reachable_Inv Hc.
  destruct (removeContainer_effect c w HInv Hc)
    as (w' & Hrem & HInv' & Hk & He & Hch & Hcull & _ & Hoth & Hh & Hbox).
  exists w'. split; [done|]. split.
  { intros c'. rewrite Hk. apply splice_indexOf_elem; [done|]. apply HInv. }
  do 4 (split; [done|]). split.
  - intros a k Ha. rewrite Inv_membership, (Hh a Ha) by done. apply not_elem_of_nil.
  - intros a Ha. split; [by apply Hoth|]. intros k.
    apply bucket_mates_kept; [done|done|by apply Hoth].
Qed.

Lemma removeContainer_unindexes_children_witness :
  ∃ w', removeContainer 0 refreshExample = Returned w'
    ∧ (∀ c', c' ∈ containers (this w') ↔ c' ∈ containers (this refreshExample) ∧ c' ≠ 0%nat)
    ∧ elements (this w') = elements (this refreshExample)
    ∧ (∀ c', children (conts w' c') = children (conts refreshExample c'))
    ∧ cull_ (conts w' 0) = None
    ∧ (∀ a, cachedAABB (objs w' a) = cachedAABB (objs refreshExample a))
    ∧ (∀ a k, a ∈ children (conts refreshExample 0) → ¬ inBucket (hash (this w')) k a)
    ∧ (∀ a, a ∉ children (conts refreshExample 0) →
            objs w' a = objs refreshExample a
            ∧ ∀ k, inBucket (hash (this w')) k a
                   ↔ inBucket (hash (this refreshExample)) k a).
Proof.
  apply (removeContainer_unindexes_children refreshExample 0).
  - exists (exampleWorld true true),
      [OpAdd 0 false; OpAddContainer 0 false; OpSetTransform 0 (boxAt 250 250 20 20)].
    split; [apply pristine_newWorld; lia|]. split; vm_compute; reflexivity.
  - vm_compute. left.
Defined.

(** X25.  [addContainer] followed by [removeContainer] of the same
    container is a round trip for the registrations and the buckets: in a
    world that a disciplined call sequence reaches, both calls return for an
    unregistered container with untracked children, and afterwards the
    registered containers, the elements, the children, every object that is
    not a child of the container and the members of every bucket are as
    before. *)
Theorem addContainer_then_removeContainer_restores (w : World) (c : cid) (s : bool) :
  reachable w → c ∉ containers (this w) → NoDup (children (conts w c)) →
  (∀ a, a ∈ children (conts w c) → a ∉ trackedList w) →
  ∃ w1 w2, addContainer c s w = Returned w1 ∧ removeContainer c w1 = Returned w2
    ∧ containers (this w2) = containers (this w)
    ∧ elements (this w2) = elements (this w)
    ∧ (∀ c', children (conts w2 c') = children (conts w c'))
    ∧ (∀ c', c' ≠ c → conts w2 c' = conts w c')
    ∧ (∀ a, a ∉ children (conts w c) → objs w2 a = objs w a)
    ∧ (∀ k a, inBucket (hash (this w2)) k a ↔ inBucket (hash (this w)) k a).
Proof.
  intros HInv%reachable_Inv Hc Hnd Hdis.
  destruct (addContainer_effect c s w HInv Hc Hnd Hdis)
    as (w1 & Hadd & HInv1 & Hk1 & He1 & Hch1 & _ & _ & HK1 & _ & Hoth1 & _).
  assert (c ∈ containers (this w1)) as Hc1.
  { rewrite Hk1. apply elem_of_app. right. left. }
  destruct (removeContainer_effect c w1 HInv1 Hc1)
    as (w2 & Hrem & HInv2 & Hk2 & He2 & Hch2 & _ & HK2 & Hoth2 & Hh2 & _).
  exists w1, w2. split; [done|]. split; [done|]. split.
  { rewrite Hk2, Hk1, (indexOf_first c (containers (this w)) [] Hc), splice1_at.
    apply app_nil_r. }
  split; [by rewrite He2|]. split; [intros c'; by rewrite Hch2|].
  split; [intros c' Hne; by rewrite HK2, HK1|].
  assert (∀ a, a ∉ children (conts w c) → objs w2 a = objs w a) as Hoth.
  { intros a Ha. rewrite Hoth2, Hoth1; [done..|]. by rewrite Hch1. }
  split; [done|]. intros k a. rewrite !Inv_membership by done.
  destruct (decide (a ∈ children (conts w c))) as [Ha|Ha].
  - rewrite Hh2 by (by rewrite Hch1).
    by rewrite (ix_untracked _ _ (inv_indexed w HInv) a (Hdis a Ha)).
  - by rewrite Hoth.
Qed.

Lemma addContainer_then_removeContainer_restores_witness :
  ∃ w1 w2, addContainer 0 false sharedCellExample = Returned w1
    ∧ removeContainer 0 w1 = Returned w2
    ∧ containers (this w2) = containers (this sharedCellExample)
    ∧ elements (this w2) = elements (this sharedCellExample)
    ∧ (∀ c', children (conts w2 c') = children (conts sharedCellExample c'))
    ∧ (∀ c', c' ≠ 0%nat → conts w2 c' = conts sharedCellExample c')
    ∧ (∀ a, a ∉ children (conts sharedCellExample 0) →
            objs w2 a = objs sharedCellExample a)
    ∧ (∀ k a, inBucket (hash (this w2)) k a
              ↔ inBucket (hash (this sharedCellExample)) k a).
Proof.
  apply (addContainer_then_removeContainer_restores sharedCellExample 0 false).
  - exact reachable_sharedCellExample.
  - refine (bool_decide_unpack _ _). vm_compute. exact I.
  - refine (bool_decide_unpack _ _). vm_compute. exact I.
  - refine (proj1 (Forall_forall _ _) _).
    refine (bool_decide_unpack _ _). vm_compute. exact I.
Defined.

(** ** Re-indexing one object, and the dirty flags *)

(** X26.  In a world that a call sequence reaches under the discipline of
    [guard], the conditions on children that join or leave a container
    included, [updateObject] of a tracked object returns; afterwards the cached box of
    the object is the box of its transform and the object is a member of
    exactly the buckets of the cells of that box.  The call does not clear
    the [dirty] flag, and no registration, other object or other bucket
    membership changes. *)
Theorem updateObject_relocates (w : World) (o : oid) :
  reachable w → o ∈ trackedList w →
  ∃ w', updateObject o w = Returned w'
    ∧ sameTracking w w'
    ∧ cachedAABB (objs w' o) = Some (computeAABB (objs w o))
    ∧ (∀ k, inBucket (hash (this w')) k o
            ↔ k ∈ rangeKeys (getBounds (this w) (computeAABB (objs w o))))
    ∧ dirty (objs w' o) = dirty (objs w o)
    ∧ (∀ a, a ≠ o → objs w' a = objs w a)
    ∧ (∀ k a, a ≠ o → inBucket (hash (this w')) k a ↔ inBucket (hash (this w)) k a).
Proof.
  intros HInv%reachable_Inv Ho.
  destruct (updateObject_tracked (trackedList w) o w (inv_indexed w HInv) Ho)
    as (w' & Hup & Hix & Hcfg).
  pose proof (Inv_sameConfig w w' HInv Hcfg Hix) as HInv'.
  exists w'. split; [done|].
  destruct (updateObject_frame o w w' Hup) as (_ & Hoth & Hb & Hc & _).
  split; [by apply sameConfig_sameTracking|]. split; [done|]. split.
  { assert (o ∈ trackedList w') as Hin
      by by rewrite (sameConfig_trackedList _ _ Hcfg).
    intros k. rewrite (Inv_cells w' o _ k HInv' Hin Hc).
    by rewrite (sameConfig_getBounds _ _ _ Hcfg). }
  split; [by apply sameBody_fields in Hb as (_ & ? & _)|]. split; [done|].
  intros k a Ha. apply bucket_mates_kept; [done|done|by apply Hoth].
Qed.

Lemma updateObject_relocates_witness :
  ∃ w', updateObject 0 refreshExample = Returned w'
    ∧ sameTracking refreshExample w'
    ∧ cachedAABB (objs w' 0) = Some (computeAABB (objs refreshExample 0))
    ∧ (∀ k, inBucket (hash (this w')) k 0%nat
            ↔ k ∈ rangeKeys (getBounds (this refreshExample)
                               (computeAABB (objs refreshExample 0))))
    ∧ dirty (objs w' 0) = dirty (objs refreshExample 0)
    ∧ (∀ a, a ≠ 0%nat → objs w' a = objs refreshExample a)
    ∧ (∀ k a, a ≠ 0%nat → inBucket (hash (this w')) k a
                          ↔ inBucket (hash (this refreshExample)) k a).
Proof.
  apply (updateObject_relocates refreshExample 0).
  - exists (exampleWorld true true),
      [OpAdd 0 false; OpAddContainer 0 false; OpSetTransform 0 (boxAt 250 250 20 20)].
    split; [apply pristine_newWorld; lia|]. split; vm_compute; reflexivity.
  - vm_compute. left.
Defined.

(** X27.  The dirty test.  When [updateObjects] returns in dirty-test mode,
    an object whose [dirty] flag was clear has not changed at all, wherever
    its transform has taken it, and the flag of every element and of every
    child of a registered container that is not static is clear. *)
Theorem updateObjects_follows_dirty_flags (w w' : World) :
  dirtyTest (this w) = true → updateObjects w = Returned w' →
  (∀ o, dirty (objs w o) = false → objs w' o = objs w o)
  ∧ (∀ o, o ∈ elements (this w) ∨ refreshedChild w o → dirty (objs w' o) = false).
Proof.
  intros Hd H. split.
  - intros o Ho. apply (updateObjects_untouched w w' o H). by rewrite Hd.
  - intros o Ho. rewrite updateObjects_unfold, Hd in H.
    apply obind_Returned in H as (w1 & H1 & H2).
    apply dirtyPass_clears in H1 as ((Hcfg1 & _) & Hcl1).
    apply dirtyContainers_clear in H2 as ((_ & Hkeep2) & Hcl2).
    destruct (sameConfig_fields _ _ Hcfg1) as (Hconts & _ & _ & _ & _ & _ & Hk).
    destruct Ho as [Ho|(c & Hc & Hs & Ho)].
    + by apply Hkeep2, Hcl1.
    + apply (Hcl2 c o); by rewrite ?Hk, ?Hconts.
Qed.

Lemma updateObjects_follows_dirty_flags_witness :
  (∀ o, dirty (objs refreshExample o) = false →
        objs (returned refreshExample (updateObjects refreshExample)) o
        = objs refreshExample o)
  ∧ (∀ o, o ∈ elements (this refreshExample) ∨ refreshedChild refreshExample o →
          dirty (objs (returned refreshExample (updateObjects refreshExample)) o)
          = false).
Proof.
  apply (updateObjects_follows_dirty_flags refreshExample
           (returned refreshExample (updateObjects refreshExample))).
  - vm_compute. reflexivity.
  - vm_compute. reflexivity.
Defined.

(** ** Children that join or leave a registered container *)

Lemma callListener_touchesOnly (fn : listener) :
  touchesOnly (fun o w => callListener fn o w).
Proof.
  destruct fn; [exact resetAndUpdate_touchesOnly|exact removeFromHash_touchesOnly].
Qed.

Lemma deliver_frame (ev : string) (o : oid) (L : list (string * listener))
    (t t' : World) :
  forEach (deliver ev o) L t = Returned t' →
  sameConfig t t' ∧ (∀ b, b ≠ o → objs t' b = objs t b)
  ∧ sameShape (objs t o) (objs t' o).
Proof.
  revert t. induction L as [|p L IH]; intros t H; cbn [forEach] in H.
  - revert H. intros [= <-]. split; [apply sameConfig_refl|done].
  - apply obind_Returned in H as (t1 & H1 & H).
    assert (sameConfig t t1 ∧ (∀ b, b ≠ o → objs t1 b = objs t b)
            ∧ sameShape (objs t o) (objs t1 o)) as (Hc1 & Hoth1 & Hs1).
    { unfold deliver in H1. destruct (decide (p.1 = ev)).
      - by apply (callListener_touchesOnly p.2) in H1.
      - revert H1. intros [= <-]. split; [apply sameConfig_refl|done]. }
    apply IH in H as (Hc & Hoth & Hs).
    split; [eapply sameConfig_trans; eassumption|]. split.
    + intros b Hb. by rewrite Hoth, Hoth1.
    + eapply sameShape_trans; eassumption.
Qed.

Lemma deliver_added_caches (o : oid) (L : list (string * listener)) (t t' : World) :
  (∀ p, p ∈ L → isAddedEntry p ∨ isRemovedEntry p) →
  cachedAABB (objs t o) = Some (computeAABB (objs t o))
  ∨ (∃ p, p ∈ L ∧ p.1 = "childAdded") →
  forEach (deliver "childAdded" o) L t = Returned t' →
  cachedAABB (objs t' o) = Some (computeAABB (objs t o)).
Proof.
  revert t. induction L as [|p L IH]; intros t Hshape Hfire H; cbn [forEach] in H.
  - revert H. intros [= <-]. destruct Hfire as [?|(p & Hp & _)]; [done|].
    by apply elem_of_nil in Hp.
  - apply obind_Returned in H as (t1 & H1 & H).
    assert (computeAABB (objs t1 o) = computeAABB (objs t o)
            ∧ (cachedAABB (objs t1 o) = Some (computeAABB (objs t1 o))
               ∨ ∃ q, q ∈ L ∧ q.1 = "childAdded")) as [Hbox Hfire1].
    { unfold deliver in H1. destruct (decide (p.1 = "childAdded")) as [Hev|Hev].
      - destruct (Hshape p) as [(n & ->)|(n & ->)]; [left| |done].
        cbn [snd callListener] in H1.
        pose proof (resetAndUpdate_caches _ _ _ H1) as Hc.
        apply resetAndUpdate_touchesOnly in H1 as (_ & _ & Hb & _).
        split; [done|]. left. by rewrite Hc, Hb.
      - revert H1. intros [= <-]. split; [done|].
        destruct Hfire as [?|(q & [->|Hq]%elem_of_cons & Hev')]; [by left|done|].
        right. by exists q. }
    rewrite <- Hbox. apply IH; [|done..].
    intros q Hq. apply Hshape. by right.
Qed.

(** X28.  A child that joins a registered container is indexed by the
    listener that [addContainer] installed: in a world that a disciplined
    call sequence reaches, when the scene graph adds an untracked object to
    a registered container and notifies the listeners, the object gets the
    box of its transform as cached box and becomes a member of exactly the
    buckets of the cells of that box; no registration and no other object
    or bucket membership changes. *)
Theorem child_added_is_indexed (w : World) (c : cid) (o : oid) :
  reachable w → c ∈ containers (this w) → o ∉ trackedList w →
  ∃ w', addChild c o w = Returned w'
    ∧ children (conts w' c) = children (conts w c) ++ [o]
    ∧ elements (this w') = elements (this w)
    ∧ containers (this w') = containers (this w)
    ∧ cachedAABB (objs w' o) = Some (computeAABB (objs w o))
    ∧ (∀ k, inBucket (hash (this w')) k o
            ↔ k ∈ rangeKeys (getBounds (this w) (computeAABB (objs w o))))
    ∧ (∀ a, a ≠ o → objs w' a = objs w a)
    ∧ (∀ k a, a ≠ o → inBucket (hash (this w')) k a ↔ inBucket (hash (this w)) k a).
Proof.
  intros HInv%reachable_Inv Hc Ho.
  destruct (addChild_Inv c o w HInv (fun _ => Ho)) as (w' & Hadd & HInv').
  exists w'. split; [done|].
  unfold addChild in Hadd. rewrite emit_unfold, conts_with_cont_eq in Hadd.
  cbn [listeners set_children] in Hadd.
  destruct (inv_subscribed w HInv) as [S1 S2 _].
  assert (∃ p, p ∈ listeners (conts w c) ∧ p.1 = "childAdded") as Hfire.
  { destruct (S2 c Hc) as (n & _ & Hentries & _).
    exists ("childAdded", AddedFn n). split; [|done].
    assert (("childAdded", AddedFn n) ∈ addedEntries (conts w c)) as Hin
      by (rewrite Hentries; left).
    by apply list_elem_of_filter in Hin as [_ ?]. }
  pose proof (deliver_added_caches o _ _ _ (S1 c) (or_intror Hfire) Hadd) as Hcache.
  cbn [objs with_cont] in Hcache.
  apply deliver_frame in Hadd as (Hcfg & Hoth & _).
  cbn [objs with_cont] in Hoth.
  destruct (sameConfig_fields _ _ Hcfg) as (Hconts & _ & _ & _ & _ & He & Hk).
  assert (children (conts w' c) = children (conts w c) ++ [o]) as Hch.
  { by rewrite Hconts, conts_with_cont_eq. }
  split; [done|]. split; [done|]. split; [done|]. split; [done|].
  assert (o ∈ trackedList w') as Hin.
  { apply elem_of_trackedList. right. exists c. rewrite Hk, Hch.
    split; [done|]. apply elem_of_app. right. left. }
  split.
  { intros k. rewrite (Inv_cells w' o _ k HInv' Hin Hcache).
    by rewrite (sameConfig_getBounds _ _ _ Hcfg). }
  split; [done|]. intros k a Ha.
  apply bucket_mates_kept; [done|done|by apply Hoth].
Qed.

Lemma child_added_is_indexed_witness :
  ∃ w', addChild 0 7 refreshExample = Returned w'
    ∧ children (conts w' 0) = children (conts refreshExample 0) ++ [7%nat]
    ∧ elements (this w') = elements (this refreshExample)
    ∧ containers (this w') = containers (this refreshExample)
    ∧ cachedAABB (objs w' 7) = Some (computeAABB (objs refreshExample 7))
    ∧ (∀ k, inBucket (hash (this w')) k 7%nat
            ↔ k ∈ rangeKeys (getBounds (this refreshExample)
                               (computeAABB (objs refreshExample 7))))
    ∧ (∀ a, a ≠ 7%nat → objs w' a = objs refreshExample a)
    ∧ (∀ k a, a ≠ 7%nat → inBucket (hash (this w')) k a
                          ↔ inBucket (hash (this refreshExample)) k a).
Proof.
  apply (child_added_is_indexed refreshExample 0 7).
  - exists (exampleWorld true true),
      [OpAdd 0 false; OpAddContainer 0 false; OpSetTransform 0 (boxAt 250 250 20 20)].
    split; [apply pristine_newWorld; lia|]. split; vm_compute; reflexivity.
  - vm_compute. left.
  - refine (bool_decide_unpack _ _). vm_compute. exact I.
Defined.

(** X29.  A child that leaves a registered container is taken out of the
    index by the listener that [addContainer] installed: in a world that a
    disciplined call sequence reaches, when the scene graph removes a child
    from a registered container and notifies the listeners, the object is a
    member of no bucket afterwards; no registration and no other object or
    bucket membership changes. *)
Theorem child_removed_is_unindexed (w : World) (c : cid) (o : oid) :
  reachable w → c ∈ containers (this w) → o ∈ children (conts w c) →
  ∃ w', removeChild c o w = Returned w'
    ∧ (∀ a, a ∈ children (conts w' c) ↔ a ∈ children (conts w c) ∧ a ≠ o)
    ∧ elements (this w') = elements (this w)
    ∧ containers (this w') = containers (this w)
    ∧ (∀ k, ¬ inBucket (hash (this w')) k o)
    ∧ (∀ a, a ≠ o → objs w' a = objs w a)
    ∧ (∀ k a, a ≠ o → inBucket (hash (this w')) k a ↔ inBucket (hash (this w)) k a).
Proof.
  intros HInv%reachable_Inv Hc Ho.
  destruct (removeChild_Inv c o w HInv (or_introl Hc)) as (w' & Hrem & HInv').
  exists w'. split; [done|].
  unfold removeChild in Hrem.
  pose proof (indexOf_present o _ Ho) as Hidx. apply Z.ltb_ge in Hidx.
  rewrite Hidx, emit_unfold in Hrem.
  apply deliver_frame in Hrem as (Hcfg & Hoth & _). cbn [objs with_cont] in Hoth.
  destruct (sameConfig_fields _ _ Hcfg) as (Hconts & _ & _ & _ & _ & He & Hk).
  destruct (inv_owned w HInv) as [_ _ O3 O4 O5].
  assert (∀ a, a ∈ children (conts w' c) ↔ a ∈ children (conts w c) ∧ a ≠ o) as Hch.
  { intros a. rewrite Hconts, conts_with_cont_eq. cbn [children set_children].
    apply splice_indexOf_elem; [done|by apply O3]. }
  assert (∀ c', c' ≠ c → children (conts w' c') = children (conts w c')) as Hch'.
  { intros c' Hne. by rewrite Hconts, conts_with_cont_ne. }
  split; [done|]. split; [done|]. split; [done|].
  assert (o ∉ trackedList w') as Hout.
  { rewrite elem_of_trackedList. intros [Hin|(c' & Hc' & Hin)].
    - rewrite He in Hin. by apply (O4 c o).
    - rewrite Hk in Hc'. destruct (decide (c' = c)) as [->|Hne].
      + apply Hch in Hin. tauto.
      + rewrite Hch' in Hin by done. apply Hne. by apply (O5 c' c o). }
  split.
  { intros k. rewrite Inv_membership by done.
    rewrite (ix_untracked _ _ (inv_indexed w' HInv') o Hout). apply not_elem_of_nil. }
  split; [done|]. intros k a Ha.
  apply bucket_mates_kept; [done|done|by apply Hoth].
Qed.

Lemma child_removed_is_unindexed_witness :
  ∃ w', removeChild 0 5 refreshExample = Returned w'
    ∧ (∀ a, a ∈ children (conts w' 0)
            ↔ a ∈ children (conts refreshExample 0) ∧ a ≠ 5%nat)
    ∧ elements (this w') = elements (this refreshExample)
    ∧ containers (this w') = containers (this refreshExample)
    ∧ (∀ k, ¬ inBucket (hash (this w')) k 5%nat)
    ∧ (∀ a, a ≠ 5%nat → objs w' a = objs refreshExample a)
    ∧ (∀ k a, a ≠ 5%nat → inBucket (hash (this w')) k a
                          ↔ inBucket (hash (this refreshExample)) k a).
Proof.
  apply (child_removed_is_unindexed refreshExample 0 5).
  - exists (exampleWorld true true),
      [OpAdd 0 false; OpAddContainer 0 false; OpSetTransform 0 (boxAt 250 250 20 20)].
    split; [apply pristine_newWorld; lia|]. split; vm_compute; reflexivity.
  - vm_compute. left.
  - vm_compute. left.
Defined.

(** ** [removeFromHash] outside the bookkeeping discipline *)

(** X30.  [removeFromHash] trusts the keys of the spatial state.  For an
    object whose only key names a bucket that does not list the object, the
    call returns and has deleted the last member of that bucket instead,
    leaving every other bucket as it was; and were that bucket missing, the
    call would throw a [TypeError]. *)
Theorem removeFromHash_trusts_spatial_state (w : World) (o b : oid) (sp : Spatial)
    (k : key) (l : list oid) :
  spatial (objs w o) = Some sp → hashes sp = [k] →
  hash (this w) !! k = Some (l ++ [b]) → o ∉ l ++ [b] →
  (∃ w', removeFromHash o w = Returned w'
     ∧ hash (this w') !! k = Some l
     ∧ (∀ k', k' ≠ k → hash (this w') !! k' = hash (this w) !! k')
     ∧ hashesOf (objs w' o) = [])
  ∧ removeFromHash o (with_this (set_hash (delete k (hash (this w)))) w)
    = Thrown TypeError.
Proof.
  intros Hsp Hks Hk Ho. unfold removeFromHash.
  change (objs (with_this _ w) o) with (objs w o). rewrite Hsp, Hks.
  change (reverse [k]) with [k]. cbn [purge]. split.
  - rewrite Hk, (indexOf_absent o _ Ho), splice1_minus_one.
    cbn [obind]. eexists. split; [reflexivity|].
    cbn [this with_obj with_this hash set_hash].
    split; [apply lookup_insert_eq|]. split.
    + intros k' Hne. by apply lookup_insert_ne.
    + by rewrite objs_with_obj_eq.
  - cbn [this with_this hash set_hash]. by rewrite lookup_delete_eq.
Qed.

Lemma removeFromHash_trusts_spatial_state_witness :
  (∃ w', removeFromHash 1 strayKeyExample = Returned w'
     ∧ hash (this w') !! mkKey 0 0 = Some []
     ∧ (∀ k', k' ≠ mkKey 0 0 →
              hash (this w') !! k' = hash (this strayKeyExample) !! k')
     ∧ hashesOf (objs w' 1) = [])
  ∧ removeFromHash 1
      (with_this (set_hash (delete (mkKey 0 0) (hash (this strayKeyExample))))
         strayKeyExample)
    = Thrown TypeError.
Proof.
  apply (removeFromHash_trusts_spatial_state strayKeyExample 1 0
           (mkSpatial [mkKey 0 0] None None None None) (mkKey 0 0) []).
  - vm_compute. reflexivity.
  - reflexivity.
  - vm_compute. reflexivity.
  - refine (bool_decide_unpack _ _). vm_compute. exact I.
Defined.
